(** * The pattern-matching core of R ([src/main/grep.c]), as a shallow embedding

    The development follows the C file function by function: [do_strsplit],
    [fgrep_one], [fgrep_one_bytes], [do_grep], [fgrepraw1], [do_grepraw],
    [string_adj], [count_subs], [R_pcre_string_adj], [do_gsub],
    [gregexpr_Regexc], [gregexpr_fixed], [R_pcre2_gregexpr], [do_regexpr],
    [do_regexec] and [jit_stack_size].

    Conventions.
    - A C string is the list of its bytes before the terminating NUL; a test
      [*p == 0] is a test for the end of the list, [p++] drops the head and
      [s[i]] is the [i]-th element.  Wide strings are lists of code points.
    - C [int]s, [size_t]s and pointer differences are [Z]; where the C code
      relies on unsigned wrap-around, or casts an offset of the engine to
      [int], the reduction is written out.  Signed overflow is undefined in
      C and is not modelled; the length of an R string fits an [int].
    - [warning()] appends to a log, [error()] aborts the call keeping the log.
    - The regular-expression engines (TRE, PCRE2), the locale and the
      CHARSXP translation routines are not in this file of the sources; they
      are parameters ([Host], [TRE], [PCRE]).  The PCRE2 branch of each
      [#ifdef HAVE_PCRE2] is the one that is modelled.
    - [while] loops whose termination depends on the engine take fuel and
      return [Fuel] when it runs out. *)

From Stdlib Require Import String Ascii ZArith List Bool Lia Floats.
Import ListNotations.
Local Open Scope Z_scope.
Set Warnings "-register-all".

(** ** C strings *)

Definition cstr := list ascii.
Definition wchar_t := Z.
Definition wstr := list wchar_t.

Definition str (s : string) : cstr := list_ascii_of_string s.

Definition code (c : ascii) : Z := Z.of_N (N_of_ascii c).

Definition strlen {A} (s : list A) : Z := Z.of_nat (length s).

(** [s + i] for a pointer [s] into a string. *)
Definition advance {A} (s : list A) (i : Z) : list A := skipn (Z.to_nat i) s.

(** The [n] units at [s]: what [strncpy (t, s, n)] or a copying loop moves. *)
Definition take {A} (n : Z) (s : list A) : list A := firstn (Z.to_nat n) s.

(** [s[i .. j)], the units a loop [for (k = i; k < j; k++) *u++ = s[k]] copies. *)
Definition slice {A} (s : list A) (i j : Z) : list A := take (j - i) (advance s i).

(** [s[i]] as an optional unit: [None] is the terminating NUL. *)
Definition char_at {A} (s : list A) (i : Z) : option A :=
  if i <? 0 then None else nth_error s (Z.to_nat i).

(** [s[i] == 0]. *)
Definition at_end {A} (s : list A) (i : Z) : bool :=
  match char_at s i with None => true | Some _ => false end.

Fixpoint cstr_eqb (a b : cstr) : bool :=
  match a, b with
  | [], [] => true
  | x :: a', y :: b' => Ascii.eqb x y && cstr_eqb a' b'
  | _, _ => false
  end.

(** [strncmp (a, b, n) == 0] for strings without embedded NULs. *)
Definition strncmp_eq (a b : cstr) (n : Z) : bool := cstr_eqb (take n a) (take n b).

Definition MAX (a b : Z) : Z := if a >? b then a else b.

Definition INT_MAX : Z := 2147483647.
Definition NA_INTEGER : Z := -2147483648.
Definition NA_LOGICAL : Z := -2147483648.

(** Conversion of a C [int] to [R_size_t] (64-bit unsigned). *)
Definition to_size_t (x : Z) : Z := x mod 2 ^ 64.

(** The cast [(int) x] of a [size_t]: reduction to 32 bits, signed. *)
Definition to_int (x : Z) : Z := (x + 2 ^ 31) mod 2 ^ 32 - 2 ^ 31.

(** ** R values *)

(** Modelled from the spec: the per-element encoding tag ([Defn.h]'s
    [IS_ASCII], [IS_BYTES], [IS_UTF8], [IS_LATIN1] are not under src). *)
Inductive enc_tag := Unknown | Latin1 | Utf8 | Bytes | ASCII.

Inductive CHARSXP :=
| NA_STRING
| Chars (tag : enc_tag) (bytes : cstr).

Definition is_NA (e : CHARSXP) : bool :=
  match e with NA_STRING => true | _ => false end.

(** [CHAR (x)]: the bytes of an element; the missing value holds ["NA"]. *)
Definition CHAR (e : CHARSXP) : cstr :=
  match e with NA_STRING => str "NA" | Chars _ b => b end.

Definition IS_ASCII (e : CHARSXP) : bool :=
  match e with Chars ASCII _ => true | _ => false end.
Definition IS_BYTES (e : CHARSXP) : bool :=
  match e with Chars Bytes _ => true | _ => false end.
Definition IS_UTF8 (e : CHARSXP) : bool :=
  match e with Chars Utf8 _ => true | _ => false end.
Definition IS_LATIN1 (e : CHARSXP) : bool :=
  match e with Chars Latin1 _ => true | _ => false end.

Inductive SEXP :=
| R_NilValue
| LGLSXP (v : list Z) (attrib : list (string * SEXP))
| INTSXP (v : list Z) (attrib : list (string * SEXP))
| REALSXP (v : list Z) (attrib : list (string * SEXP))
| STRSXP (v : list CHARSXP) (attrib : list (string * SEXP))
| VECSXP (v : list SEXP) (attrib : list (string * SEXP))
| RAWSXP (v : list ascii).

Definition isString (x : SEXP) : bool :=
  match x with STRSXP _ _ => true | _ => false end.
Definition isRaw (x : SEXP) : bool :=
  match x with RAWSXP _ => true | _ => false end.

Definition ATTRIB (x : SEXP) : list (string * SEXP) :=
  match x with
  | LGLSXP _ a | INTSXP _ a | REALSXP _ a | STRSXP _ a | VECSXP _ a => a
  | _ => []
  end.

Fixpoint assoc (k : string) (l : list (string * SEXP)) : SEXP :=
  match l with
  | [] => R_NilValue
  | (k', v) :: l' => if String.eqb k k' then v else assoc k l'
  end.

Definition getAttrib (x : SEXP) (name : string) : SEXP := assoc name (ATTRIB x).

Definition isNull (x : SEXP) : bool :=
  match x with R_NilValue => true | _ => false end.

(** The elements of a character vector (empty for any other value). *)
Definition STRING_ELTS (x : SEXP) : list CHARSXP :=
  match x with STRSXP v _ => v | _ => [] end.

Definition RAW (x : SEXP) : list ascii :=
  match x with RAWSXP v => v | _ => [] end.

Definition LENGTH (x : SEXP) : Z :=
  match x with
  | R_NilValue => 0
  | LGLSXP v _ | INTSXP v _ | REALSXP v _ => strlen v
  | STRSXP v _ => strlen v
  | VECSXP v _ => strlen v
  | RAWSXP v => strlen v
  end.

(** [STRING_ELT (x, 0)] of a vector known to have an element. *)
Definition STRING_ELT0 (x : SEXP) : CHARSXP := nth 0 (STRING_ELTS x) NA_STRING.

Definition ScalarString (e : CHARSXP) : SEXP := STRSXP [e] [].
Definition ScalarInteger (i : Z) : SEXP := INTSXP [i] [].
Definition mkString (s : cstr) : SEXP := STRSXP [Chars ASCII s] [].

(** A logical argument after [asLogical]: [None] is [NA_INTEGER]. *)
Definition Rflag := option bool.

(** [if (x == NA_INTEGER) x = 0;] *)
Definition na_false (x : Rflag) : bool :=
  match x with Some b => b | None => false end.

(** ** Conditions: warnings and errors *)

Inductive condition :=
| arg_ignored (arg : string)        (* argument '%s' will be ignored *)
| invalid_arg (arg : string)        (* invalid '%s' argument *)
| arg_length_gt1 (arg : string)     (* argument '%s' has length > 1 and only the first element will be used *)
| non_character_argument            (* non-character argument *)
| input_invalid_utf8 (i : Z)        (* input string %d is invalid UTF-8 *)
| input_invalid_locale (i : Z)      (* input string %d is invalid in this locale *)
| split_invalid_utf8 (i : Z)        (* 'split' string %d is invalid UTF-8 *)
| split_invalid_locale (i : Z)      (* 'split' string %d is invalid in this locale *)
| regex_invalid_utf8                (* regular expression is invalid UTF-8 *)
| regex_invalid_locale              (* regular expression is invalid in this locale *)
| pattern_invalid_utf8              (* 'pattern' is invalid UTF-8 *)
| pattern_invalid_locale            (* 'pattern' is invalid in this locale *)
| replacement_invalid_utf8          (* 'replacement' is invalid UTF-8 *)
| replacement_invalid_locale        (* 'replacement' is invalid in this locale *)
| zero_length_pattern               (* zero-length pattern *)
| result_string_too_long            (* result string is too long *)
| infinite_empty_match              (* pattern matches an empty string infinitely, returning first match only *)
| out_of_memory (i : Z)             (* Out-of-memory error in regexp matching for element %d *)
| tre_compile_warning (rc : Z)      (* TRE pattern compilation error '%s' *)
| invalid_regex (pat : option cstr) (rc : Z) (* invalid regular expression '%s', reason '%s' *)
| regcomp_error (rc : Z)            (* regcomp error: '%s' *)
| pcre_compile_warning (rc : Z) (at_ : cstr) (* PCRE pattern compilation error '%s' at '%s' *)
| pcre_invalid_regex (pat : cstr)   (* invalid regular expression '%s' *)
| pcre_jit_warning (rc : Z)         (* PCRE JIT compilation error '%s' *)
| pcre_exec_warning (rc : Z) (i : Z) (* PCRE error '%s' for element %d *)
| pcre_patterninfo_error (rc : Z)   (* 'pcre2_patterninfo' returned '%d' *)
| too_long_a_vector                 (* too long a vector *)
| jit_stack_maxsize_invalid.        (* R_PCRE_JIT_STACK_MAXSIZE invalid and ignored *)

Inductive result (A : Type) :=
| Val (a : A)
| Err (e : condition)
| Fuel.
Arguments Val {A} a.
Arguments Err {A} e.
Arguments Fuel {A}.

(** A computation: the warnings it gave, in order, and how it ended. *)
Definition M (A : Type) : Type := list condition * result A.

Definition ret {A} (a : A) : M A := ([], Val a).
Definition warning (c : condition) : M unit := ([c], Val tt).
Definition error {A} (c : condition) : M A := ([], Err c).
Definition out_of_fuel {A} : M A := ([], Fuel).

Definition bind {A B} (m : M A) (f : A -> M B) : M B :=
  match m with
  | (w, Val a) => let (w', r) := f a in (w ++ w', r)
  | (w, Err e) => (w, Err e)
  | (w, Fuel) => (w, Fuel)
  end.

Declare Scope R_scope.
Delimit Scope R_scope with R.
Notation "x <- m ;; k" := (bind m (fun x => k))
  (at level 61, m at next level, right associativity) : R_scope.
Notation "' p <- m ;; k" := (bind m (fun x => match x with p => k end))
  (at level 61, p pattern, m at next level, right associativity) : R_scope.
Notation "m ;; k" := (bind m (fun _ => k))
  (at level 61, right associativity) : R_scope.
Local Open Scope R_scope.

(** [if (c) warning (...)]. *)
Definition warn_if (b : bool) (c : condition) : M unit :=
  if b then warning c else ret tt.

(** [if (c) error (...)]. *)
Definition error_if (b : bool) (c : condition) : M unit :=
  if b then error c else ret tt.

Definition warnings {A} (m : M A) : list condition := fst m.
Definition outcome {A} (m : M A) : result A := snd m.

(** ** The host: locale, translation and CHARSXP construction

    What [grep.c] consumes from the rest of R ([Defn.h], [util.c],
    [sysutils.c], [arithmetic.c]) and from the C library. *)

Record Host := {
  mbcslocale : bool;
  utf8locale : bool;
  latin1locale : bool;
  R_PCRE_use_JIT : bool;
  translateChar : CHARSXP -> cstr;
  translateCharUTF8 : CHARSXP -> cstr;
  wtransChar : CHARSXP -> wstr;
  utf8Valid : cstr -> bool;
  mbcsValid : cstr -> bool;
  strIsASCII : cstr -> bool;
  (** [utf8clen (c)]: the length of the UTF-8 character a byte starts. *)
  utf8clen : ascii -> Z;
  (** [Mbrtowc (NULL, s, MB_CUR_MAX, &mb_st)]: bytes of the next character. *)
  Mbrtowc : cstr -> Z;
  (** [mbstowcs (NULL, s, 0)] and [utf8towcs (NULL, s, 0)]: character counts. *)
  mbstowcs : cstr -> Z;
  utf8towcs : cstr -> Z;
  mkChar : cstr -> CHARSXP;
  (** [mkCharCE (s, CE_UTF8)]. *)
  mkCharCE_UTF8 : cstr -> CHARSXP;
  markKnown : cstr -> CHARSXP -> CHARSXP;
  (** [mkCharW (wc)] and [mkCharWLen (wc, nc)]: wide characters to UTF-8. *)
  mkCharW : wstr -> CHARSXP;
  toupper : ascii -> ascii;
  tolower : ascii -> ascii;
  (** [towctrans] through [wctrans ("toupper")] and [wctrans ("tolower")],
      between [utf8towcs] and [wcstoutf8], on a UTF-8 string. *)
  utf8_toupper : cstr -> option cstr;
  utf8_tolower : cstr -> option cstr;
  getenv : string -> option cstr;
  R_strtod : cstr -> float
}.

(** ** The engines *)

Record regmatch_t := { rm_so : Z; rm_eo : Z }.

Record cflags_t := {
  REG_EXTENDED : bool; REG_ICASE : bool; REG_NOSUB : bool; REG_LITERAL : bool
}.

Inductive tre_rc := REG_OK | REG_NOMATCH | REG_ESPACE.

(** TRE.  A compile gives the compiled expression or the error code; an
    exec takes the expression, the string, [nmatch] and whether
    [REG_NOTBOL] is set, and gives the code and the [pmatch] array. *)
Record TRE := {
  regex_t : Type;
  re_nsub : regex_t -> Z;
  tre_regcomp : cstr -> cflags_t -> regex_t + Z;
  tre_regcompb : cstr -> cflags_t -> regex_t + Z;
  tre_regwcomp : wstr -> cflags_t -> regex_t + Z;
  tre_regncompb : list ascii -> cflags_t -> regex_t + Z;
  tre_regexec : regex_t -> cstr -> Z -> bool -> tre_rc * list regmatch_t;
  tre_regexecb : regex_t -> cstr -> Z -> bool -> tre_rc * list regmatch_t;
  tre_regwexec : regex_t -> wstr -> Z -> bool -> tre_rc * list regmatch_t;
  tre_regnexecb : regex_t -> list ascii -> Z -> bool -> tre_rc * list regmatch_t
}.

(** What [R_pcre2_prepare] sets in the match context. *)
Record mcontext_t := { jit_stack_assigned : bool }.

(** PCRE2.  A match takes the code, the subject, the start offset, whether
    [PCRE2_NOTBOL] is set and the match context, and gives the return code
    and the ovector. *)
Record PCRE := {
  pcre2_code : Type;
  PCRE2_ERROR_NOMATCH : Z;
  PCRE2_ERROR_JIT_BADOPTION : Z;
  (** pattern, [PCRE2_UTF], [PCRE2_CASELESS], locale tables installed *)
  pcre2_compile : cstr -> bool -> bool -> bool -> pcre2_code + (Z * Z);
  pcre2_jit_compile : pcre2_code -> Z;
  (** [pcre2_jit_stack_create (start, max, NULL)] succeeded *)
  pcre2_jit_stack_create : Z -> Z -> bool;
  pcre2_match : pcre2_code -> cstr -> Z -> bool -> mcontext_t -> Z * list Z;
  (** [PCRE2_INFO_CAPTURECOUNT]: the return code and the count *)
  pcre2_capture_count : pcre2_code -> Z * Z;
  (** [PCRE2_INFO_NAMETABLE]: group number and name of each entry *)
  pcre2_name_table : pcre2_code -> list (Z * cstr)
}.

(** [ovector[i]]. *)
Definition ov (ovector : list Z) (i : nat) : Z := nth i ovector 0.

(** [regmatch[k]]. *)
Definition rm (regmatch : list regmatch_t) (k : nat) : regmatch_t :=
  nth k regmatch {| rm_so := 0; rm_eo := 0 |}.

(** ** Loops over vector elements *)

Fixpoint foldM {A S} (f : S -> A -> M S) (l : list A) (s : S) : M S :=
  match l with
  | [] => ret s
  | a :: l' => s' <- f s a ;; foldM f l' s'
  end.

(** The indices [0 .. n-1] paired with the elements. *)
Fixpoint indexed {A} (i : Z) (l : list A) : list (Z * A) :=
  match l with
  | [] => []
  | a :: l' => (i, a) :: indexed (i + 1) l'
  end.

(** [STRING_ELT (x, i)]. *)
Definition STRING_ELT (x : SEXP) (i : Z) : CHARSXP :=
  nth (Z.to_nat i) (STRING_ELTS x) NA_STRING.

(** [s[i]], with the terminator read as NUL. *)
Definition byte_at (s : cstr) (i : Z) : ascii := nth (Z.to_nat i) s Ascii.zero.

(** [SET_VECTOR_ELT (ans, i, v)]. *)
Fixpoint set_nth {A} (i : nat) (v : A) (l : list A) : list A :=
  match l, i with
  | [], _ => []
  | _ :: l', O => v :: l'
  | a :: l', S i' => a :: set_nth i' v l'
  end.

Definition SET_VECTOR_ELT {A} (ans : list A) (i : Z) (v : A) : list A :=
  set_nth (Z.to_nat i) v ans.

(** The indices of [for (i = itok; i < len; i += tlen)]. *)
Fixpoint stride (n : nat) (i tlen len : Z) : list Z :=
  match n with
  | O => []
  | S n' => if i <? len then i :: stride n' (i + tlen) tlen len else []
  end.

(** The state of a replacement loop: the output so far ([cbuf] up to [u]),
    the offset into the subject, the capacity, and the rest. *)
Record gsub_state (A : Type) := {
  out : list A;
  offset : Z;
  nns : Z;
  nmatch : Z;
  eflag : bool;
  last_end : Z
}.
Arguments out {A} _.
Arguments offset {A} _.
Arguments nns {A} _.
Arguments nmatch {A} _.
Arguments eflag {A} _.
Arguments last_end {A} _.

Section Grep.

Variable H : Host.
Variable T : TRE.
Variable P : PCRE.

(** ** [jit_stack_size] and [setup_jit] *)

(** [#define JIT_STACK_MAX 64*1024*1024] *)
Definition JIT_STACK_MAX : Z := 64 * 1024 * 1024.

(** The cast [(int) x] of a double within the range of [int]: truncation. *)
Definition double_to_int (x : float) : Z :=
  match Prim2SF x with
  | S754_finite s m e =>
      let a := if 0 <=? e then Z.pos m * 2 ^ e else Z.pos m / 2 ^ (- e) in
      if s then - a else a
  | _ => 0
  end.

Definition jit_stack_size : M Z :=
  let stmax := JIT_STACK_MAX in
  match getenv H "R_PCRE_JIT_STACK_MAXSIZE" with
  | Some p =>
      let xdouble := R_strtod H p in
      if (PrimFloat.leb 0 xdouble && PrimFloat.leb xdouble 1000)%bool
      then ret (double_to_int (xdouble * 1024 * 1024)%float)
      else warning jit_stack_maxsize_invalid ;; ret stmax
  | None => ret stmax
  end.

(** [setup_jit]: the static [jit_stack] is allocated at first use; the
    function is given whether it is allocated and gives its new state and
    whether it was assigned to the match context. *)
Definition setup_jit (jit_stack : bool) : M (bool * mcontext_t) :=
  jit_stack' <-
    (if negb jit_stack
     then stmax <- jit_stack_size ;; ret (pcre2_jit_stack_create P (32 * 1024) stmax)
     else ret jit_stack) ;;
  ret (jit_stack', {| jit_stack_assigned := jit_stack' |}).

(** ** Error reports *)

Definition reg_report {A} (rc : Z) (pat : option cstr) : M A :=
  match pat with
  | Some p => warning (tre_compile_warning rc) ;; error (invalid_regex (Some p) rc)
  | None => error (invalid_regex None rc)
  end.

Definition R_pcre_exec_error (rc : Z) (i : Z) : M unit :=
  if (rc >=? 0) || (rc =? PCRE2_ERROR_NOMATCH P) then ret tt
  else warning (pcre_exec_warning rc (i + 1)).

(** [if (rc == REG_ESPACE) warning (...)]. *)
Definition espace_warning (rc : tre_rc) (i : Z) : M unit :=
  match rc with REG_ESPACE => warning (out_of_memory (i + 1)) | _ => ret tt end.

(** ** [R_pcre2_prepare]

    The compiled code and the match context; the static [jit_stack] is
    threaded.  The recursion limit is compiled only for PCRE2 before 10.30
    ([R_PCRE_LIMIT_RECURSION]) and is left out. *)
Definition R_pcre2_prepare (pattern : cstr) (use_UTF8 caseless : bool)
    (jit_stack : bool) : M (pcre2_code P * mcontext_t * bool) :=
  match pcre2_compile P pattern use_UTF8 caseless (negb use_UTF8) with
  | inr (errcode, erroffset) =>
      warning (pcre_compile_warning errcode (advance pattern erroffset)) ;;
      error (pcre_invalid_regex pattern)
  | inl re =>
      let mcontext := {| jit_stack_assigned := false |} in
      if R_PCRE_use_JIT H then
        let rc := pcre2_jit_compile P re in
        warn_if (negb (rc =? 0) && negb (rc =? PCRE2_ERROR_JIT_BADOPTION P))
                (pcre_jit_warning rc) ;;
        if rc =? 0 then
          '(jit_stack', mcontext') <- setup_jit jit_stack ;;
          ret (re, mcontext', jit_stack')
        else ret (re, mcontext, jit_stack)
      else ret (re, mcontext, jit_stack)
  end.

(** ** [fgrep_one] and [fgrep_one_bytes] *)

(** [for (i = 0, p = target; *p; p++, i++) if (p[0] == pat[0]) return i;] *)
Fixpoint find_byte (c : ascii) (target : cstr) (i : Z) : Z :=
  match target with
  | [] => -1
  | x :: p => if Ascii.eqb x c then i else find_byte c p (i + 1)
  end.

(** The loop the three multi-byte scans share:
    [for (ib = 0, i = 0; ib <= len-plen; i++) {
       if (strncmp (pat, target+ib, plen) == 0) <found at ib, i>;
       used = <step>; if (used <= 0) break; ib += used; }]
    [None] when the loop ends without a match. *)
Fixpoint fgrep_scan (n : nat) (step : Z -> Z) (pat target : cstr)
    (len plen ib i : Z) : option (Z * Z) :=
  match n with
  | O => None
  | S n' =>
      if ib <=? len - plen then
        if strncmp_eq pat (advance target ib) plen then Some (ib, i)
        else
          let used := step ib in
          if used <=? 0 then None
          else fgrep_scan n' step pat target len plen (ib + used) (i + 1)
      else None
  end.

(** Which of the scans [fgrep_one] and [fgrep_one_bytes] run after the
    single-byte case: by UTF-8 character, by locale character, or by byte. *)
Definition fgrep_step (useBytes use_UTF8 : bool) (target : cstr) (ib : Z) : Z :=
  if negb useBytes && use_UTF8 then utf8clen H (byte_at target ib)
  else if negb useBytes && mbcslocale H then Mbrtowc H (advance target ib)
  else 1.

(** The match position in characters and the value stored through [next]
    ([None] when nothing is stored). *)
Definition fgrep_one (pat target : cstr) (useBytes use_UTF8 : bool)
    : Z * option Z :=
  let plen := strlen pat in
  let len := strlen target in
  if plen =? 0 then (0, Some 1)
  else if (plen =? 1) && (useBytes || negb (mbcslocale H || use_UTF8)) then
    let i := find_byte (byte_at pat 0) target 0 in
    if i <? 0 then (-1, None) else (i, Some (i + 1))
  else
    match fgrep_scan (S (length target)) (fgrep_step useBytes use_UTF8 target)
            pat target len plen 0 0 with
    | Some (ib, i) => (i, Some (ib + plen))
    | None => (-1, None)
    end.

(** The match position in bytes; [len] is the length of [target]. *)
Definition fgrep_one_bytes (pat target : cstr) (len : Z)
    (useBytes use_UTF8 : bool) : Z :=
  let plen := strlen pat in
  if plen =? 0 then 0
  else if (plen =? 1) && (useBytes || negb (mbcslocale H || use_UTF8)) then
    find_byte (byte_at pat 0) target 0
  else
    match fgrep_scan (S (length target)) (fgrep_step useBytes use_UTF8 target)
            pat target len plen 0 0 with
    | Some (ib, _) => ib
    | None => -1
    end.

(** ** [do_strsplit] *)

Definition NWARN : Z := 5.

(** [R_BlankString], the initial content of a fresh character vector. *)
Definition R_BlankString : CHARSXP := Chars ASCII [].

(** The buffer of an element of [x], as each branch of [do_strsplit]
    computes it; [None] when the element is invalid (a warning for the
    first [NWARN], and the element's result is the missing value). *)
Definition split_input (useBytes use_UTF8 : bool) (xi : CHARSXP) (i nwarn : Z)
    : M (option cstr * Z) :=
  if useBytes then ret (Some (CHAR xi), nwarn)
  else if use_UTF8 then
    let buf := translateCharUTF8 H xi in
    if negb (utf8Valid H buf) then
      warn_if (nwarn <? NWARN) (input_invalid_utf8 (i + 1)) ;;
      ret (None, nwarn + 1)
    else ret (Some buf, nwarn)
  else
    let buf := translateChar H xi in
    if mbcslocale H && negb (mbcsValid H buf) then
      warn_if (nwarn <? NWARN) (input_invalid_locale (i + 1)) ;;
      ret (None, nwarn + 1)
    else ret (Some buf, nwarn).

(** The token made from [pt]. *)
Definition split_token (use_UTF8 : bool) (xi : CHARSXP) (pt : cstr) : CHARSXP :=
  if use_UTF8 then mkCharCE_UTF8 H pt else markKnown H pt xi.

(** *** The empty split: one token per character *)

(** [for (ntok = 0; *p; p += used, ntok++) used = utf8clen (p[0]);] *)
Fixpoint utf8_count (fuel : nat) (buf : cstr) (p : Z) (ntok : nat) : option nat :=
  match fuel with
  | O => None
  | S f =>
      if at_end buf p then Some ntok
      else utf8_count f buf (p + utf8clen H (byte_at buf p)) (S ntok)
  end.

(** [for (j = 0; j < ntok; j++, p += used) { used = utf8clen (p[0]); ... }] *)
Fixpoint utf8_fill (ntok : nat) (buf : cstr) (p : Z) : list CHARSXP :=
  match ntok with
  | O => []
  | S k =>
      let used := utf8clen H (byte_at buf p) in
      mkCharCE_UTF8 H (take used (advance buf p)) :: utf8_fill k buf (p + used)
  end.

Fixpoint mbcs_fill (ntok : nat) (xi : CHARSXP) (buf : cstr) (p : Z) : list CHARSXP :=
  match ntok with
  | O => []
  | S k =>
      let used := Mbrtowc H (advance buf p) in
      markKnown H (take used (advance buf p)) xi :: mbcs_fill k xi buf (p + used)
  end.

Definition split_chars (fuel : nat) (useBytes use_UTF8 : bool) (xi : CHARSXP)
    (buf : cstr) : M SEXP :=
  if negb useBytes && (use_UTF8 || mbcslocale H) && negb (strIsASCII H buf) then
    if use_UTF8 then
      match utf8_count fuel buf 0 O with
      | None => out_of_fuel
      | Some ntok => ret (STRSXP (utf8_fill ntok buf 0) [])
      end
    else
      let nt := mbstowcs H buf in
      if nt <? 0 then ret (ScalarString NA_STRING)
      else ret (STRSXP (mbcs_fill (Z.to_nat nt) xi buf 0) [])
  else
    ret (STRSXP (map (fun c => markKnown H [c] xi) buf) []).

(** The vector of an element: [allocVector (STRSXP, ntok + ( *bufp ? 1 : 0))]
    with [bufp] as the counting pass left it ([counted_end] is [*bufp == 0]
    there), the [ntok] tokens [ts], and the tail, stored when [*bufp] is not
    NUL after the filling pass. *)
Definition split_result (use_UTF8 : bool) (xi : CHARSXP) (buf : cstr)
    (counted_end : bool) (ts : list CHARSXP) (bufp : Z) : SEXP :=
  if counted_end then STRSXP ts []
  else if at_end buf bufp then STRSXP (ts ++ [R_BlankString]) []
  else STRSXP (ts ++ [split_token use_UTF8 xi (advance buf bufp)]) [].

(** *** The fixed split *)

(** [(slen == 1 && *bufp != *split) || (slen > 1 && strncmp (bufp, split, slen))] *)
Definition fixed_nomatch (buf split : cstr) (slen bufp : Z) : bool :=
  ((slen =? 1) && negb (Ascii.eqb (byte_at buf bufp) (byte_at split 0)))
  || ((slen >? 1) && negb (strncmp_eq (advance buf bufp) split slen)).

(** The counting loop: [ntok] and [laststart] when it ends. *)
Fixpoint fixed_count (n : nat) (buf split : cstr) (slen ebuf bufp ntok laststart : Z)
    : Z * Z :=
  match n with
  | O => (ntok, laststart)
  | S n' =>
      if bufp <? ebuf then
        if fixed_nomatch buf split slen bufp
        then fixed_count n' buf split slen ebuf (bufp + 1) ntok laststart
        else
          let bufp' := bufp + MAX (slen - 1) 0 in
          fixed_count n' buf split slen ebuf (bufp' + 1) (ntok + 1) (bufp' + 1)
      else (ntok, laststart)
  end.

(** The inner loop of the filling pass: the next match at or after [bufp]. *)
Fixpoint fixed_next (n : nat) (buf split : cstr) (slen ebuf bufp : Z) : option Z :=
  match n with
  | O => None
  | S n' =>
      if bufp <? ebuf then
        if fixed_nomatch buf split slen bufp
        then fixed_next n' buf split slen ebuf (bufp + 1)
        else Some bufp
      else None
  end.

(** The filling pass: the [ntok] tokens and [bufp] when it ends. *)
Fixpoint fixed_fill (ntok : nat) (use_UTF8 : bool) (xi : CHARSXP)
    (buf split : cstr) (slen ebuf laststart : Z) : list CHARSXP * Z :=
  match ntok with
  | O => ([], laststart)
  | S k =>
      match fixed_next (S (length buf)) buf split slen ebuf laststart with
      | Some bufp =>
          let pt := if slen =? 0 then [byte_at buf bufp]
                    else slice buf laststart bufp in
          let laststart' := bufp + MAX (slen - 1) 0 + 1 in
          let '(ts, e) := fixed_fill k use_UTF8 xi buf split slen ebuf laststart' in
          (split_token use_UTF8 xi pt :: ts, e)
      | None =>
          let '(ts, e) := fixed_fill k use_UTF8 xi buf split slen ebuf laststart in
          (R_BlankString :: ts, e)
      end
  end.

Definition split_fixed (use_UTF8 : bool) (xi : CHARSXP) (buf split : cstr) : SEXP :=
  let slen := strlen split in
  let ebuf := strlen buf in
  let '(ntok, laststart) :=
    fixed_count (S (length buf)) buf split slen ebuf 0 0 0 in
  let '(ts, bufp) :=
    fixed_fill (Z.to_nat ntok) use_UTF8 xi buf split slen ebuf 0 in
  split_result use_UTF8 xi buf (at_end buf laststart) ts bufp.

(** *** The Perl split *)

(** The counting loop, entered when [*bufp] is not NUL:
    [while ((rc = pcre2_match (re, bufp, ...)) >= 0) {
       bufp += MAX (ovector[1], 1); ntok++; if ( *bufp == 0) break; }]
    gives [ntok], [bufp] and the last [rc]. *)
Fixpoint perl_count (n : nat) (re : pcre2_code P) (mc : mcontext_t) (buf : cstr)
    (bufp : Z) (ntok : nat) : nat * Z * Z :=
  match n with
  | O => (ntok, bufp, 0)
  | S n' =>
      let '(rc, ovector) := pcre2_match P re (advance buf bufp) 0 false mc in
      if rc >=? 0 then
        let bufp' := bufp + MAX (ov ovector 1) 1 in
        if at_end buf bufp' then (S ntok, bufp', rc)
        else perl_count n' re mc buf bufp' (S ntok)
      else (ntok, bufp, rc)
  end.

Fixpoint perl_fill (ntok : nat) (re : pcre2_code P) (mc : mcontext_t)
    (use_UTF8 : bool) (xi : CHARSXP) (i : Z) (buf : cstr) (bufp : Z)
    : M (list CHARSXP * Z) :=
  match ntok with
  | O => ret ([], bufp)
  | S k =>
      let '(rc, ovector) := pcre2_match P re (advance buf bufp) 0 false mc in
      R_pcre_exec_error rc i ;;
      let '(pt, bufp') :=
        if ov ovector 1 >? 0
        then (take (ov ovector 0) (advance buf bufp), bufp + ov ovector 1)
        else (take 1 (advance buf bufp), bufp + 1) in
      '(ts, e) <- perl_fill k re mc use_UTF8 xi i buf bufp' ;;
      ret (split_token use_UTF8 xi pt :: ts, e)
  end.

Definition split_perl (re : pcre2_code P) (mc : mcontext_t) (use_UTF8 : bool)
    (xi : CHARSXP) (i : Z) (buf : cstr) : M SEXP :=
  '(ntok, bufp) <-
    (if at_end buf 0 then ret (O, 0)
     else
       let '(ntok, bufp, rc) := perl_count (S (length buf)) re mc buf 0 O in
       R_pcre_exec_error rc i ;; ret (ntok, bufp)) ;;
  '(ts, bufp') <- perl_fill ntok re mc use_UTF8 xi i buf 0 ;;
  ret (split_result use_UTF8 xi buf (at_end buf bufp) ts bufp').

(** *** The extended-regexp split, in [char] and in [wchar_t] *)

Fixpoint ere_count (n : nat) (reg : regex_t T) (buf : cstr) (bufp : Z) (ntok : nat)
    (regmatch : list regmatch_t) : nat * Z * tre_rc * list regmatch_t :=
  match n with
  | O => (ntok, bufp, REG_OK, regmatch)
  | S n' =>
      match tre_regexec T reg (advance buf bufp) 1 false with
      | (REG_OK, regmatch') =>
          let bufp' := bufp + MAX (rm_eo (rm regmatch' 0)) 1 in
          if at_end buf bufp' then (S ntok, bufp', REG_OK, regmatch')
          else ere_count n' reg buf bufp' (S ntok) regmatch'
      | (rc, _) => (ntok, bufp, rc, regmatch)
      end
  end.

Fixpoint ere_fill (ntok : nat) (reg : regex_t T) (xi : CHARSXP) (i : Z)
    (buf : cstr) (bufp : Z) (regmatch : list regmatch_t) : M (list CHARSXP * Z) :=
  match ntok with
  | O => ret ([], bufp)
  | S k =>
      let '(rc, pmatch) := tre_regexec T reg (advance buf bufp) 1 false in
      let regmatch' := match rc with REG_OK => pmatch | _ => regmatch end in
      espace_warning rc i ;;
      let '(pt, bufp') :=
        if rm_eo (rm regmatch' 0) >? 0
        then (take (rm_so (rm regmatch' 0)) (advance buf bufp),
              bufp + rm_eo (rm regmatch' 0))
        else (take 1 (advance buf bufp), bufp + 1) in
      '(ts, e) <- ere_fill k reg xi i buf bufp' regmatch' ;;
      ret (markKnown H pt xi :: ts, e)
  end.

(** [regmatch] is read in the filling pass only after an exec of the
    counting pass has stored it, so its content at entry is immaterial. *)
Definition split_ere (reg : regex_t T) (xi : CHARSXP) (i : Z) (buf : cstr)
    : M SEXP :=
  '(ntok, bufp, regmatch1) <-
    (if at_end buf 0 then ret (O, 0, [])
     else
       let '(ntok, bufp, rc, regmatch1) :=
         ere_count (S (length buf)) reg buf 0 O [] in
       espace_warning rc i ;; ret (ntok, bufp, regmatch1)) ;;
  '(ts, bufp') <- ere_fill ntok reg xi i buf 0 regmatch1 ;;
  ret (split_result false xi buf (at_end buf bufp) ts bufp').

Fixpoint wc_count (n : nat) (reg : regex_t T) (wbuf : wstr) (wbufp : Z) (ntok : nat)
    (regmatch : list regmatch_t) : nat * Z * list regmatch_t :=
  match n with
  | O => (ntok, wbufp, regmatch)
  | S n' =>
      match tre_regwexec T reg (advance wbuf wbufp) 1 false with
      | (REG_OK, regmatch') =>
          let wbufp' := wbufp + MAX (rm_eo (rm regmatch' 0)) 1 in
          if at_end wbuf wbufp' then (S ntok, wbufp', regmatch')
          else wc_count n' reg wbuf wbufp' (S ntok) regmatch'
      | (_, _) => (ntok, wbufp, regmatch)
      end
  end.

(** A token is [mkCharWLen (wpt, regmatch[0].rm_so)] in both cases. *)
Fixpoint wc_fill (ntok : nat) (reg : regex_t T) (wbuf : wstr) (wbufp : Z)
    (regmatch : list regmatch_t) : list CHARSXP * Z :=
  match ntok with
  | O => ([], wbufp)
  | S k =>
      let '(rc, pmatch) := tre_regwexec T reg (advance wbuf wbufp) 1 false in
      let regmatch' := match rc with REG_OK => pmatch | _ => regmatch end in
      let '(wpt, wbufp') :=
        if rm_eo (rm regmatch' 0) >? 0
        then (take (rm_so (rm regmatch' 0)) (advance wbuf wbufp),
              wbufp + rm_eo (rm regmatch' 0))
        else (take 1 (advance wbuf wbufp), wbufp + 1) in
      let '(ts, e) := wc_fill k reg wbuf wbufp' regmatch' in
      (mkCharW H (take (rm_so (rm regmatch' 0)) wpt) :: ts, e)
  end.

Definition split_wc (reg : regex_t T) (xi : CHARSXP) : SEXP :=
  let wbuf := wtransChar H xi in
  let '(ntok, wbufp, regmatch1) :=
    if at_end wbuf 0 then (O, 0, [])
    else wc_count (S (length wbuf)) reg wbuf 0 O [] in
  let '(ts, wbufp') := wc_fill ntok reg wbuf 0 regmatch1 in
  if at_end wbuf wbufp then STRSXP ts []
  else if at_end wbuf wbufp' then STRSXP (ts ++ [R_BlankString]) []
  else STRSXP (ts ++ [mkCharW H (advance wbuf wbufp')]) [].

(** *** The function *)

(** [split] for the fixed and the Perl branch. *)
Definition split_pattern (useBytes use_UTF8 : bool) (this : CHARSXP) (itok : Z)
    : M cstr :=
  if useBytes then ret (CHAR this)
  else if use_UTF8 then
    let split := translateCharUTF8 H this in
    error_if (negb (utf8Valid H split)) (split_invalid_utf8 (itok + 1)) ;;
    ret split
  else
    let split := translateChar H this in
    error_if (mbcslocale H && negb (mbcsValid H split))
             (split_invalid_locale (itok + 1)) ;;
    ret split.

(** [for (i = itok; i < len; i += tlen)] over the elements of [x] that are
    not missing and whose buffer is valid; [body] splits one buffer. *)
Definition split_elts (useBytes use_UTF8 : bool) (xs : list CHARSXP)
    (body : CHARSXP -> Z -> cstr -> M SEXP) (idx : list Z)
    (st : list SEXP * Z) : M (list SEXP * Z) :=
  foldM (fun '(ans, nwarn) i =>
    let xi := nth (Z.to_nat i) xs NA_STRING in
    if is_NA xi then ret (SET_VECTOR_ELT ans i (ScalarString NA_STRING), nwarn)
    else
      '(buf, nwarn') <- split_input useBytes use_UTF8 xi i nwarn ;;
      match buf with
      | None => ret (SET_VECTOR_ELT ans i (ScalarString NA_STRING), nwarn')
      | Some buf =>
          t <- body xi i buf ;;
          ret (SET_VECTOR_ELT ans i t, nwarn')
      end) idx st.

Definition REG_EXTENDED_only : cflags_t :=
  {| REG_EXTENDED := true; REG_ICASE := false; REG_NOSUB := false;
     REG_LITERAL := false |}.

Definition do_strsplit (fuel : nat) (jit_stack : bool) (x tok : SEXP)
    (fixed perl useBytes : Rflag) : M SEXP :=
  let fixed_opt := na_false fixed in
  let perl_opt := na_false perl in
  let useBytes := na_false useBytes in
  warn_if (fixed_opt && perl_opt) (arg_ignored "perl = TRUE") ;;
  let perl_opt := if fixed_opt && perl_opt then false else perl_opt in
  error_if (negb (isString x) || negb (isString tok)) non_character_argument ;;
  let xs := STRING_ELTS x in
  let len := strlen xs in
  (* treat split = NULL as split = "" *)
  let toks := if LENGTH tok =? 0 then STRING_ELTS (mkString []) else STRING_ELTS tok in
  let tlen := strlen toks in
  let haveBytes :=
    negb useBytes && (existsb IS_BYTES toks || existsb IS_BYTES xs) in
  let use_UTF8 :=
    negb useBytes && negb haveBytes &&
    ((perl_opt && mbcslocale H) || existsb IS_UTF8 toks || existsb IS_UTF8 xs
     || (negb (latin1locale H) && (existsb IS_LATIN1 toks || existsb IS_LATIN1 xs))) in
  let useBytes := useBytes || haveBytes in
  '(ans, _, _) <-
    foldM (fun '(ans, nwarn, jit) '(itok, this) =>
      let idx := stride (length xs) itok tlen len in
      if is_NA this then
        (* NA token doesn't split *)
        ret (fold_left (fun ans i =>
               SET_VECTOR_ELT ans i (ScalarString (nth (Z.to_nat i) xs NA_STRING)))
             idx ans, nwarn, jit)
      else if at_end (CHAR this) 0 then
        '(ans', nwarn') <-
          split_elts useBytes use_UTF8 xs
            (fun xi _ buf => split_chars fuel useBytes use_UTF8 xi buf)
            idx (ans, nwarn) ;;
        ret (ans', nwarn', jit)
      else if fixed_opt then
        split <- split_pattern useBytes use_UTF8 this itok ;;
        '(ans', nwarn') <-
          split_elts useBytes use_UTF8 xs
            (fun xi _ buf => ret (split_fixed use_UTF8 xi buf split))
            idx (ans, nwarn) ;;
        ret (ans', nwarn', jit)
      else if perl_opt then
        split <- split_pattern useBytes use_UTF8 this itok ;;
        '(re, mcontext, jit') <- R_pcre2_prepare split use_UTF8 false jit ;;
        '(ans', nwarn') <-
          split_elts useBytes use_UTF8 xs
            (fun xi i buf => split_perl re mcontext use_UTF8 xi i buf)
            idx (ans, nwarn) ;;
        ret (ans', nwarn', jit')
      else if negb useBytes && use_UTF8 then
        (* ERE in wchar_t *)
        match tre_regwcomp T (wtransChar H this) REG_EXTENDED_only with
        | inr rc => reg_report rc (Some (translateChar H this))
        | inl reg =>
            ret (fold_left (fun ans i =>
                   let xi := nth (Z.to_nat i) xs NA_STRING in
                   SET_VECTOR_ELT ans i
                     (if is_NA xi then ScalarString NA_STRING else split_wc reg xi))
                 idx ans, nwarn, jit)
        end
      else
        (* ERE in normal chars -- single byte or MBCS; never use_UTF8 *)
        split <-
          (if useBytes then ret (CHAR this)
           else
             let split := translateChar H this in
             error_if (mbcslocale H && negb (mbcsValid H split))
                      (split_invalid_locale (itok + 1)) ;;
             ret split) ;;
        match tre_regcomp T split REG_EXTENDED_only with
        | inr rc => reg_report rc (Some split)
        | inl reg =>
            '(ans', nwarn') <-
              split_elts useBytes false xs
                (fun xi i buf => split_ere reg xi i buf) idx (ans, nwarn) ;;
            ret (ans', nwarn', jit)
        end)
      (indexed 0 toks) (repeat R_NilValue (length xs), 0, jit_stack) ;;
  let names := getAttrib x "names" in
  ret (VECSXP ans (if isNull names then [] else [("names"%string, names)])).

(** ** [do_grep] ([grep] and [grepl]) *)

(** [onlyASCII]: the pattern (and the replacement, for [do_gsub]) are
    ASCII and so is every element of [text] that is not missing. *)
Definition onlyASCII (pats : list CHARSXP) (text : list CHARSXP) : bool :=
  forallb IS_ASCII pats && forallb (fun e => is_NA e || IS_ASCII e) text.

Definition REG_flags (nosub icase literal : bool) : cflags_t :=
  {| REG_EXTENDED := true; REG_ICASE := icase; REG_NOSUB := nosub;
     REG_LITERAL := literal |}.

(** [spat] of [do_grep] and [do_regexpr]: [None] is the [NULL] that the
    wide-character path leaves. *)
Definition grep_spat (useBytes use_WC use_UTF8 : bool) (pat0 : CHARSXP)
    : M (option cstr) :=
  if useBytes then ret (Some (CHAR pat0))
  else if use_WC then ret None
  else if use_UTF8 then
    let spat := translateCharUTF8 H pat0 in
    error_if (negb (utf8Valid H spat)) regex_invalid_utf8 ;;
    ret (Some spat)
  else
    let spat := translateChar H pat0 in
    error_if (mbcslocale H && negb (mbcsValid H spat)) regex_invalid_locale ;;
    ret (Some spat).

(** What was compiled: nothing for a fixed pattern. *)
Inductive compiled :=
| C_fixed
| C_perl (re : pcre2_code P) (mcontext : mcontext_t)
| C_tre (reg : regex_t T).

(** A C string that the code has set on every path that reads it. *)
Definition the (s : option cstr) : cstr :=
  match s with Some s => s | None => [] end.

Definition names_attr (nm : SEXP) : list (string * SEXP) :=
  if isNull nm then [] else [("names"%string, nm)].

(** [if (invert ^ LOGICAL(ind)[i])] *)
Definition selected (invert : bool) (ind : Z) : bool :=
  negb (Z.lxor (if invert then 1 else 0) ind =? 0).

(** The elements of [l] at the positions that are selected. *)
Fixpoint select {A} (invert : bool) (ind : list Z) (l : list A) : list A :=
  match ind, l with
  | b :: ind', a :: l' =>
      if selected invert b then a :: select invert ind' l' else select invert ind' l'
  | _, _ => []
  end.

Definition do_grep (grepl : bool) (jit_stack : bool) (pat text : SEXP)
    (igcase value perl fixed useBytes invert : Rflag) : M SEXP :=
  let igcase_opt := na_false igcase in
  let value_opt := na_false value in
  let perl_opt := na_false perl in
  let fixed_opt := na_false fixed in
  let useBytes := na_false useBytes in
  let invert := na_false invert in
  warn_if (fixed_opt && igcase_opt) (arg_ignored "ignore.case = TRUE") ;;
  warn_if (fixed_opt && perl_opt) (arg_ignored "perl = TRUE") ;;
  let perl_opt := if fixed_opt && perl_opt then false else perl_opt in
  error_if (negb (isString pat) || (LENGTH pat <? 1)) (invalid_arg "pattern") ;;
  warn_if (LENGTH pat >? 1) (arg_length_gt1 "pattern") ;;
  error_if (negb (isString text)) (invalid_arg "text") ;;
  let xs := STRING_ELTS text in
  let pat0 := STRING_ELT0 pat in
  if is_NA pat0 then
    if value_opt then
      ret (STRSXP (map (fun _ => NA_STRING) xs)
                  (names_attr (getAttrib text "names")))
    else if grepl then ret (LGLSXP (map (fun _ => NA_LOGICAL) xs) [])
    else ret (INTSXP (map (fun _ => NA_INTEGER) xs) [])
  else
  let useBytes := useBytes || onlyASCII [pat0] xs in
  let useBytes := useBytes || IS_BYTES pat0 || existsb IS_BYTES xs in
  let use_UTF8 :=
    negb useBytes &&
    ((perl_opt && mbcslocale H) || IS_UTF8 pat0 || existsb IS_UTF8 xs
     || (negb (latin1locale H) && (IS_LATIN1 pat0 || existsb IS_LATIN1 xs))) in
  let ere := negb fixed_opt && negb perl_opt in
  (* if we have non-ASCII text in a DBCS locale, we need to use wchar *)
  let use_WC :=
    ere && (use_UTF8 || (negb useBytes && mbcslocale H && negb (utf8locale H))) in
  let use_UTF8 := if ere then false else use_UTF8 in
  spat <- grep_spat useBytes use_WC use_UTF8 pat0 ;;
  comp <-
    (if fixed_opt then ret C_fixed
     else if perl_opt then
       '(re, mcontext, _) <- R_pcre2_prepare (the spat) use_UTF8 igcase_opt jit_stack ;;
       ret (C_perl re mcontext)
     else
       match (if negb use_WC
              then tre_regcompb T (the spat) (REG_flags true igcase_opt false)
              else tre_regwcomp T (wtransChar H pat0) (REG_flags true igcase_opt false))
       with
       | inr rc => reg_report rc spat
       | inl reg => ret (C_tre reg)
       end) ;;
  '(ind, nmatches, _) <-
    foldM (fun '(ind, nmatches, nwarn) '(i, xi) =>
      if is_NA xi then
        ret (ind ++ [0], if selected invert 0 then nmatches + 1 else nmatches, nwarn)
      else
        '(s, nwarn') <-
          (if useBytes then ret (Some (CHAR xi), nwarn)
           else if use_WC then ret (Some [], nwarn)
           else split_input false use_UTF8 xi i nwarn) ;;
        match s with
        | None => ret (ind ++ [0], nmatches, nwarn')   (* continue *)
        | Some s =>
            b <-
              match comp with
              | C_fixed =>
                  ret (if fst (fgrep_one (the spat) s useBytes use_UTF8) >=? 0
                       then 1 else 0)
              | C_perl re mcontext =>
                  let '(rc, _) := pcre2_match P re s 0 false mcontext in
                  if rc >=? 0 then ret 1
                  else R_pcre_exec_error rc i ;; ret 0
              | C_tre reg =>
                  let '(rc, _) :=
                    if negb use_WC then tre_regexecb T reg s 0 false
                    else tre_regwexec T reg (wtransChar H xi) 0 false in
                  espace_warning rc i ;;
                  ret (match rc with REG_OK => 1 | _ => 0 end)
              end ;;
            ret (ind ++ [b], if selected invert b then nmatches + 1 else nmatches,
                 nwarn')
        end)
      (indexed 0 xs) ([], 0, 0) ;;
  if grepl then ret (LGLSXP ind [])
  else if value_opt then
    let nmold := getAttrib text "names" in
    ret (STRSXP (take nmatches (select invert ind xs))
           (if isNull nmold then []
            else [("names"%string,
                   STRSXP (take nmatches (select invert ind (STRING_ELTS nmold))) [])]))
  else if strlen xs >? INT_MAX then
    ret (REALSXP (take nmatches (select invert ind (map fst (indexed 1 xs)))) [])
  else
    ret (INTSXP (take nmatches (select invert ind (map fst (indexed 1 xs)))) []).

(** ** [fgrepraw1] and [do_grepraw] *)

(** [while (offset < n) { if (<test at offset>) return offset; offset++; }
    return -1;] *)
Fixpoint raw_scan (fuel : nat) (test : Z -> bool) (offset n : Z) : Z :=
  match fuel with
  | O => -1
  | S f =>
      if offset <? n then
        if test offset then offset else raw_scan f test (offset + 1) n
      else -1
  end.

(** Fixed, single binary search: [-1] is no match, otherwise the offset;
    all offsets are 0-based. *)
Definition fgrepraw1 (needle haystack : list ascii) (offset : Z) : Z :=
  let n := strlen haystack in
  let ncmp := strlen needle in
  let at_ i k := Ascii.eqb (byte_at haystack (i + k)) (byte_at needle k) in
  let fuel := S (length haystack) in
  if n <? ncmp then -1
  else if ncmp =? 1 then raw_scan fuel (fun i => at_ i 0) offset n
  else if ncmp =? 2 then
    raw_scan fuel (fun i => at_ i 0 && at_ i 1) offset (to_size_t (n - 1))
  else if ncmp =? 3 then
    raw_scan fuel (fun i => at_ i 0 && at_ i 1 && at_ i 2) offset (to_size_t (n - 2))
  else
    let ncmp := to_size_t (ncmp - 1) in
    let n := to_size_t (n - ncmp) in
    raw_scan fuel
      (fun i => at_ i 0 &&
                cstr_eqb (take ncmp (advance haystack (i + 1)))
                         (take ncmp (advance needle 1)))
      offset n.

(** The fixed search for all matches: the 1-based starts.  The C code keeps
    the first 32 in a buffer on the stack and searches again from the 32nd
    for the rest; the starts are the same. *)
Fixpoint fgrepraw_all (fuel : nat) (pat text : list ascii) (offset : Z) : list Z :=
  match fuel with
  | O => []
  | S f =>
      if offset <? strlen text then
        let offset := fgrepraw1 pat text offset in
        if offset =? -1 then []
        else (offset + 1) :: fgrepraw_all f pat text (offset + strlen pat)
      else []
  end.

(** The pieces between the matches that start (1-based) at [starts] and
    have the lengths [lens]; [pos] is where the current piece starts. *)
Fixpoint raw_pieces (text : list ascii) (starts lens : list Z) (pos : Z) : list SEXP :=
  match starts, lens with
  | st :: starts', ln :: lens' =>
      RAWSXP (slice text pos (st - 1)) :: raw_pieces text starts' lens' (st - 1 + ln)
  | _, _ => [RAWSXP (advance text pos)]
  end.

(** The loop of the regexp search for all matches: the starts (1-based),
    the lengths, and whether the warning was given. *)
Fixpoint grepraw_all (fuel : nat) (reg : regex_t T) (text : list ascii)
    (offset : Z) (nmatches : Z) (eflags : bool) : M (list (Z * Z)) :=
  match fuel with
  | O => out_of_fuel
  | S f =>
      match tre_regnexecb T reg (advance text offset) 1 eflags with
      | (REG_OK, pmatch) =>
          let ptag := rm pmatch 0 in
          let eflags := if nmatches =? 0 then true else eflags in
          let entry := (rm_so ptag + 1 + offset, rm_eo ptag - rm_so ptag) in
          let offset := offset + rm_eo ptag in
          let nmatches := nmatches + 1 in
          if rm_eo ptag =? 0 then
            (* empty string matched => trouble *)
            let infinite_match :=
              if nmatches =? 1 then
                match tre_regnexecb T reg (advance text offset) 1 eflags with
                | (REG_OK, pmatch') => rm_eo (rm pmatch' 0) =? 0
                | _ => false
                end
              else true in
            warn_if infinite_match infinite_empty_match ;;
            ret [entry]
          else if offset >=? strlen text then ret [entry]
          else
            rest <- grepraw_all f reg text offset nmatches eflags ;;
            ret (entry :: rest)
      | (_, _) => ret []
      end
  end.

Definition do_grepraw (fuel : nat) (pat text : SEXP) (offset_arg : Z)
    (igcase fixed value all invert : Rflag) : M SEXP :=
  (* [R_size_t offset = asInteger (...)] *)
  let offset := to_size_t offset_arg in
  let igcase_opt := na_false igcase in
  let fixed_opt := na_false fixed in
  let all := na_false all in
  let value := na_false value in
  let invert := na_false invert in
  warn_if (fixed_opt && igcase_opt) (arg_ignored "ignore.case = TRUE") ;;
  warn_if (invert && negb value) (arg_ignored "invert = TRUE") ;;
  let invert := if invert && negb value then false else invert in
  (* currently we support only offset >= 1 *)
  error_if (offset <? 1) (invalid_arg "offset") ;;
  error_if (negb (isRaw pat)) (invalid_arg "pattern") ;;
  error_if (negb (isRaw text)) (invalid_arg "text") ;;
  if offset >? to_size_t (LENGTH text) then ret (INTSXP [] [])
  else
  let offset := offset - 1 in
  let rpat := RAW pat in
  let rtext := RAW text in
  if fixed_opt then
    if LENGTH pat =? 0 then
      ret (if value then (if all then VECSXP [] [] else RAWSXP []) else INTSXP [] [])
    else if negb all then
      let res := fgrepraw1 rpat rtext offset in
      if invert then
        if res =? -1 then ret (if value then text else ScalarInteger 1)
        else if negb value then
          ret (ScalarInteger ((if res =? 0 then LENGTH pat else 0) + 1))
        else
          ret (RAWSXP (take res rtext ++ advance rtext (res + LENGTH pat)))
      else if res =? -1 then ret (if value then RAWSXP [] else INTSXP [] [])
      else if negb value then ret (ScalarInteger (res + 1))
      else ret pat
    else
      let matches := fgrepraw_all (S (length rtext)) rpat rtext offset in
      if value then
        if invert then
          if strlen matches =? 0 then ret text
          else
            (* there are always nmatches + 1 pieces (unlike strsplit) *)
            ret (VECSXP (raw_pieces rtext matches
                           (map (fun _ => LENGTH pat) matches) 0) [])
        else ret (VECSXP (map (fun _ => pat) matches) [])
      else ret (INTSXP matches [])
  else
    match tre_regncompb T rpat (REG_flags false igcase_opt false) with
    | inr rc => reg_report rc None
    | inl reg =>
        if negb all then
          (* match only once *)
          let '(rc, pmatch) := tre_regnexecb T reg (advance rtext offset) 1 false in
          let ptag := rm pmatch 0 in
          let ok := match rc with REG_OK => true | _ => false end in
          if value then
            if negb ok || (rm_eo ptag =? rm_so ptag) then
              ret (if invert then text else RAWSXP [])
            else if invert then
              ret (RAWSXP (take (rm_so ptag) rtext ++ advance rtext (rm_eo ptag)))
            else
              ret (RAWSXP (slice rtext (offset + rm_so ptag) (offset + rm_eo ptag)))
          else
            ret (if ok then ScalarInteger (rm_so ptag + 1 + offset) else INTSXP [] [])
        else
          ms <- grepraw_all fuel reg rtext offset 0 false ;;
          if value then
            if invert then
              ret (VECSXP (raw_pieces rtext (map fst ms) (map snd ms) 0) [])
            else
              ret (VECSXP (map (fun '(st, ln) =>
                             RAWSXP (slice rtext (st - 1) (st - 1 + ln))) ms) [])
          else ret (INTSXP (map fst ms) [])
    end.

(** ** The replacement: [string_adj], [count_subs], [R_pcre_string_adj],
    [wstring_adj], [wcount_subs]

    Each adjuster gives the units it stores from [target] on. *)

Definition backslash : ascii := "\"%char.

(** ['1' <= c && c <= '9'] *)
Definition is_digit19 (c : ascii) : bool := (49 <=? code c) && (code c <=? 57).

(** [c - '0'] *)
Definition digit (c : ascii) : nat := Z.to_nat (code c - 48).

Fixpoint string_adj (orig repl : cstr) (regmatch : list regmatch_t) : cstr :=
  match repl with
  | [] => []
  | c :: p =>
      if Ascii.eqb c backslash then
        match p with
        | [] => []
        | d :: p' =>
            if is_digit19 d then
              let k := digit d in
              slice orig (rm_so (rm regmatch k)) (rm_eo (rm regmatch k))
                ++ string_adj orig p' regmatch
            else d :: string_adj orig p' regmatch
        end
      else c :: string_adj orig p regmatch
  end.

(** used for single-byte locales, and UTF-8 for perl = TRUE *)
Fixpoint count_subs (repl : cstr) : Z :=
  match repl with
  | [] => 0
  | c :: p =>
      if Ascii.eqb c backslash then
        match p with
        | [] => 0
        | d :: p' => if is_digit19 d then 1 + count_subs p' else count_subs p'
        end
      else count_subs p
  end.

(** The case flags of [R_pcre_string_adj]. *)
Inductive case_flag := no_case | upper_case | lower_case.

Fixpoint R_pcre_string_adj_from (cf : case_flag) (orig repl : cstr)
    (ovec : list Z) (use_UTF8 : bool) (ncap : Z) : cstr :=
  match repl with
  | [] => []
  | c :: p =>
      if Ascii.eqb c backslash then
        match p with
        | [] => []
        | d :: p' =>
            if is_digit19 d then
              let k := digit d in
              if Z.of_nat k >=? ncap then
                (* back-reference to a group that has not been captured *)
                R_pcre_string_adj_from cf orig p' ovec use_UTF8 ncap
              else
                let so := ov ovec (2 * k) in
                let eo := ov ovec (2 * k + 1) in
                let nb := to_size_t (eo - so) in
                let folded := match cf with no_case => false | _ => true end in
                (if (nb >? 0) && use_UTF8 && folded then
                   let xi := take nb (advance orig so) in
                   match (match cf with
                          | upper_case => utf8_toupper H xi
                          | _ => utf8_tolower H xi
                          end) with
                   | Some xi' => xi'
                   | None => []
                   end
                 else
                   map (fun c => match cf with
                                 | upper_case => toupper H c
                                 | lower_case => tolower H c
                                 | no_case => c
                                 end) (slice orig so eo))
                ++ R_pcre_string_adj_from cf orig p' ovec use_UTF8 ncap
            else if Ascii.eqb d "U" then
              R_pcre_string_adj_from upper_case orig p' ovec use_UTF8 ncap
            else if Ascii.eqb d "L" then
              R_pcre_string_adj_from lower_case orig p' ovec use_UTF8 ncap
            else if Ascii.eqb d "E" then
              (* end case modification *)
              R_pcre_string_adj_from no_case orig p' ovec use_UTF8 ncap
            else d :: R_pcre_string_adj_from cf orig p' ovec use_UTF8 ncap
        end
      else c :: R_pcre_string_adj_from cf orig p ovec use_UTF8 ncap
  end.

Definition R_pcre_string_adj : cstr -> cstr -> list Z -> bool -> Z -> cstr :=
  R_pcre_string_adj_from no_case.

(** [L'\\'], [L'1'], [L'9'], [L'0'] *)
Fixpoint wstring_adj (orig repl : wstr) (regmatch : list regmatch_t) : wstr :=
  match repl with
  | [] => []
  | c :: p =>
      if c =? 92 then
        match p with
        | [] => []
        | d :: p' =>
            if (49 <=? d) && (d <=? 57) then
              let k := Z.to_nat (d - 48) in
              slice orig (rm_so (rm regmatch k)) (rm_eo (rm regmatch k))
                ++ wstring_adj orig p' regmatch
            else d :: wstring_adj orig p' regmatch
        end
      else c :: wstring_adj orig p regmatch
  end.

Fixpoint wcount_subs (repl : wstr) : Z :=
  match repl with
  | [] => 0
  | c :: p =>
      if c =? 92 then
        match p with
        | [] => 0
        | d :: p' => if (49 <=? d) && (d <=? 57) then 1 + wcount_subs p' else wcount_subs p'
        end
      else wcount_subs p
  end.

(** ** [do_gsub] ([sub] and [gsub]) *)

(** The capacity of the output buffer at the start of an element:
    [maxrep] and [nns].  The form of [nns] for a long subject differs
    between the byte paths ([2*ns + replen + 1000]) and the wide path
    ([2*ns + maxrep + 1000]). *)
Definition gsub_maxrep (replen ns subs : Z) : Z := replen + (ns - 2) * subs.

Definition gsub_nns (global wide : bool) (ns replen maxrep : Z) : Z :=
  if global then
    (* Integer overflow has been seen *)
    let dnns := ns * (maxrep + 1) + 1000 in
    if dnns >? 10000
    then 2 * ns + (if wide then maxrep else replen) + 1000
    else dnns
  else ns + maxrep + 1000.

(** [if (nns < need) { if (nns > INT_MAX/2) error (...); nns *= 2; ... }]:
    the capacity after the check. *)
Definition grow (nns need : Z) : M Z :=
  if nns <? need then
    if nns >? INT_MAX / 2 then error result_string_too_long
    else ret (nns * 2)
  else ret nns.

Definition gsub_init {A} (nns : Z) : gsub_state A :=
  {| out := []; offset := 0; nns := nns; nmatch := 0; eflag := false;
     last_end := -1 |}.

(** *** The fixed path *)

(** [do { strncpy (u, s, st); u += st; s += st+patlen; slen -= st+patlen;
         strncpy (u, srep, replen); u += replen; }
    while (global && (st = fgrep_one_bytes (spat, s, slen, ...)) >= 0);
    strcpy (u, s);] *)
Fixpoint fixed_replace (fuel : nat) (global useBytes use_UTF8 : bool)
    (spat srep s : cstr) (st : Z) : M cstr :=
  match fuel with
  | O => out_of_fuel
  | S f =>
      let patlen := strlen spat in
      let s' := advance s (st + patlen) in
      let st' := fgrep_one_bytes spat s' (strlen s') useBytes use_UTF8 in
      if global && (st' >=? 0) then
        rest <- fixed_replace f global useBytes use_UTF8 spat srep s' st' ;;
        ret (take st s ++ srep ++ rest)
      else ret (take st s ++ srep ++ s')
  end.

(** *** The Perl path *)

(** advance by a char:
    [while ((used = utf8clen (s[pos]))) { pos += used;
       if (pos > offset) { <copy s[offset .. pos)>; offset = pos; break; } }]
    The new offset; the old one when the loop ends on [used == 0]. *)
Fixpoint utf8_advance (fuel : nat) (s : cstr) (pos offset : Z) : option Z :=
  match fuel with
  | O => None
  | S f =>
      let used := utf8clen H (byte_at s pos) in
      if used =? 0 then Some offset
      else
        let pos := pos + used in
        if pos >? offset then Some pos else utf8_advance f s pos offset
  end.

Fixpoint pcre_replace (fuel : nat) (re : pcre2_code P) (mc : mcontext_t)
    (global use_UTF8 : bool) (s srep : cstr) (ns maxrep : Z)
    (st : gsub_state ascii) : M (gsub_state ascii * Z) :=
  match fuel with
  | O => out_of_fuel
  | S f =>
      let '(ncap, ovector) := pcre2_match P re s (offset st) (eflag st) mc in
      if ncap >=? 0 then
        let nmatch := nmatch st + 1 in
        let u := out st ++ slice s (offset st) (ov ovector 0) in
        let fresh := (last_end st =? -1) || (ov ovector 1 >? last_end st) in
        let u := if fresh
                 then u ++ R_pcre_string_adj s srep ovector use_UTF8 ncap else u in
        let last_end := if fresh then to_int (ov ovector 1) else last_end st in
        let offset := to_int (ov ovector 1) in
        if at_end s offset || negb global then
          ret ({| out := u; offset := offset; nns := nns st; nmatch := nmatch;
                  eflag := eflag st; last_end := last_end |}, ncap)
        else
          offset' <-
            (if ov ovector 1 =? ov ovector 0 then
               if use_UTF8 then
                 match utf8_advance (S (length s)) s 0 offset with
                 | Some pos => ret pos
                 | None => out_of_fuel
                 end
               else ret (offset + 1)
             else ret offset) ;;
          let u := u ++ slice s offset offset' in
          nns' <- grow (nns st) (strlen u + (ns - offset') + maxrep + 100) ;;
          pcre_replace f re mc global use_UTF8 s srep ns maxrep
            {| out := u; offset := offset'; nns := nns'; nmatch := nmatch;
               eflag := true; last_end := last_end |}
      else ret (st, ncap)
  end.

(** *** The extended-regexp paths, in bytes and in wide characters

    [exec] runs the compiled expression on [s + offset] with 10 slots and
    gives [regmatch]; [adj] is [string_adj] or [wstring_adj].  The two C
    loops differ only in the type of the units. *)
Fixpoint tre_replace {A} (fuel : nat)
    (exec : list A -> bool -> tre_rc * list regmatch_t)
    (adj : list A -> list regmatch_t -> list A)
    (global : bool) (s : list A) (ns maxrep : Z) (st : gsub_state A)
    : M (gsub_state A * tre_rc) :=
  match fuel with
  | O => out_of_fuel
  | S f =>
      match exec (advance s (offset st)) (eflag st) with
      | (REG_OK, regmatch) =>
          let so := rm_so (rm regmatch 0) in
          let eo := rm_eo (rm regmatch 0) in
          let nmatch := nmatch st + 1 in
          let u := out st ++ slice s (offset st) (offset st + so) in
          let fresh := offset st + eo >? last_end st in
          let u := if fresh then u ++ adj (advance s (offset st)) regmatch else u in
          let last_end := if fresh then offset st + eo else last_end st in
          let offset := offset st + eo in
          if at_end s offset || negb global then
            ret ({| out := u; offset := offset; nns := nns st; nmatch := nmatch;
                    eflag := eflag st; last_end := last_end |}, REG_OK)
          else
            let offset' := if eo =? so then offset + 1 else offset in
            let u := u ++ slice s offset offset' in
            nns' <- grow (nns st) (strlen u + (ns - offset') + maxrep + 100) ;;
            tre_replace f exec adj global s ns maxrep
              {| out := u; offset := offset'; nns := nns'; nmatch := nmatch;
                 eflag := true; last_end := last_end |}
      | (rc, _) => ret (st, rc)
      end
  end.

(** After a loop: the element is unchanged when nothing matched, missing
    when the replacement is, and otherwise the output with the tail of the
    subject copied (growing the buffer once more if needed). *)
Definition gsub_finish {A} (rep0 xi : CHARSXP) (s : list A) (ns : Z)
    (st : gsub_state A) (mk : list A -> CHARSXP) : M CHARSXP :=
  if nmatch st =? 0 then ret xi
  else if is_NA rep0 then ret NA_STRING
  else
    (* copy the tail *)
    _ <- grow (nns st) (strlen (out st) + (ns - offset st) + 1) ;;
    ret (mk (out st ++ advance s (offset st))).

(** How the result of a byte path is marked. *)
Definition gsub_mark (useBytes use_UTF8 : bool) (xi : CHARSXP) (cbuf : cstr)
    : CHARSXP :=
  if useBytes then mkChar H cbuf
  else if use_UTF8 then mkCharCE_UTF8 H cbuf
  else markKnown H cbuf xi.

(** One element of [text] that is not missing; [s] is its buffer on the
    byte paths. *)
Definition gsub_elt (fuel : nat) (comp : compiled)
    (global useBytes use_UTF8 use_WC : bool) (rep0 : CHARSXP) (spat srep : cstr) (wrep : wstr) (replen : Z)
    (xi : CHARSXP) (i : Z) (s : cstr) : M CHARSXP :=
  match comp with
  | C_fixed =>
      let ns := strlen s in
      let st := fgrep_one_bytes spat s ns useBytes use_UTF8 in
      if st <? 0 then ret xi
      else if is_NA rep0 then ret NA_STRING
      else
        cbuf <- fixed_replace fuel global useBytes use_UTF8 spat srep s st ;;
        ret (gsub_mark useBytes use_UTF8 xi cbuf)
  | C_perl re mc =>
      let ns := strlen s in
      (* worst possible scenario is to put a copy of the replacement after
         every character, unless there are backrefs *)
      let maxrep := gsub_maxrep replen ns (count_subs srep) in
      let nns := gsub_nns global false ns replen maxrep in
      '(st, ncap) <-
        pcre_replace fuel re mc global use_UTF8 s srep ns maxrep (gsub_init nns) ;;
      R_pcre_exec_error ncap i ;;
      gsub_finish rep0 xi s ns st (gsub_mark useBytes use_UTF8 xi)
  | C_tre reg =>
      if negb use_WC then
        (* extended regexp in bytes *)
        let ns := strlen s in
        let maxrep := gsub_maxrep replen ns (count_subs srep) in
        let nns := gsub_nns global false ns replen maxrep in
        '(st, rc) <-
          tre_replace fuel (fun t e => tre_regexecb T reg t 10 e)
            (fun orig regmatch => string_adj orig srep regmatch)
            global s ns maxrep (gsub_init nns) ;;
        espace_warning rc i ;;
        gsub_finish rep0 xi s ns st (gsub_mark useBytes false xi)
      else
        (* extended regexp in wchar_t *)
        let s := wtransChar H xi in
        let ns := strlen s in
        let maxrep := gsub_maxrep replen ns (wcount_subs wrep) in
        let nns := gsub_nns global true ns replen maxrep in
        '(st, _) <-
          tre_replace fuel (fun t e => tre_regwexec T reg t 10 e)
            (fun orig regmatch => wstring_adj orig wrep regmatch)
            global s ns maxrep (gsub_init nns) ;;
        gsub_finish rep0 xi s ns st (mkCharW H)
  end.

(** [s] for an element of [text]: an invalid element is an error here. *)
Definition gsub_input (useBytes use_WC use_UTF8 : bool) (xi : CHARSXP) (i : Z)
    : M cstr :=
  if useBytes then ret (CHAR xi)
  else if use_WC then ret []
  else if use_UTF8 then
    let s := translateCharUTF8 H xi in
    error_if (negb (utf8Valid H s)) (input_invalid_utf8 (i + 1)) ;;
    ret s
  else
    let s := translateChar H xi in
    error_if (mbcslocale H && negb (mbcsValid H s)) (input_invalid_locale (i + 1)) ;;
    ret s.

(** [spat] and [srep]. *)
Definition gsub_spat_srep (useBytes use_WC use_UTF8 : bool) (pat0 rep0 : CHARSXP)
    : M (cstr * cstr) :=
  if useBytes then ret (CHAR pat0, CHAR rep0)
  else if use_WC then ret ([], [])
  else if use_UTF8 then
    let spat := translateCharUTF8 H pat0 in
    error_if (negb (utf8Valid H spat)) pattern_invalid_utf8 ;;
    let srep := translateCharUTF8 H rep0 in
    error_if (negb (utf8Valid H srep)) replacement_invalid_utf8 ;;
    ret (spat, srep)
  else
    let spat := translateChar H pat0 in
    error_if (mbcslocale H && negb (mbcsValid H spat)) pattern_invalid_locale ;;
    let srep := translateChar H rep0 in
    error_if (mbcslocale H && negb (mbcsValid H srep)) replacement_invalid_locale ;;
    ret (spat, srep).

(** The execution mode: [useBytes] after the two tests on the inputs, and
    [use_UTF8] and [use_WC] as they stand before the pattern is compiled. *)
Definition gsub_useBytes (useBytes : bool) (pat0 rep0 : CHARSXP)
    (xs : list CHARSXP) : bool :=
  let useBytes := useBytes || onlyASCII [pat0; rep0] xs in
  useBytes || IS_BYTES pat0 || IS_BYTES rep0 || existsb IS_BYTES xs.

Definition gsub_UTF8_inputs (fixed_opt useBytes : bool) (pat0 rep0 : CHARSXP)
    (xs : list CHARSXP) : bool :=
  negb useBytes &&
  ((negb fixed_opt && mbcslocale H) || IS_UTF8 pat0 || IS_UTF8 rep0
   || existsb IS_UTF8 xs
   || (negb (latin1locale H) && existsb IS_LATIN1 xs)).

Definition gsub_use_WC (fixed_opt perl_opt useBytes : bool) (pat0 rep0 : CHARSXP)
    (xs : list CHARSXP) : bool :=
  negb fixed_opt && negb perl_opt &&
  (* if we have non-ASCII text in a DBCS locale, we need to use wchar *)
  (gsub_UTF8_inputs fixed_opt useBytes pat0 rep0 xs
   || (negb useBytes && mbcslocale H && negb (utf8locale H))).

Definition gsub_use_UTF8 (fixed_opt perl_opt useBytes : bool) (pat0 rep0 : CHARSXP)
    (xs : list CHARSXP) : bool :=
  if negb fixed_opt && negb perl_opt then false
  else gsub_UTF8_inputs fixed_opt useBytes pat0 rep0 xs.

Definition do_gsub (global : bool) (fuel : nat) (jit_stack : bool)
    (pat rep text : SEXP) (igcase perl fixed useBytes : Rflag) : M SEXP :=
  let igcase_opt := na_false igcase in
  let perl_opt := na_false perl in
  let fixed_opt := na_false fixed in
  let useBytes := na_false useBytes in
  warn_if (fixed_opt && igcase_opt) (arg_ignored "ignore.case = TRUE") ;;
  warn_if (fixed_opt && perl_opt) (arg_ignored "perl = TRUE") ;;
  let perl_opt := if fixed_opt && perl_opt then false else perl_opt in
  error_if (negb (isString pat) || (LENGTH pat <? 1)) (invalid_arg "pattern") ;;
  warn_if (LENGTH pat >? 1) (arg_length_gt1 "pattern") ;;
  error_if (negb (isString rep) || (LENGTH rep <? 1)) (invalid_arg "replacement") ;;
  warn_if (LENGTH rep >? 1) (arg_length_gt1 "replacement") ;;
  error_if (negb (isString text)) (invalid_arg "text") ;;
  let xs := STRING_ELTS text in
  let pat0 := STRING_ELT0 pat in
  let rep0 := STRING_ELT0 rep in
  (* This contradicts the code below that has NA matching NA *)
  if is_NA pat0 then ret (STRSXP (map (fun _ => NA_STRING) xs) [])
  else
  let useBytes := gsub_useBytes useBytes pat0 rep0 xs in
  let use_WC := gsub_use_WC fixed_opt perl_opt useBytes pat0 rep0 xs in
  let use_UTF8 := gsub_use_UTF8 fixed_opt perl_opt useBytes pat0 rep0 xs in
  '(spat, srep) <- gsub_spat_srep useBytes use_WC use_UTF8 pat0 rep0 ;;
  '(comp, wrep, replen) <-
    (if fixed_opt then
       error_if (strlen spat =? 0) zero_length_pattern ;;
       ret (C_fixed, [], strlen srep)
     else if perl_opt then
       '(re, mcontext, _) <- R_pcre2_prepare spat use_UTF8 igcase_opt jit_stack ;;
       ret (C_perl re mcontext, [], strlen srep)
     else if negb use_WC then
       match tre_regcompb T spat (REG_flags false igcase_opt false) with
       | inr rc => reg_report rc (Some spat)
       | inl reg => ret (C_tre reg, [], strlen srep)
       end
     else
       match tre_regwcomp T (wtransChar H pat0) (REG_flags false igcase_opt false) with
       | inr rc => reg_report rc (Some (CHAR pat0))
       | inl reg =>
           let wrep := wtransChar H rep0 in
           ret (C_tre reg, wrep, strlen wrep)
       end) ;;
  ans <-
    foldM (fun ans '(i, xi) =>
      (* NA pattern was handled above *)
      if is_NA xi then ret (ans ++ [NA_STRING])
      else
        s <- gsub_input useBytes use_WC use_UTF8 xi i ;;
        r <- gsub_elt fuel comp global useBytes use_UTF8 use_WC rep0
               spat srep wrep replen xi i s ;;
        ret (ans ++ [r]))
      (indexed 0 xs) [] ;;
  (* SHALLOW_DUPLICATE_ATTRIB (ans, text) *)
  ret (STRSXP ans (ATTRIB text)).


(** ** [do_regexpr] ([regexpr] and [gregexpr]) *)

(** [for (i = 0; i < st; i += utf8clen (s[i])) nc++;] *)
Fixpoint getNc_from (fuel : nat) (s : cstr) (st i nc : Z) : option Z :=
  match fuel with
  | O => None
  | S f =>
      if i <? st then getNc_from f s st (i + utf8clen H (byte_at s i)) (nc + 1)
      else Some nc
  end.

Definition getNc (fuel : nat) (s : cstr) (st : Z) : option Z :=
  getNc_from fuel s st 0 0.

(** The start (1-based) and the length of one ovector pair, in characters
    when [use_UTF8], and [foundAll]. *)
Definition ovector_extract_start_length (fuel : nat) (use_UTF8 : bool)
    (ovector : list Z) (string : cstr) : option (Z * Z * bool) :=
  let st := to_int (ov ovector 0) in
  let mptr := st + 1 in
  let lenptr := to_int (ov ovector 1) - st in
  if use_UTF8 then
    match (if st >? 0 then getNc fuel string st else Some st),
          getNc fuel (advance string st) lenptr with
    | Some nc, Some len =>
        let mptr := if st >? 0 then 1 + nc else mptr in
        let bad_start := (st >? 0) && (mptr <=? 0) in
        let bad_len := len <? 0 in
        Some (if bad_start then NA_INTEGER else mptr,
              if bad_len then NA_INTEGER else len,
              bad_start || bad_len)
    | _, _ => None
    end
  else Some (mptr, lenptr, false).

(** The match, the capture groups ([capture_count] pairs of start and
    length) and [foundAll]. *)
Fixpoint extract_groups (fuel : nat) (use_UTF8 : bool) (ovector : list Z)
    (k : nat) (string : cstr) : option (list (Z * Z)) :=
  match k with
  | O => Some []
  | S k' =>
      match ovector_extract_start_length fuel use_UTF8 (skipn 2 ovector) string,
            extract_groups fuel use_UTF8 (skipn 2 ovector) k' string with
      | Some (st, ln, _), Some rest => Some ((st, ln) :: rest)
      | _, _ => None
      end
  end.

Definition extract_match_and_groups (fuel : nat) (use_UTF8 : bool)
    (ovector : list Z) (capture_count : Z) (string : cstr)
    : option (Z * Z * list (Z * Z) * bool) :=
  match ovector_extract_start_length fuel use_UTF8 ovector string,
        extract_groups fuel use_UTF8 ovector (Z.to_nat capture_count) string with
  | Some (st, ln, foundAll), Some groups => Some (st, ln, groups, foundAll)
  | _, _ => None
  end.

(** The result of an element: positions with their attributes. *)
Definition match_attribs (useBytes : bool) (itype : SEXP) (matchlen : list Z)
    : list (string * SEXP) :=
  ("match.length"%string, INTSXP matchlen [])
  :: (if useBytes
      then [("index.type"%string, itype); ("useBytes"%string, LGLSXP [1] [])]
      else []).

Definition gregexpr_NAInputAns : SEXP :=
  INTSXP [NA_INTEGER] [("match.length"%string, INTSXP [NA_INTEGER] [])].

Definition gregexpr_BadStringAns : SEXP :=
  INTSXP [-1] [("match.length"%string, INTSXP [-1] [])].

(** *** [gregexpr_Regexc]

    The loop gives the matches (start, 1-based, and length) and the last
    return code of the engine, if it ran. *)
Fixpoint Regexc_loop {A} (fuel : nat)
    (exec : list A -> bool -> tre_rc * list regmatch_t)
    (s : list A) (len offset : Z) (eflags : bool) (rc : option tre_rc)
    : option (list (Z * Z) * option tre_rc) :=
  match fuel with
  | O => None
  | S f =>
      let r := if offset <? len then Some (exec (advance s offset) eflags) else None in
      match r with
      | Some (REG_OK, regmatch) =>
          let st := rm_so (rm regmatch 0) in
          let mlen := rm_eo (rm regmatch 0) - st in
          let offset' :=
            if mlen =? 0 then offset + st + 1 else offset + rm_eo (rm regmatch 0) in
          match Regexc_loop f exec s len offset' true (Some REG_OK) with
          | Some (ms, rc') => Some ((offset + st + 1, mlen) :: ms, rc')
          | None => None
          end
      | Some (rc', _) => Some ([], Some rc')
      | None => Some ([], rc)
      end
  end.

Definition gregexpr_Regexc (fuel : nat) (reg : regex_t T) (sstr : CHARSXP)
    (useBytes use_WC : bool) (i : Z) (itype : SEXP) : M SEXP :=
  let use_WC := if useBytes then false else use_WC in
  let r :=
    if negb use_WC then
      let string := if useBytes then CHAR sstr else translateChar H sstr in
      Regexc_loop fuel (fun t e => tre_regexecb T reg t 1 e)
        string (strlen string) 0 false None
    else
      let ws := wtransChar H sstr in
      Regexc_loop fuel (fun t e => tre_regwexec T reg t 1 e)
        ws (strlen ws) 0 false None in
  match r with
  | None => out_of_fuel
  | Some (ms, rc) =>
      let ms := match ms with [] => [(-1, -1)] | _ => ms end in
      match rc with Some rc => espace_warning rc i | None => ret tt end ;;
      ret (INTSXP (map fst ms) (match_attribs useBytes itype (map snd ms)))
  end.

(** *** [gregexpr_fixed] *)

(** The loop after the first match: [string] is advanced by [nb], [curpos]
    by the last position and the length of the pattern. *)
Fixpoint fixed_matches (n : nat) (pattern string : cstr)
    (useBytes use_UTF8 : bool) (patlen slen curpos st nb : Z) : list (Z * Z) :=
  match n with
  | O => []
  | S n' =>
      let string := advance string nb in
      let curpos := if patlen =? 0 then curpos + st + 1 else curpos + st + patlen in
      if curpos >=? slen then []
      else
        let '(st, next) := fgrep_one pattern string useBytes use_UTF8 in
        let nb := match next with Some v => v | None => nb end in
        if st >=? 0 then
          (curpos + st + 1, patlen)
          :: fixed_matches n' pattern string useBytes use_UTF8 patlen slen curpos st nb
        else []
  end.

Definition gregexpr_fixed (pattern string : cstr) (useBytes use_UTF8 : bool)
    (itype : SEXP) : SEXP :=
  let patlen :=
    if negb useBytes && use_UTF8 then utf8towcs H pattern
    else if negb useBytes && mbcslocale H then mbstowcs H pattern
    else strlen pattern in
  let slen := strlen string in
  let '(st, next) := fgrep_one pattern string useBytes use_UTF8 in
  let nb := match next with Some v => v | None => 0 end in
  let ms :=
    if st <? 0 then [(-1, -1)]
    else (st + 1, patlen)
         :: fixed_matches (S (length string)) pattern string useBytes use_UTF8
              patlen slen 0 st nb in
  INTSXP (map fst ms) (match_attribs useBytes itype (map snd ms)).

(** *** [R_pcre2_gregexpr] *)

(** The loop: each match with its groups, and the warnings of
    [R_pcre_exec_error]. *)
Fixpoint pcre_matches (fuel : nat) (re : pcre2_code P) (mc : mcontext_t)
    (use_UTF8 : bool) (capture_count : Z) (string : cstr) (slen start n : Z)
    : M (list (Z * Z * list (Z * Z))) :=
  match fuel with
  | O => out_of_fuel
  | S f =>
      let '(rc, ovector) := pcre2_match P re string start false mc in
      R_pcre_exec_error rc n ;;
      if rc >=? 0 then
        match extract_match_and_groups (S (length string)) use_UTF8 ovector
                capture_count string with
        | None => out_of_fuel
        | Some (st, ln, groups, foundAll) =>
            (* we need to advance 'start' in bytes *)
            let start :=
              if ov ovector 1 - ov ovector 0 =? 0
              then to_int (ov ovector 0) + 1 else to_int (ov ovector 1) in
            if foundAll || (start >=? slen) then ret [(st, ln, groups)]
            else
              rest <- pcre_matches f re mc use_UTF8 capture_count string slen start n ;;
              ret ((st, ln, groups) :: rest)
        end
      else ret []
  end.

(** A matrix of [nrow] rows, stored by column, with the capture names as
    the names of its columns. *)
Definition capture_matrix (rows : list (list Z)) (capture_count : Z)
    (capture_names : SEXP) : SEXP :=
  INTSXP
    (concat (map (fun i => map (fun row => nth i row 0) rows)
                 (seq 0 (Z.to_nat capture_count))))
    [("dim"%string, INTSXP [strlen rows; capture_count] []);
     ("dimnames"%string, VECSXP [R_NilValue; capture_names] [])].

Definition capture_attribs (starts lens : list (list Z)) (capture_count : Z)
    (capture_names : SEXP) : list (string * SEXP) :=
  [("capture.start"%string, capture_matrix starts capture_count capture_names);
   ("capture.length"%string, capture_matrix lens capture_count capture_names);
   ("capture.names"%string, capture_names)].

Definition R_pcre2_gregexpr (fuel : nat) (string : cstr) (re : pcre2_code P)
    (useBytes use_UTF8 : bool) (mc : mcontext_t) (capture_count : Z)
    (capture_names : SEXP) (n : Z) (itype : SEXP) : M SEXP :=
  let slen := strlen string in
  ms <- pcre_matches fuel re mc use_UTF8 capture_count string slen 0 n ;;
  let minus1 := map (fun _ => -1) (seq 0 (Z.to_nat capture_count)) in
  let ms := match ms with
            | [] => [(-1, -1, map (fun v => (v, v)) minus1)]
            | _ => ms
            end in
  ret (INTSXP (map (fun m => fst (fst m)) ms)
         (match_attribs useBytes itype (map (fun m => snd (fst m)) ms)
          ++ (if capture_count =? 0 then []
              else capture_attribs (map (fun m => map fst (snd m)) ms)
                     (map (fun m => map snd (snd m)) ms)
                     capture_count capture_names))).

(** *** The function *)

(** [capture_names]: a vector of [capture_count] names, those of the name
    table stored at the number of their group less one. *)
Definition make_capture_names (capture_count : Z) (table : list (Z * cstr)) : SEXP :=
  STRSXP (fold_left (fun v '(num, name) => SET_VECTOR_ELT v (num - 1) (mkChar H name))
            table (repeat R_BlankString (Z.to_nat capture_count))) [].

(** One element of [regexpr]: start, length, and the row of the capture
    matrices ([None] leaves the row as initialised). *)
Definition regexpr_elt (comp : compiled) (useBytes use_UTF8 use_WC : bool)
    (spat : cstr) (capture_count : Z) (xi : CHARSXP) (i : Z) (s : cstr)
    : M (Z * Z * option (list (Z * Z))) :=
  match comp with
  | C_fixed =>
      let st := fst (fgrep_one spat s useBytes use_UTF8) in
      let pos := if st >? -1 then st + 1 else -1 in
      let patlen :=
        if negb useBytes && use_UTF8 then utf8towcs H spat
        else if negb useBytes && mbcslocale H then mbstowcs H spat
        else strlen spat in
      ret (pos, if pos >=? 0 then patlen else -1, None)
  | C_perl re mc =>
      let '(rc, ovector) := pcre2_match P re s 0 false mc in
      R_pcre_exec_error rc i ;;
      if rc >=? 0 then
        match extract_match_and_groups (S (length s)) use_UTF8 ovector
                capture_count s with
        | None => out_of_fuel
        | Some (st, ln, groups, _) => ret (st, ln, Some groups)
        end
      else
        ret (-1, -1, Some (map (fun _ => (-1, -1)) (seq 0 (Z.to_nat capture_count))))
  | C_tre reg =>
      let '(rc, regmatch) :=
        if negb use_WC then tre_regexecb T reg s 1 false
        else tre_regwexec T reg (wtransChar H xi) 1 false in
      espace_warning rc i ;;
      match rc with
      | REG_OK =>
          let st := rm_so (rm regmatch 0) in
          ret (st + 1, rm_eo (rm regmatch 0) - st, None)
      | _ => ret (-1, -1, None)
      end
  end.

Definition do_regexpr (gregexpr : bool) (fuel : nat) (jit_stack : bool)
    (pat text : SEXP) (igcase perl fixed useBytes : Rflag) : M SEXP :=
  let igcase_opt := na_false igcase in
  let perl_opt := na_false perl in
  let fixed_opt := na_false fixed in
  let useBytes := na_false useBytes in
  warn_if (fixed_opt && igcase_opt) (arg_ignored "ignore.case = TRUE") ;;
  warn_if (fixed_opt && perl_opt) (arg_ignored "perl = TRUE") ;;
  let perl_opt := if fixed_opt && perl_opt then false else perl_opt in
  (* Note that excluding NAs differs from grep/sub *)
  error_if (negb (isString pat) || (LENGTH pat <? 1) || is_NA (STRING_ELT0 pat))
           (invalid_arg "pattern") ;;
  warn_if (LENGTH pat >? 1) (arg_length_gt1 "pattern") ;;
  error_if (negb (isString text)) (invalid_arg "text") ;;
  let itype := ScalarString (mkChar H (str (if useBytes then "bytes" else "chars"))) in
  let xs := STRING_ELTS text in
  let n := strlen xs in
  let pat0 := STRING_ELT0 pat in
  let useBytes := useBytes || onlyASCII [pat0] xs in
  let useBytes := useBytes || IS_BYTES pat0 || existsb IS_BYTES xs in
  let use_UTF8 :=
    negb useBytes &&
    ((negb fixed_opt && mbcslocale H) || IS_UTF8 pat0 || existsb IS_UTF8 xs
     || (negb (latin1locale H) && (IS_LATIN1 pat0 || existsb IS_LATIN1 xs))) in
  let ere := negb fixed_opt && negb perl_opt in
  let use_WC :=
    ere && (use_UTF8 || (negb useBytes && mbcslocale H && negb (utf8locale H))) in
  let use_UTF8 := if ere then false else use_UTF8 in
  spat <- grep_spat useBytes use_WC use_UTF8 pat0 ;;
  '(comp, capture_count, capture_names) <-
    (if fixed_opt then ret (C_fixed, 0, R_NilValue)
     else if perl_opt then
       '(re, mcontext, _) <- R_pcre2_prepare (the spat) use_UTF8 igcase_opt jit_stack ;;
       (* also extract info for named groups *)
       let '(info_code, capture_count) := pcre2_capture_count P re in
       error_if (info_code <? 0) (pcre_patterninfo_error info_code) ;;
       ret (C_perl re mcontext, capture_count,
            make_capture_names capture_count (pcre2_name_table P re))
     else
       match (if negb use_WC
              then tre_regcompb T (the spat) (REG_flags false igcase_opt false)
              else tre_regwcomp T (wtransChar H pat0) (REG_flags false igcase_opt false))
       with
       | inr rc => reg_report rc spat
       | inl reg => ret (C_tre reg, 0, R_NilValue)
       end) ;;
  if negb gregexpr then
    let captures := perl_opt && negb (capture_count =? 0) in
    error_if (captures && (n >? INT_MAX)) too_long_a_vector ;;
    let na_row := map (fun _ => (NA_INTEGER, NA_INTEGER))
                      (seq 0 (Z.to_nat capture_count)) in
    '(ans, matchlen, rows, _) <-
      foldM (fun '(ans, matchlen, rows, nwarn) '(i, xi) =>
        if is_NA xi then
          ret (ans ++ [NA_INTEGER], matchlen ++ [NA_INTEGER], rows ++ [na_row], nwarn)
        else
          '(s, nwarn') <-
            (if useBytes then ret (Some (CHAR xi), nwarn)
             else if use_WC then ret (Some [], nwarn)
             else split_input false use_UTF8 xi i nwarn) ;;
          match s with
          | None => ret (ans ++ [-1], matchlen ++ [-1], rows ++ [na_row], nwarn')
          | Some s =>
              '(st, ln, row) <-
                regexpr_elt comp useBytes use_UTF8 use_WC (the spat)
                  capture_count xi i s ;;
              ret (ans ++ [st], matchlen ++ [ln],
                   rows ++ [match row with Some r => r | None => na_row end], nwarn')
          end)
        (indexed 0 xs) ([], [], [], 0) ;;
    ret (INTSXP ans
           (match_attribs useBytes itype matchlen
            ++ (if captures
                then capture_attribs (map (map fst) rows) (map (map snd) rows)
                       capture_count capture_names
                else [])))
  else
    '(ans, _) <-
      foldM (fun '(ans, nwarn) '(i, xi) =>
        if is_NA xi then ret (ans ++ [gregexpr_NAInputAns], nwarn)
        else if fixed_opt || perl_opt then
          let s := if useBytes then CHAR xi
                   else if use_UTF8 then translateCharUTF8 H xi
                   else translateChar H xi in
          if negb useBytes && negb use_UTF8 && mbcslocale H && negb (mbcsValid H s) then
            warn_if (nwarn <? NWARN) (input_invalid_locale (i + 1)) ;;
            ret (ans ++ [gregexpr_BadStringAns], nwarn + 1)
          else
            elt <-
              match comp with
              | C_perl re mc =>
                  R_pcre2_gregexpr fuel s re useBytes use_UTF8 mc capture_count
                    capture_names i itype
              | _ => ret (gregexpr_fixed (the spat) s useBytes use_UTF8 itype)
              end ;;
            ret (ans ++ [elt], nwarn)
        else
          elt <-
            match comp with
            | C_tre reg => gregexpr_Regexc fuel reg xi useBytes use_WC i itype
            | _ => ret R_NilValue
            end ;;
          ret (ans ++ [elt], nwarn))
        (indexed 0 xs) ([], 0) ;;
    ret (VECSXP ans []).

(** ** [do_regexec] *)

Definition do_regexec (pat text : SEXP) (icase fixed useBytes : Rflag) : M SEXP :=
  let opt_icase := na_false icase in
  let opt_fixed := na_false fixed in
  let useBytes := na_false useBytes in
  warn_if (opt_fixed && opt_icase) (arg_ignored "ignore.case = TRUE") ;;
  let opt_icase := if opt_fixed && opt_icase then false else opt_icase in
  let cflags := REG_flags false opt_icase opt_fixed in
  error_if (negb (isString pat) || (LENGTH pat <? 1) || is_NA (STRING_ELT0 pat))
           (invalid_arg "pattern") ;;
  warn_if (LENGTH pat >? 1) (arg_length_gt1 "pattern") ;;
  error_if (negb (isString text)) (invalid_arg "text") ;;
  let itype := ScalarString (mkChar H (str (if useBytes then "bytes" else "chars"))) in
  let xs := STRING_ELTS text in
  let pat0 := STRING_ELT0 pat in
  let useBytes := useBytes || onlyASCII [pat0] xs in
  let useBytes := useBytes || IS_BYTES pat0 || existsb IS_BYTES xs in
  (* This gets Latin-1-marked right *)
  let use_WC := negb useBytes && negb (onlyASCII [pat0] xs) in
  rc <-
    (if useBytes then ret (tre_regcompb T (CHAR pat0) cflags)
     else if use_WC then ret (tre_regwcomp T (wtransChar H pat0) cflags)
     else
       let s := translateChar H pat0 in
       error_if (mbcslocale H && negb (mbcsValid H s)) regex_invalid_locale ;;
       ret (tre_regcomp T s cflags)) ;;
  match rc with
  | inr rc => error (regcomp_error rc)
  | inl reg =>
      let nmatch := re_nsub T reg + 1 in
      ans <-
        foldM (fun ans '(i, xi) =>
          if is_NA xi then ret (ans ++ [gregexpr_NAInputAns])
          else
            '(rc, pmatch) <-
              (if useBytes then ret (tre_regexecb T reg (CHAR xi) nmatch false)
               else if use_WC then ret (tre_regwexec T reg (wtransChar H xi) nmatch false)
               else
                 let t := translateChar H xi in
                 error_if (mbcslocale H && negb (mbcsValid H t))
                          (input_invalid_locale (i + 1)) ;;
                 ret (tre_regexec T reg t nmatch false)) ;;
            match rc with
            | REG_OK =>
                let slots := map (rm pmatch) (seq 0 (Z.to_nat nmatch)) in
                ret (ans ++ [INTSXP (map (fun m => rm_so m + 1) slots)
                               (match_attribs useBytes itype
                                  (map (fun m => rm_eo m - rm_so m) slots))])
            | _ =>
                (* No match (or could there be an error?). *)
                espace_warning rc i ;;
                ret (ans ++ [INTSXP [-1] (match_attribs useBytes itype [-1])])
            end)
          (indexed 0 xs) [] ;;
      ret (VECSXP ans [])
  end.

(** * Properties *)

(** ** The monad *)

(** [m] with the warnings [ws] given before it. *)
Definition after_warnings {A} (ws : list condition) (m : M A) : M A :=
  (ws ++ fst m, snd m).

Lemma bind_ret_l {A B} (a : A) (f : A -> M B) : bind (ret a) f = f a.
Proof. unfold bind, ret. destruct (f a); reflexivity. Qed.


Lemma bind_warning {B} (c : condition) (f : unit -> M B) :
  bind (warning c) f = after_warnings [c] (f tt).
Proof. unfold bind, warning, after_warnings. destruct (f tt); reflexivity. Qed.

Lemma bind_error {A B} (c : condition) (f : A -> M B) :
  bind (error c) f = error c.
Proof. reflexivity. Qed.

Lemma after_warnings_nil {A} (m : M A) : after_warnings [] m = m.
Proof. destruct m; reflexivity. Qed.

Lemma after_warnings_app {A} (a b : list condition) (m : M A) :
  after_warnings a (after_warnings b m) = after_warnings (a ++ b) m.
Proof. unfold after_warnings; simpl. now rewrite app_assoc. Qed.


Lemma outcome_bind_val {A B} (m : M A) (f : A -> M B) (a : A) :
  outcome m = Val a -> outcome (bind m f) = outcome (f a).
Proof.
  destruct m as [w r]; simpl; intros ->. simpl. now destruct (f a).
Qed.

Lemma outcome_bind_err {A B} (m : M A) (f : A -> M B) (e : condition) :
  outcome m = Err e -> outcome (bind m f) = Err e.
Proof. destruct m as [w r]; simpl; intros ->. reflexivity. Qed.

Lemma outcome_warn_if (b : bool) (c : condition) : outcome (warn_if b c) = Val tt.
Proof. now destruct b. Qed.

(** ** C1: a missing pattern *)

(** C1 (as amended).  When the first element of the pattern is the missing
    value, [sub] and [gsub] return a vector of missing strings as long as
    the text, [grep] returns missing indices (missing strings when
    [value] is set) and [grepl] missing logicals; [regexpr] and [gregexpr]
    stop with the error that the pattern argument is invalid. *)
Theorem missing_pattern
    (fuel : nat) (jit_stack : bool) (rest xs : list CHARSXP)
    (pa ta : list (string * SEXP)) (igcase value perl fixed useBytes invert : Rflag) :
  let pat := STRSXP (NA_STRING :: rest) pa in
  let text := STRSXP xs ta in
  outcome (do_grep false jit_stack pat text igcase value perl fixed useBytes invert)
    = Val (if na_false value
           then STRSXP (map (fun _ => NA_STRING) xs) (names_attr (getAttrib text "names"))
           else INTSXP (map (fun _ => NA_INTEGER) xs) [])
  /\ outcome (do_grep true jit_stack pat text igcase value perl fixed useBytes invert)
    = Val (if na_false value
           then STRSXP (map (fun _ => NA_STRING) xs) (names_attr (getAttrib text "names"))
           else LGLSXP (map (fun _ => NA_LOGICAL) xs) [])
  /\ (forall (global : bool) (rep0 : CHARSXP) (reps : list CHARSXP) ra,
        outcome (do_gsub global fuel jit_stack pat (STRSXP (rep0 :: reps) ra) text
                   igcase perl fixed useBytes)
        = Val (STRSXP (map (fun _ => NA_STRING) xs) []))
  /\ (forall gregexpr : bool,
        outcome (do_regexpr gregexpr fuel jit_stack pat text igcase perl fixed useBytes)
        = Err (invalid_arg "pattern")).
Proof.
  intros pat text.
  assert (Hlen : (LENGTH pat <? 1) = false).
  { unfold pat, LENGTH, strlen. apply Z.ltb_ge. simpl length. lia. }
  repeat split; intros; unfold do_grep, do_gsub, do_regexpr.
  - repeat (erewrite outcome_bind_val; [| apply outcome_warn_if]).
    rewrite Hlen. cbn [isString pat negb orb error_if].
    rewrite bind_ret_l.
    erewrite outcome_bind_val; [| apply outcome_warn_if].
    cbn [isString text negb error_if]. rewrite bind_ret_l.
    cbn. now destruct (na_false value).
  - repeat (erewrite outcome_bind_val; [| apply outcome_warn_if]).
    rewrite Hlen. cbn [isString pat negb orb error_if].
    rewrite bind_ret_l.
    erewrite outcome_bind_val; [| apply outcome_warn_if].
    cbn [isString text negb error_if]. rewrite bind_ret_l.
    cbn. now destruct (na_false value).
  - assert (Hr : (LENGTH (STRSXP (rep0 :: reps) ra) <? 1) = false).
    { unfold LENGTH, strlen. apply Z.ltb_ge. simpl length. lia. }
    repeat (erewrite outcome_bind_val; [| apply outcome_warn_if]).
    rewrite Hlen. cbn [isString pat negb orb error_if].
    rewrite bind_ret_l.
    erewrite outcome_bind_val; [| apply outcome_warn_if].
    rewrite Hr. cbn [isString negb orb error_if]. rewrite bind_ret_l.
    erewrite outcome_bind_val; [| apply outcome_warn_if].
    cbn [isString text negb error_if]. rewrite bind_ret_l.
    reflexivity.
  - repeat (erewrite outcome_bind_val; [| apply outcome_warn_if]).
    rewrite Hlen. cbn [isString pat negb orb error_if STRING_ELT0 STRING_ELTS nth is_NA].
    reflexivity.
Qed.

(** ** C5: incompatible flags *)

(** The warnings of the argument intake when [fixed] is set. *)
Definition fixed_warnings (igcase perl : Rflag) : list condition :=
  (if na_false igcase then [arg_ignored "ignore.case = TRUE"] else [])
  ++ (if na_false perl then [arg_ignored "perl = TRUE"] else []).

Ltac flag_cases :=
  repeat match goal with
         | f : Rflag |- _ => destruct f as [[|]|]
         end.

Ltac intake :=
  cbn [na_false andb negb orb warn_if fixed_warnings app];
  repeat (rewrite ?bind_warning, ?bind_ret_l, ?after_warnings_app, ?after_warnings_nil;
          cbn [app]).

(** C5.  With [fixed] set, every operation that takes [perl] warns that
    [perl = TRUE] is ignored and then behaves as with [perl] unset, and
    every operation that takes [ignore.case] warns that
    [ignore.case = TRUE] is ignored and then behaves as with it unset:
    the call equals the one with the weaker flags cleared, after the
    warnings. *)
Theorem fixed_wins
    (fuel : nat) (jit_stack : bool) (pat rep text : SEXP) (offset : Z)
    (igcase perl value useBytes invert all : Rflag) :
  (forall grepl,
     do_grep grepl jit_stack pat text igcase value perl (Some true) useBytes invert
     = after_warnings (fixed_warnings igcase perl)
         (do_grep grepl jit_stack pat text (Some false) value (Some false) (Some true)
            useBytes invert))
  /\ (forall global,
        do_gsub global fuel jit_stack pat rep text igcase perl (Some true) useBytes
        = after_warnings (fixed_warnings igcase perl)
            (do_gsub global fuel jit_stack pat rep text (Some false) (Some false)
               (Some true) useBytes))
  /\ (forall gregexpr,
        do_regexpr gregexpr fuel jit_stack pat text igcase perl (Some true) useBytes
        = after_warnings (fixed_warnings igcase perl)
            (do_regexpr gregexpr fuel jit_stack pat text (Some false) (Some false)
               (Some true) useBytes))
  /\ do_strsplit fuel jit_stack text pat (Some true) perl useBytes
     = after_warnings (fixed_warnings None perl)
         (do_strsplit fuel jit_stack text pat (Some true) (Some false) useBytes)
  /\ do_regexec pat text igcase (Some true) useBytes
     = after_warnings (fixed_warnings igcase None)
         (do_regexec pat text (Some false) (Some true) useBytes)
  /\ do_grepraw fuel pat text offset igcase (Some true) value all invert
     = after_warnings (fixed_warnings igcase None)
         (do_grepraw fuel pat text offset (Some false) (Some true) value all invert).
Proof.
  repeat split; intros.
  - unfold do_grep. destruct igcase as [[|]|], perl as [[|]|]; intake; reflexivity.
  - unfold do_gsub. destruct igcase as [[|]|], perl as [[|]|]; intake; reflexivity.
  - unfold do_regexpr. destruct igcase as [[|]|], perl as [[|]|]; intake; reflexivity.
  - unfold do_strsplit. destruct perl as [[|]|]; intake; reflexivity.
  - unfold do_regexec. destruct igcase as [[|]|]; intake; reflexivity.
  - unfold do_grepraw. destruct igcase as [[|]|]; intake; reflexivity.
Qed.

(** ** C10: [grepRaw] with an offset beyond the text *)

Definition grepraw_warnings (igcase fixed value invert : Rflag) : list condition :=
  (if na_false fixed && na_false igcase
   then [arg_ignored "ignore.case = TRUE"] else [])
  ++ (if na_false invert && negb (na_false value)
      then [arg_ignored "invert = TRUE"] else []).

Lemma to_size_t_small (x : Z) : 0 <= x < 2 ^ 64 -> to_size_t x = x.
Proof. intros. unfold to_size_t. now apply Z.mod_small. Qed.

Lemma strlen_nonneg {A} (s : list A) : 0 <= strlen s.
Proof. unfold strlen. lia. Qed.

(** C10.  When the offset of a [grepRaw] call is larger than the number of
    bytes of the text, the result is an integer vector of length zero,
    whatever [fixed], [value], [all] and [invert] are, and whatever the
    engine would do with the pattern: it is not consulted. *)
Theorem grepraw_offset_beyond_text
    (fuel : nat) (p t : list ascii) (offset : Z)
    (igcase fixed value all invert : Rflag) :
  strlen t < offset -> offset <= INT_MAX ->
  do_grepraw fuel (RAWSXP p) (RAWSXP t) offset igcase fixed value all invert
  = (grepraw_warnings igcase fixed value invert, Val (INTSXP [] [])).
Proof.
  intros Hlt Hmax. pose proof (strlen_nonneg t) as Ht.
  unfold INT_MAX in Hmax.
  unfold do_grepraw, grepraw_warnings.
  rewrite (to_size_t_small offset) by lia.
  cbn [isRaw negb error_if LENGTH].
  rewrite (to_size_t_small (strlen t)) by lia.
  replace (offset <? 1) with false by (symmetry; apply Z.ltb_ge; lia).
  replace (offset >? strlen t) with true by (symmetry; apply Z.gtb_lt; lia).
  cbn [error_if].
  destruct (na_false fixed && na_false igcase),
           (na_false invert && negb (na_false value));
    cbn [warn_if]; rewrite ?bind_warning, ?bind_ret_l; reflexivity.
Qed.

(** ** C2: the fixed split *)

(** C2 (as amended).  With a fixed, non-empty separator, in a host that
    leaves ASCII elements as they are and accepts them, splitting
    ["a,b,,c"] on [","] gives the four tokens ["a"], ["b"], [""] and ["c"],
    and splitting the empty string gives a vector of no token. *)
Theorem strsplit_fixed_comma
    (fuel : nat) (jit_stack : bool) (perl useBytes : Rflag) :
  (forall b, translateChar H (Chars ASCII b) = b) ->
  (forall b, mbcsValid H (translateChar H (Chars ASCII b)) = true) ->
  let x := Chars ASCII (str "a,b,,c") in
  let e := Chars ASCII (str "") in
  let comma := STRSXP [Chars ASCII (str ",")] [] in
  outcome (do_strsplit fuel jit_stack (STRSXP [x] []) comma (Some true) perl useBytes)
  = Val (VECSXP [STRSXP [markKnown H (str "a") x; markKnown H (str "b") x;
                         markKnown H (str "") x; markKnown H (str "c") x] []] [])
  /\ outcome (do_strsplit fuel jit_stack (STRSXP [e] []) comma (Some true) perl useBytes)
     = Val (VECSXP [STRSXP [] []] []).
Proof.
  intros Htr Hv x e comma.
  assert (V1 : mbcsValid H (str ",") = true)
    by (rewrite <- (Htr (str ",")) at 1; apply Hv).
  assert (V2 : mbcsValid H (str "a,b,,c") = true)
    by (rewrite <- (Htr (str "a,b,,c")) at 1; apply Hv).
  assert (V3 : mbcsValid H (str "") = true)
    by (rewrite <- (Htr (str "")) at 1; apply Hv).
  cbn in V1, V2, V3.
  subst x e comma.
  split; unfold do_strsplit;
    (erewrite outcome_bind_val; [| apply outcome_warn_if]);
    cbn [isString negb orb error_if]; rewrite bind_ret_l;
    replace (if na_false (Some true) && na_false perl then false else na_false perl)
      with false by (now destruct perl as [[|]|]);
    cbn [STRING_ELTS LENGTH strlen length Z.of_nat Z.eqb existsb
         IS_BYTES IS_UTF8 IS_LATIN1 orb andb negb na_false];
    rewrite !andb_false_r, !orb_false_r;
    destruct (na_false useBytes); cbn;
    rewrite ?Htr, ?V1, ?V2, ?V3, ?andb_false_r; reflexivity.
Qed.

(** ** Strings: slices *)

Lemma advance_0 {A} (s : list A) : advance s 0 = s.
Proof. reflexivity. Qed.

Lemma take_0 {A} (s : list A) : take 0 s = [].
Proof. reflexivity. Qed.

Lemma slice_same {A} (s : list A) (a : Z) : slice s a a = [].
Proof. unfold slice. now rewrite Z.sub_diag. Qed.

Lemma strlen_app {A} (a b : list A) : strlen (a ++ b) = strlen a + strlen b.
Proof. unfold strlen. rewrite length_app. lia. Qed.

Lemma advance_advance {A} (s : list A) (a b : Z) :
  0 <= a -> 0 <= b -> advance (advance s a) b = advance s (a + b).
Proof.
  intros. unfold advance. rewrite skipn_skipn. f_equal. lia.
Qed.

Lemma slice_advance {A} (s : list A) (a b : Z) :
  0 <= a <= b -> slice s a b ++ advance s b = advance s a.
Proof.
  intros. unfold slice, take.
  replace (advance s b) with (advance (advance s a) (b - a))
    by (rewrite advance_advance by lia; f_equal; lia).
  unfold advance at 3. apply firstn_skipn.
Qed.


Lemma strlen_take {A} (s : list A) (n : Z) : strlen (take n s) <= Z.max 0 n.
Proof.
  unfold strlen, take. rewrite length_firstn. lia.
Qed.

Lemma strlen_slice {A} (s : list A) (a b : Z) : a <= b -> strlen (slice s a b) <= b - a.
Proof. intros. unfold slice. pose proof (strlen_take (advance s a) (b - a)). lia. Qed.

Lemma at_end_false {A} (s : list A) (i : Z) :
  at_end s i = false -> 0 <= i < strlen s.
Proof.
  unfold at_end, char_at, strlen. destruct (Z.ltb_spec i 0); [discriminate|].
  destruct (nth_error s (Z.to_nat i)) eqn:E; [|discriminate]. intros _.
  assert (Z.to_nat i < length s)%nat by (apply nth_error_Some; congruence). lia.
Qed.

Lemma at_end_true {A} (s : list A) (i : Z) :
  0 <= i -> at_end s i = true -> strlen s <= i.
Proof.
  unfold at_end, char_at, strlen. destruct (Z.ltb_spec i 0); [lia|].
  destruct (nth_error s (Z.to_nat i)) eqn:E; [discriminate|]. intros _ _.
  apply nth_error_None in E. lia.
Qed.

Lemma to_int_small (x : Z) : 0 <= x <= INT_MAX -> to_int x = x.
Proof.
  unfold to_int, INT_MAX. intros.
  rewrite Z.mod_small by lia. lia.
Qed.

(** ** C3: what a replacement keeps

    [framed is_match s pos o]: [o] is the subject [s] from [pos] on, with
    some ranges [a, b) that [is_match] accepts, met in order and without
    overlap, each replaced by some units, and everything else as it is. *)
Inductive framed {A : Type} (is_match : Z -> Z -> Prop) (s : list A)
    : Z -> list A -> Prop :=
| framed_tail (pos : Z) :
    0 <= pos <= strlen s -> framed is_match s pos (advance s pos)
| framed_match (pos a b : Z) (r rest : list A) :
    0 <= pos <= a -> a <= b <= strlen s -> is_match a b ->
    framed is_match s b rest ->
    framed is_match s pos (slice s pos a ++ r ++ rest).


(** The positions from which a framed output starts lie in the subject. *)
Lemma framed_pos {A} (is_match : Z -> Z -> Prop) (s : list A) (p : Z) (o : list A) :
  framed is_match s p o -> 0 <= p <= strlen s.
Proof. inversion 1; subst; lia. Qed.

(** *** The extended-regexp loop *)

(** What the loops rely on from TRE: a match of the expression in
    [s + off] lies in it, its start before its end. *)
Definition tre_wf {A} (exec : list A -> bool -> tre_rc * list regmatch_t)
    (s : list A) : Prop :=
  forall off e m, 0 <= off <= strlen s ->
    exec (advance s off) e = (REG_OK, m) ->
    0 <= rm_so (rm m 0) <= rm_eo (rm m 0) /\ off + rm_eo (rm m 0) <= strlen s.



Section TreReplace.

Context {A : Type}.
Variable exec : list A -> bool -> tre_rc * list regmatch_t.
Variable adj : list A -> list regmatch_t -> list A.
Variable global : bool.
Variable s : list A.
Variables maxrep R : Z.






End TreReplace.

(** *** The Perl loop *)

(** What the loop relies on from PCRE2: a match found from [start] lies
    between [start] and the end of the subject, its start before its end. *)
Definition pcre_wf (re : pcre2_code P) (mc : mcontext_t) (s : cstr) : Prop :=
  forall start e ncap ovector, 0 <= start <= strlen s ->
    pcre2_match P re s start e mc = (ncap, ovector) -> 0 <= ncap ->
    start <= ov ovector 0 <= ov ovector 1 /\ ov ovector 1 <= strlen s.



Section PcreReplace.

Variable re : pcre2_code P.
Variable mc : mcontext_t.
Variables global use_UTF8 : bool.
Variables s srep : cstr.
Variables maxrep R : Z.






End PcreReplace.

(** *** The fixed path *)

Lemma cstr_eqb_eq (a b : cstr) : cstr_eqb a b = true -> a = b.
Proof.
  revert b; induction a as [|x a IH]; intros [|y b]; simpl; try discriminate; auto.
  intros Hab. apply andb_true_iff in Hab. destruct Hab as [Hxy Hr].
  apply Ascii.eqb_eq in Hxy. f_equal; auto.
Qed.

Lemma take_all {A} (s : list A) : take (strlen s) s = s.
Proof. unfold take, strlen. rewrite Nat2Z.id. apply firstn_all. Qed.

Lemma strlen_advance {A} (s : list A) (k : Z) :
  0 <= k <= strlen s -> strlen (advance s k) = strlen s - k.
Proof. unfold strlen, advance. intros. rewrite length_skipn. lia. Qed.

(** [a, b) holds the pattern. *)
Definition fixed_match (spat s : cstr) (a b : Z) : Prop :=
  b = a + strlen spat /\ slice s a b = spat.

Lemma find_byte_spec (c : ascii) (t : cstr) : forall i r,
  find_byte c t i = r -> 0 <= i -> 0 <= r ->
  i <= r < i + strlen t /\ take 1 (advance t (r - i)) = [c].
Proof.
  induction t as [|x t IH]; simpl; intros i r Hr Hi Hpos; [lia|].
  destruct (Ascii.eqb_spec x c) as [->|Hne].
  - subst r. rewrite Z.sub_diag. unfold strlen; simpl length. split; [lia|reflexivity].
  - destruct (IH _ _ Hr ltac:(lia) Hpos) as [Hb Ht].
    unfold strlen in *; simpl length. split; [lia|].
    replace (r - i) with (1 + (r - (i + 1))) by lia.
    rewrite <- advance_advance by lia. exact Ht.
Qed.

Lemma fgrep_scan_spec (step : Z -> Z) (pat target : cstr) (len plen : Z) :
  forall n ib i ib' i',
    fgrep_scan n step pat target len plen ib i = Some (ib', i') -> 0 <= ib ->
    0 <= ib' <= len - plen /\ strncmp_eq pat (advance target ib') plen = true.
Proof.
  induction n as [|n IH]; simpl; intros ib i ib' i' Hs Hib; [discriminate|].
  destruct (Z.leb_spec ib (len - plen)); [|discriminate].
  destruct (strncmp_eq pat (advance target ib) plen) eqn:E.
  - injection Hs as <- <-. split; [lia | assumption].
  - destruct (Z.leb_spec (step ib) 0); [discriminate|].
    eapply IH; eauto. lia.
Qed.

(** A position that [fgrep_one_bytes] returns holds the pattern. *)
Lemma fgrep_one_bytes_spec (spat t : cstr) (useBytes use_UTF8 : bool) (st : Z) :
  fgrep_one_bytes spat t (strlen t) useBytes use_UTF8 = st -> 0 <= st ->
  st + strlen spat <= strlen t /\ fixed_match spat t st (st + strlen spat).
Proof.
  unfold fgrep_one_bytes, fixed_match. intros Hst Hpos.
  pose proof (strlen_nonneg t) as Ht.
  destruct (Z.eqb_spec (strlen spat) 0) as [H0|H0].
  - subst st. rewrite H0, Z.add_0_r. repeat split; try lia.
    rewrite slice_same. destruct spat; [reflexivity | discriminate].
  - destruct ((strlen spat =? 1) && (useBytes || negb (mbcslocale H || use_UTF8)))
      eqn:E1.
    + apply andb_true_iff in E1. destruct E1 as [E1 _].
      apply Z.eqb_eq in E1.
      destruct (find_byte_spec _ _ _ _ Hst ltac:(lia) Hpos) as [Hb Htk].
      rewrite Z.sub_0_r in Htk. rewrite E1. repeat split; try lia.
      unfold slice. replace (st + 1 - st) with 1 by lia. rewrite Htk.
      destruct spat as [|c [|d spat]]; unfold strlen in E1; simpl length in E1;
        try lia; reflexivity.
    + destruct (fgrep_scan _ _ _ _ _ _ _ _) as [[ib i]|] eqn:E2; [|lia].
      subst st. apply fgrep_scan_spec in E2; [|lia]. destruct E2 as [Hb Heq].
      repeat split; try lia.
      unfold strncmp_eq in Heq. apply cstr_eqb_eq in Heq.
      rewrite take_all in Heq. unfold slice.
      replace (ib + strlen spat - ib) with (strlen spat) by lia. now symmetry.
Qed.

Lemma fixed_replace_S (f : nat) (global useBytes use_UTF8 : bool)
    (spat srep s : cstr) (st : Z) :
  fixed_replace (S f) global useBytes use_UTF8 spat srep s st =
  let patlen := strlen spat in
  let s' := advance s (st + patlen) in
  let st' := fgrep_one_bytes spat s' (strlen s') useBytes use_UTF8 in
  if global && (st' >=? 0) then
    rest <- fixed_replace f global useBytes use_UTF8 spat srep s' st' ;;
    ret (take st s ++ srep ++ rest)
  else ret (take st s ++ srep ++ s').
Proof. reflexivity. Qed.


(** *** One element *)

(** The executions of TRE that [gsub_elt] runs. *)
Definition exec_bytes (reg : regex_t T) : cstr -> bool -> tre_rc * list regmatch_t :=
  fun t e => tre_regexecb T reg t 10 e.
Definition exec_wide (reg : regex_t T) : wstr -> bool -> tre_rc * list regmatch_t :=
  fun t e => tre_regwexec T reg t 10 e.





(** ** C8: a missing replacement *)

(** The pattern matches in the element: the first search does. *)
Definition matched (comp : compiled) (useBytes use_UTF8 use_WC : bool)
    (spat : cstr) (xi : CHARSXP) (s : cstr) : bool :=
  match comp with
  | C_fixed => fgrep_one_bytes spat s (strlen s) useBytes use_UTF8 >=? 0
  | C_perl re mc => fst (pcre2_match P re s 0 false mc) >=? 0
  | C_tre reg =>
      match fst (if use_WC then exec_wide reg (wtransChar H xi) false
                 else exec_bytes reg s false) with
      | REG_OK => true
      | _ => false
      end
  end.





(** ** C7: the growth of the buffer *)


(** ** C9: the empty fixed pattern *)

(** The computation does not stop on "zero-length pattern". *)
Definition no_zero {A} (m : M A) : Prop := outcome m <> Err zero_length_pattern.

Lemma nz_ret {A} (a : A) : no_zero (ret a).
Proof. discriminate. Qed.

Lemma nz_fuel {A} : no_zero (@out_of_fuel A).
Proof. discriminate. Qed.

Lemma nz_warning (c : condition) : no_zero (warning c).
Proof. discriminate. Qed.

Lemma nz_warn_if (b : bool) (c : condition) : no_zero (warn_if b c).
Proof. destruct b; discriminate. Qed.

Lemma nz_error {A} (c : condition) : c <> zero_length_pattern -> no_zero (@error A c).
Proof. unfold no_zero; cbn. congruence. Qed.

Lemma nz_error_if (b : bool) (c : condition) :
  c <> zero_length_pattern -> no_zero (error_if b c).
Proof. destruct b; [apply nz_error | intros _; apply nz_ret]. Qed.

Lemma nz_bind {A B} (m : M A) (f : A -> M B) :
  no_zero m -> (forall a, no_zero (f a)) -> no_zero (bind m f).
Proof.
  unfold no_zero, outcome, bind. intros Hm Hf.
  destruct m as [w [a|e|]]; simpl in *.
  - specialize (Hf a). destruct (f a) as [w' r]. exact Hf.
  - intros [= ->]. now apply Hm.
  - discriminate.
Qed.

Lemma nz_foldM {A S} (f : S -> A -> M S) (l : list A) :
  (forall s a, no_zero (f s a)) -> forall s, no_zero (foldM f l s).
Proof.
  intros Hf. induction l as [|a l IH]; intros s; cbn [foldM].
  - apply nz_ret.
  - apply nz_bind; auto.
Qed.

Ltac nz :=
  repeat first
    [ apply nz_ret | apply nz_fuel | apply nz_warning | apply nz_warn_if
    | apply nz_error; discriminate | apply nz_error_if; discriminate
    | apply nz_bind; [| intros ]
    | apply nz_foldM; intros
    | progress cbv zeta
    | match goal with
      | |- no_zero (match ?x with _ => _ end) => destruct x
      | |- no_zero (let '_ := ?x in _) => destruct x
      end
    | assumption ].

Lemma nz_grow (nns need : Z) : no_zero (grow nns need).
Proof. unfold grow. nz. Qed.

Lemma nz_jit_stack_size : no_zero jit_stack_size.
Proof. unfold jit_stack_size. nz. Qed.

Lemma nz_setup_jit (j : bool) : no_zero (setup_jit j).
Proof. unfold setup_jit. pose proof nz_jit_stack_size. nz. Qed.

Lemma nz_prepare (pattern : cstr) (u c j : bool) :
  no_zero (R_pcre2_prepare pattern u c j).
Proof. unfold R_pcre2_prepare. pose proof nz_jit_stack_size. nz. Qed.

Lemma nz_reg_report {A} (rc : Z) (pat : option cstr) : no_zero (@reg_report A rc pat).
Proof. unfold reg_report. nz. Qed.

Lemma nz_fixed_replace (fuel : nat) (g ub u8 : bool) (spat srep : cstr) :
  forall s st, no_zero (fixed_replace fuel g ub u8 spat srep s st).
Proof.
  induction fuel as [|f IH]; intros s st; [apply nz_fuel|].
  rewrite fixed_replace_S. cbv zeta. nz. apply IH.
Qed.

Lemma nz_pcre_replace (fuel : nat) re mc g u8 s srep ns maxrep :
  forall st, no_zero (pcre_replace fuel re mc g u8 s srep ns maxrep st).
Proof.
  induction fuel as [|f IH]; intros st; [apply nz_fuel|].
  cbn [pcre_replace]. pose proof nz_grow. nz; auto.
Qed.

Lemma nz_tre_replace {A} (fuel : nat) exec adj g (s : list A) ns maxrep :
  forall st, no_zero (tre_replace fuel exec adj g s ns maxrep st).
Proof.
  induction fuel as [|f IH]; intros st; [apply nz_fuel|].
  cbn [tre_replace]. pose proof nz_grow. nz; auto.
Qed.

Lemma nz_gsub_finish {A} rep0 xi (s : list A) ns st mk :
  no_zero (gsub_finish rep0 xi s ns st mk).
Proof. unfold gsub_finish. pose proof nz_grow. nz; auto. Qed.

Lemma nz_gsub_elt fuel comp g ub u8 wc rep0 spat srep wrep replen xi i s :
  no_zero (gsub_elt fuel comp g ub u8 wc rep0 spat srep wrep replen xi i s).
Proof.
  unfold gsub_elt, R_pcre_exec_error, espace_warning.
  destruct comp; nz;
    auto using nz_fixed_replace, nz_pcre_replace, nz_tre_replace, nz_gsub_finish.
Qed.

Lemma nz_gsub_input ub wc u8 xi i : no_zero (gsub_input ub wc u8 xi i).
Proof. unfold gsub_input. nz. Qed.

Lemma nz_gsub_spat_srep ub wc u8 pat0 rep0 : no_zero (gsub_spat_srep ub wc u8 pat0 rep0).
Proof. unfold gsub_spat_srep. nz. Qed.

(** C9.  A [sub] or [gsub] call with [fixed] set whose pattern translates
    to the empty string stops with the error "zero-length pattern",
    whatever the elements of the text are: none is looked at.  A call
    without [fixed] never stops on that error. *)
Theorem zero_length_fixed_pattern
    (global : bool) (fuel : nat) (jit_stack : bool)
    (pat0 rep0 : CHARSXP) (pats reps xs : list CHARSXP)
    (pa ra ta : list (string * SEXP)) (igcase perl useBytes : Rflag)
    (ws : list condition) (srep : cstr) :
  is_NA pat0 = false ->
  (let ub := gsub_useBytes (na_false useBytes) pat0 rep0 xs in
   gsub_spat_srep ub (gsub_use_WC true false ub pat0 rep0 xs)
     (gsub_use_UTF8 true false ub pat0 rep0 xs) pat0 rep0
   = (ws, Val ([], srep))) ->
  outcome (do_gsub global fuel jit_stack (STRSXP (pat0 :: pats) pa)
             (STRSXP (rep0 :: reps) ra) (STRSXP xs ta)
             igcase perl (Some true) useBytes)
  = Err zero_length_pattern
  /\ (forall pat rep text fixed,
        na_false fixed = false ->
        outcome (do_gsub global fuel jit_stack pat rep text igcase perl fixed useBytes)
        <> Err zero_length_pattern).
Proof.
  intros Hna Hsp. split.
  - assert (Hp : (LENGTH (STRSXP (pat0 :: pats) pa) <? 1) = false).
    { unfold LENGTH, strlen. apply Z.ltb_ge. simpl length. lia. }
    assert (Hr : (LENGTH (STRSXP (rep0 :: reps) ra) <? 1) = false).
    { unfold LENGTH, strlen. apply Z.ltb_ge. simpl length. lia. }
    unfold do_gsub.
    repeat (erewrite outcome_bind_val; [| apply outcome_warn_if]).
    rewrite Hp. cbn [isString negb orb error_if]. rewrite bind_ret_l.
    erewrite outcome_bind_val; [| apply outcome_warn_if].
    rewrite Hr. cbn [isString negb orb error_if]. rewrite bind_ret_l.
    erewrite outcome_bind_val; [| apply outcome_warn_if].
    rewrite bind_ret_l.
    cbn [STRING_ELT0 STRING_ELTS nth]. rewrite Hna.
    replace (if na_false (Some true) && na_false perl then false else na_false perl)
      with false by (now destruct perl as [[|]|]).
    cbn [na_false]. cbv zeta in Hsp. rewrite Hsp.
    erewrite outcome_bind_val; [| reflexivity].
    reflexivity.
  - intros pat rep text fixed Hfx. unfold do_gsub. rewrite Hfx.
    cbn [andb negb].
    fold (@no_zero SEXP).
    pose proof nz_gsub_spat_srep. pose proof nz_prepare.
    pose proof nz_gsub_input. pose proof nz_gsub_elt.
    nz; auto using nz_reg_report.
Qed.

(** ** C4: [gregexpr] ends *)

Definition is_infinite_warning (c : condition) : bool :=
  match c with infinite_empty_match => true | _ => false end.

(** How many times the warning of the infinite empty match was given. *)
Definition infinite_warnings {A} (m : M A) : nat :=
  length (filter is_infinite_warning (warnings m)).

Lemma Regexc_loop_spec {A} (exec : list A -> bool -> tre_rc * list regmatch_t)
    (s : list A) :
  tre_wf exec s ->
  forall (fuel : nat) (offset : Z) (eflags : bool) (rc : option tre_rc),
    0 <= offset ->
    (Z.to_nat (strlen s - offset) < fuel)%nat ->
    exists ms rc',
      Regexc_loop fuel exec s (strlen s) offset eflags rc = Some (ms, rc')
      /\ strlen ms <= Z.max 0 (strlen s - offset).
Proof.
  intros Hwf. induction fuel as [|f IH]; intros offset eflags rc Hoff Hfuel; [lia|].
  cbn [Regexc_loop].
  destruct (Z.ltb_spec offset (strlen s)) as [Hlt|Hge].
  - destruct (exec (advance s offset) eflags) as [rc1 m] eqn:E.
    destruct rc1.
    + destruct (Hwf offset eflags m ltac:(lia) E) as [Hso Heo].
      set (off' := if rm_eo (rm m 0) - rm_so (rm m 0) =? 0
                   then offset + rm_so (rm m 0) + 1
                   else offset + rm_eo (rm m 0)).
      assert (Hoff' : offset < off').
      { unfold off'. destruct (Z.eqb_spec (rm_eo (rm m 0) - rm_so (rm m 0)) 0); lia. }
      destruct (IH off' true (Some REG_OK) ltac:(lia) ltac:(lia))
        as (ms & rc' & -> & Hlen).
      eexists _, _. split; [reflexivity|].
      unfold strlen in *. simpl length. lia.
    + eexists _, _. split; [reflexivity|]. unfold strlen; simpl; lia.
    + eexists _, _. split; [reflexivity|]. unfold strlen; simpl; lia.
  - eexists _, _. split; [reflexivity|]. unfold strlen; simpl; lia.
Qed.

(** The contract of a compiled expression, for every subject. *)
Definition tre_engine_wf (reg : regex_t T) : Prop :=
  (forall (s : cstr) nmatch, tre_wf (fun t e => tre_regexecb T reg t nmatch e) s)
  /\ (forall (s : wstr) nmatch, tre_wf (fun t e => tre_regwexec T reg t nmatch e) s).

(** The subject of [gregexpr_Regexc], in units. *)
Definition Regexc_len (sstr : CHARSXP) (useBytes use_WC : bool) : Z :=
  if useBytes then strlen (CHAR sstr)
  else if negb use_WC then strlen (translateChar H sstr)
  else strlen (wtransChar H sstr).

Lemma gregexpr_Regexc_spec (fuel : nat) (reg : regex_t T) (sstr : CHARSXP)
    (useBytes use_WC : bool) (i : Z) (itype : SEXP) :
  tre_engine_wf reg ->
  (Z.to_nat (Regexc_len sstr useBytes use_WC) < fuel)%nat ->
  exists v attrs,
    outcome (gregexpr_Regexc fuel reg sstr useBytes use_WC i itype)
    = Val (INTSXP v attrs)
    /\ strlen v <= Regexc_len sstr useBytes use_WC + 1
    /\ infinite_warnings (gregexpr_Regexc fuel reg sstr useBytes use_WC i itype) = O.
Proof.
  intros [Hb Hw] Hfuel. unfold gregexpr_Regexc, Regexc_len in *.
  assert (Hfin : forall (ms : list (Z * Z)) (rc : option tre_rc) (len : Z),
            strlen ms <= Z.max 0 (len - 0) -> 0 <= len ->
            exists v attrs,
              outcome (match rc with Some rc => espace_warning rc i | None => ret tt end ;;
                       ret (INTSXP (map fst (match ms with [] => [(-1, -1)] | _ => ms end))
                              (match_attribs useBytes itype
                                 (map snd (match ms with [] => [(-1, -1)] | _ => ms end)))))
              = Val (INTSXP v attrs)
              /\ strlen v <= len + 1
              /\ infinite_warnings
                   (match rc with Some rc => espace_warning rc i | None => ret tt end ;;
                    ret (INTSXP (map fst (match ms with [] => [(-1, -1)] | _ => ms end))
                           (match_attribs useBytes itype
                              (map snd (match ms with [] => [(-1, -1)] | _ => ms end)))))
                 = O).
  { intros ms rc len Hlen Hl0.
    eexists _, _. split; [| split].
    - destruct rc as [[| |]|]; reflexivity.
    - unfold strlen in *. rewrite length_map. destruct ms; simpl length in *; lia.
    - destruct rc as [[| |]|]; reflexivity. }
  destruct useBytes; cbn [negb].
  - destruct (Regexc_loop_spec _ _ (Hb (CHAR sstr) 1) fuel 0 false None
                ltac:(lia) ltac:(lia)) as (ms & rc & -> & Hlen).
    apply Hfin; [exact Hlen | apply strlen_nonneg].
  - destruct use_WC; cbn [negb] in *.
    + destruct (Regexc_loop_spec _ _ (Hw (wtransChar H sstr) 1) fuel 0 false None
                  ltac:(lia) ltac:(lia)) as (ms & rc & -> & Hlen).
      apply Hfin; [exact Hlen | apply strlen_nonneg].
    + destruct (Regexc_loop_spec _ _ (Hb (translateChar H sstr) 1) fuel 0 false None
                  ltac:(lia) ltac:(lia)) as (ms & rc & -> & Hlen).
      apply Hfin; [exact Hlen | apply strlen_nonneg].
Qed.

Lemma getNc_from_total :
  (forall c, 1 <= utf8clen H c) ->
  forall (fuel : nat) (s : cstr) (st i nc : Z),
    (Z.to_nat (st - i) < fuel)%nat ->
    exists r, getNc_from fuel s st i nc = Some r.
Proof.
  intros Hclen. induction fuel as [|f IH]; intros s st i nc Hfuel; [lia|].
  cbn [getNc_from]. destruct (Z.ltb_spec i st) as [Hlt|Hge].
  - apply IH. specialize (Hclen (byte_at s i)). lia.
  - now eexists.
Qed.

(** A pair of the ovector that the extraction can count through. *)
Definition pair_ok (ovector : list Z) (string : cstr) : Prop :=
  to_int (ov ovector 0) <= strlen string
  /\ to_int (ov ovector 1) - to_int (ov ovector 0) <= strlen string.

Fixpoint groups_ok (k : nat) (ovector : list Z) (string : cstr) : Prop :=
  match k with
  | O => True
  | S k' => pair_ok (skipn 2 ovector) string /\ groups_ok k' (skipn 2 ovector) string
  end.

(** What the extraction of the character positions relies on, when the
    subject is handled as UTF-8: a character is at least one byte long,
    and the capture groups of a match are within the subject. *)
Definition pcre_groups_wf (re : pcre2_code P) (mc : mcontext_t)
    (use_UTF8 : bool) (capture_count : Z) (s : cstr) : Prop :=
  use_UTF8 = true ->
  (forall c, 1 <= utf8clen H c)
  /\ (forall start e ncap ovector,
        pcre2_match P re s start e mc = (ncap, ovector) -> 0 <= ncap ->
        groups_ok (Z.to_nat capture_count) ovector s).

Lemma ovector_extract_total (use_UTF8 : bool) (ovector : list Z) (string : cstr) :
  (use_UTF8 = true -> (forall c, 1 <= utf8clen H c) /\ pair_ok ovector string) ->
  exists r,
    ovector_extract_start_length (S (length string)) use_UTF8 ovector string = Some r.
Proof.
  intros Hu. unfold ovector_extract_start_length.
  destruct use_UTF8; [| now eexists].
  destruct (Hu eq_refl) as [Hclen [H0 H1]]. unfold strlen in *.
  assert (Hst : exists nc,
             (if to_int (ov ovector 0) >? 0
              then getNc (S (length string)) string (to_int (ov ovector 0))
              else Some (to_int (ov ovector 0))) = Some nc).
  { destruct (to_int (ov ovector 0) >? 0); [| now eexists].
    apply getNc_from_total; [exact Hclen | lia]. }
  destruct Hst as [nc ->].
  destruct (getNc_from_total Hclen (S (length string))
              (advance string (to_int (ov ovector 0)))
              (to_int (ov ovector 1) - to_int (ov ovector 0)) 0 0 ltac:(lia))
    as [ln Hln].
  unfold getNc. rewrite Hln. now eexists.
Qed.

Lemma extract_groups_total (use_UTF8 : bool) (string : cstr) :
  forall (k : nat) (ovector : list Z),
    (use_UTF8 = true -> (forall c, 1 <= utf8clen H c) /\ groups_ok k ovector string) ->
    exists r, extract_groups (S (length string)) use_UTF8 ovector k string = Some r.
Proof.
  induction k as [|k IH]; intros ovector Hu; [now eexists|].
  cbn [extract_groups].
  destruct (ovector_extract_total use_UTF8 (skipn 2 ovector) string) as [[[st ln] fa] ->].
  { intros E. destruct (Hu E) as [Hc [Hp _]]. now split. }
  destruct (IH (skipn 2 ovector)) as [rest ->].
  { intros E. destruct (Hu E) as [Hc [_ Hg]]. now split. }
  now eexists.
Qed.

Lemma pcre_matches_spec (re : pcre2_code P) (mc : mcontext_t) (use_UTF8 : bool)
    (capture_count : Z) (s : cstr) (n : Z) :
  pcre_wf re mc s -> strlen s <= INT_MAX ->
  pcre_groups_wf re mc use_UTF8 capture_count s ->
  forall (fuel : nat) (start : Z),
    0 <= start <= strlen s ->
    (Z.to_nat (strlen s - start) < fuel)%nat ->
    exists ws ms,
      pcre_matches fuel re mc use_UTF8 capture_count s (strlen s) start n
      = (ws, Val ms)
      /\ strlen ms <= Z.max 1 (strlen s - start)
      /\ filter is_infinite_warning ws = [].
Proof.
  intros Hwf Hmax Hg. induction fuel as [|f IH]; intros start Hstart Hfuel; [lia|].
  cbn [pcre_matches].
  destruct (pcre2_match P re s start false mc) as [rc ovector] eqn:E.
  unfold R_pcre_exec_error.
  destruct (Z.geb_spec rc 0) as [Hrc|Hrc]; cbn [orb].
  - rewrite bind_ret_l.
    destruct (Hwf start false rc ovector Hstart E Hrc) as [[H0 H1] H2].
    assert (Hex : exists r, extract_match_and_groups (S (length s)) use_UTF8 ovector
                              capture_count s = Some r).
    { unfold extract_match_and_groups.
      destruct (ovector_extract_total use_UTF8 ovector s) as [[[st ln] fa] ->].
      { intros Eu. destruct (Hg Eu) as [Hc _]. split; [exact Hc|].
        unfold pair_ok. rewrite !to_int_small by lia. lia. }
      destruct (extract_groups_total use_UTF8 s (Z.to_nat capture_count) ovector)
        as [groups ->].
      { intros Eu. destruct (Hg Eu) as [Hc Hk]. split; [exact Hc|].
        now apply (Hk start false rc). }
      now eexists. }
    destruct Hex as [[[[st ln] groups] foundAll] ->].
    rewrite !to_int_small by lia.
    set (start' := if ov ovector 1 - ov ovector 0 =? 0
                   then ov ovector 0 + 1 else ov ovector 1).
    assert (Hadv : start < start').
    { unfold start'. destruct (Z.eqb_spec (ov ovector 1 - ov ovector 0) 0); lia. }
    destruct (foundAll || (start' >=? strlen s)) eqn:Estop.
    + exists [], [(st, ln, groups)]. split; [reflexivity|].
      split; [unfold strlen; simpl; lia | reflexivity].
    + apply orb_false_iff in Estop. destruct Estop as [_ Estop].
      destruct (Z.geb_spec start' (strlen s)) as [|Hlt]; [discriminate|].
      destruct (IH start' ltac:(lia) ltac:(lia)) as (ws & ms & -> & Hlen & Hq).
      exists ws, ((st, ln, groups) :: ms). split.
      * cbn. now rewrite app_nil_r.
      * split; [| exact Hq]. unfold strlen in *. simpl length. lia.
  - destruct (rc =? PCRE2_ERROR_NOMATCH P).
    + exists [], []. split; [reflexivity|].
      split; [unfold strlen; simpl; lia | reflexivity].
    + eexists _, []. split; [reflexivity|].
      split; [unfold strlen; simpl; lia | reflexivity].
Qed.

(** C4. [gregexpr] with a pattern that can match the empty string ends:
    given the contract of the engines (a match starts at or after the
    position searched from, its end is not before its start and is within
    the subject) and fuel beyond the length of the subject, each of
    [gregexpr_Regexc] and [R_pcre2_gregexpr] returns an integer vector of
    at most [length + 1] positions, and the warning of an infinite empty
    match is given at most once (these loops never give it). *)
Theorem gregexpr_empty_matches_end
    (fuel : nat) (reg : regex_t T) (re : pcre2_code P) (mc : mcontext_t)
    (sstr : CHARSXP) (string : cstr) (useBytes use_WC use_UTF8 : bool)
    (capture_count : Z) (capture_names : SEXP) (i : Z) (itype : SEXP) :
  tre_engine_wf reg ->
  pcre_wf re mc string -> strlen string <= INT_MAX ->
  pcre_groups_wf re mc use_UTF8 capture_count string ->
  (Z.to_nat (Regexc_len sstr useBytes use_WC) < fuel)%nat ->
  (length string < fuel)%nat ->
  (exists v attrs,
      outcome (gregexpr_Regexc fuel reg sstr useBytes use_WC i itype)
      = Val (INTSXP v attrs)
      /\ strlen v <= Regexc_len sstr useBytes use_WC + 1
      /\ (infinite_warnings (gregexpr_Regexc fuel reg sstr useBytes use_WC i itype)
          <= 1)%nat)
  /\ (exists v attrs,
        outcome (R_pcre2_gregexpr fuel string re useBytes use_UTF8 mc
                   capture_count capture_names i itype)
        = Val (INTSXP v attrs)
        /\ strlen v <= strlen string + 1
        /\ (infinite_warnings
              (R_pcre2_gregexpr fuel string re useBytes use_UTF8 mc
                 capture_count capture_names i itype) <= 1)%nat).
Proof.
  intros Htre Hwf Hmax Hg Hf1 Hf2. split.
  - destruct (gregexpr_Regexc_spec fuel reg sstr useBytes use_WC i itype Htre Hf1)
      as (v & attrs & Ho & Hlen & Hq).
    exists v, attrs. rewrite Hq. repeat split; [exact Ho | exact Hlen | lia].
  - unfold R_pcre2_gregexpr.
    destruct (pcre_matches_spec re mc use_UTF8 capture_count string i Hwf Hmax Hg
                fuel 0) as (ws & ms & -> & Hlen & Hq).
    { pose proof (strlen_nonneg string). lia. }
    { unfold strlen. lia. }
    eexists _, _. split; [reflexivity|]. split.
    + unfold strlen in *. rewrite length_map.
      destruct ms; simpl length in *; lia.
    + unfold infinite_warnings, bind, ret, warnings. cbn.
      rewrite app_nil_r, Hq. simpl. lia.
Qed.

(** ** C6: the ceiling of the JIT stack *)

(** [xdouble >= 0 && xdouble <= 1000] *)
Definition jit_in_range (x : float) : bool :=
  (PrimFloat.leb 0 x && PrimFloat.leb x 1000)%bool.

(** C6, amended. The ceiling of the PCRE JIT stack is read from the
    environment variable [R_PCRE_JIT_STACK_MAXSIZE] (not
    [PCRE_JIT_STACK_MAXSIZE]), as a floating-point number of megabytes:
    when the variable is absent the ceiling is 64 MB, without a warning;
    a value in [0, 1000] is accepted and gives that many megabytes,
    truncated to an integer number of bytes, without a warning; any other
    value gives one warning and the ceiling of 64 MB.  No other variable of
    the environment is consulted. *)
Theorem jit_stack_ceiling :
  (getenv H "R_PCRE_JIT_STACK_MAXSIZE" = None ->
   jit_stack_size = ([], Val (64 * 1024 * 1024)))
  /\ (forall p, getenv H "R_PCRE_JIT_STACK_MAXSIZE" = Some p ->
        jit_in_range (R_strtod H p) = true ->
        jit_stack_size
        = ([], Val (double_to_int (R_strtod H p * 1024 * 1024)%float)))
  /\ (forall p, getenv H "R_PCRE_JIT_STACK_MAXSIZE" = Some p ->
        jit_in_range (R_strtod H p) = false ->
        jit_stack_size = ([jit_stack_maxsize_invalid], Val (64 * 1024 * 1024))).
Proof.
  unfold jit_stack_size, jit_in_range. repeat split.
  - now intros ->.
  - intros p -> Hr. cbv zeta. now rewrite Hr.
  - intros p -> Hr. cbv zeta. now rewrite Hr.
Qed.

End Grep.


(** * A host and an engine to run the model on

    The host is the C locale: no translation, single-byte characters,
    every string valid, and an environment given as a function.  The
    engine knows two kinds of pattern: a literal string, and [c*] for a
    byte [c], the longest run of [c] at the position searched from (which
    is a match everywhere, possibly empty). *)

Definition hostC_env (env : string -> option cstr) (strtod : cstr -> float) : Host := {|
  mbcslocale := false; utf8locale := false; latin1locale := false;
  R_PCRE_use_JIT := false;
  translateChar := CHAR; translateCharUTF8 := CHAR;
  wtransChar := fun e => map code (CHAR e);
  utf8Valid := fun _ => true; mbcsValid := fun _ => true;
  strIsASCII := fun _ => true;
  utf8clen := fun _ => 1; Mbrtowc := fun _ => 1;
  mbstowcs := strlen; utf8towcs := strlen;
  mkChar := Chars ASCII; mkCharCE_UTF8 := Chars ASCII;
  markKnown := fun s _ => Chars ASCII s;
  mkCharW := fun w => Chars ASCII (map (fun z => ascii_of_N (Z.to_N z)) w);
  toupper := fun c => c; tolower := fun c => c;
  utf8_toupper := fun s => Some s; utf8_tolower := fun s => Some s;
  getenv := env; R_strtod := strtod |}.

Definition hostC : Host := hostC_env (fun _ => None) (fun _ => 0%float).

Inductive toy := Lit (s : cstr) | Star (c : ascii).

Definition toy_compile (p : cstr) : toy :=
  match p with
  | [c; s] => if Ascii.eqb s "*" then Star c else Lit p
  | _ => Lit p
  end.

Fixpoint run (c : ascii) (s : cstr) : Z :=
  match s with
  | x :: s' => if Ascii.eqb x c then 1 + run c s' else 0
  | [] => 0
  end.

Fixpoint find (p s : cstr) (i : Z) : option Z :=
  if strncmp_eq p s (strlen p) then Some i
  else match s with [] => None | _ :: s' => find p s' (i + 1) end.

Definition toy_exec (t : toy) (s : cstr) : option (Z * Z) :=
  match t with
  | Star c => Some (0, run c s)
  | Lit p =>
      match find p s 0 with Some i => Some (i, i + strlen p) | None => None end
  end.

Definition toy_tre_exec (t : toy) (s : cstr) (n : Z) (e : bool)
    : tre_rc * list regmatch_t :=
  match toy_exec t s with
  | Some (a, b) => (REG_OK, [{| rm_so := a; rm_eo := b |}])
  | None => (REG_NOMATCH, [])
  end.

Definition w2c (w : wstr) : cstr := map (fun z => ascii_of_N (Z.to_N z)) w.

Definition treT : TRE := {|
  regex_t := toy; re_nsub := fun _ => 0;
  tre_regcomp := fun p _ => inl (toy_compile p);
  tre_regcompb := fun p _ => inl (toy_compile p);
  tre_regwcomp := fun p _ => inl (toy_compile (w2c p));
  tre_regncompb := fun p _ => inl (toy_compile p);
  tre_regexec := toy_tre_exec; tre_regexecb := toy_tre_exec;
  tre_regwexec := fun t s => toy_tre_exec t (w2c s);
  tre_regnexecb := toy_tre_exec |}.

Definition pcreT : PCRE := {|
  pcre2_code := toy; PCRE2_ERROR_NOMATCH := -1; PCRE2_ERROR_JIT_BADOPTION := -45;
  pcre2_compile := fun p _ _ _ => inl (toy_compile p);
  pcre2_jit_compile := fun _ => 0;
  pcre2_jit_stack_create := fun _ _ => true;
  pcre2_match := fun t s start _ _ =>
    match toy_exec t (advance s start) with
    | Some (a, b) => (1, [start + a; start + b])
    | None => (-1, [])
    end;
  pcre2_capture_count := fun _ => (0, 0);
  pcre2_name_table := fun _ => [] |}.

Definition chars (s : string) : CHARSXP := Chars ASCII (str s).
Definition String1 (s : string) : SEXP := STRSXP [chars s] [].

Lemma run_bounds (c : ascii) (s : cstr) : 0 <= run c s <= strlen s.
Proof.
  unfold strlen. induction s as [|x s IH]; cbn [run length]; [lia|].
  destruct (Ascii.eqb x c); lia.
Qed.

Lemma star_tre_wf {A} (c : ascii) (f : list A -> cstr) (s : list A) (n : Z) :
  (forall t, strlen (f t) = strlen t) ->
  tre_wf (fun t e => toy_tre_exec (Star c) (f t) n e) s.
Proof.
  intros Hf off e m Hoff. unfold toy_tre_exec, toy_exec.
  intros [= <-]. cbn.
  pose proof (run_bounds c (f (advance s off))) as Hr.
  rewrite Hf in Hr. rewrite strlen_advance in Hr; [|lia]. lia.
Qed.

Lemma star_engine_wf (c : ascii) : tre_engine_wf treT (Star c).
Proof.
  split; intros s n.
  - apply (star_tre_wf c (fun t => t)). reflexivity.
  - apply (star_tre_wf c w2c). intros t. unfold w2c, strlen. now rewrite length_map.
Qed.

Lemma star_pcre_wf (c : ascii) (mc : mcontext_t) (s : cstr) :
  pcre_wf pcreT (Star c) mc s.
Proof.
  intros start e ncap ovector Hs. cbn. intros [= <- <-] _. cbn.
  pose proof (run_bounds c (advance s start)) as Hr.
  rewrite strlen_advance in Hr; [|lia]. lia.
Qed.

(** ** Runs of the model *)

(** [gregexpr ("b*", "abcb")]: four matches, two of them empty. *)
Example gregexpr_star_tre :
  do_regexpr hostC treT pcreT true 10 false (String1 "b*") (String1 "abcb")
    None None None None
  = ([], Val (VECSXP [INTSXP [1; 2; 3; 4]
                        [("match.length"%string, INTSXP [0; 1; 0; 1] []);
                         ("index.type"%string, String1 "chars");
                         ("useBytes"%string, LGLSXP [1] [])]] [])).
Proof. vm_compute. reflexivity. Qed.

Example gregexpr_star_perl :
  outcome (do_regexpr hostC treT pcreT true 10 false (String1 "b*") (String1 "abcb")
             None (Some true) None None)
  = Val (VECSXP [INTSXP [1; 2; 3; 4]
                   [("match.length"%string, INTSXP [0; 1; 0; 1] []);
                    ("index.type"%string, String1 "chars");
                    ("useBytes"%string, LGLSXP [1] [])]] []).
Proof. vm_compute. reflexivity. Qed.

(** [gsub ("b*", "-", "abc")]. *)
Example gsub_star :
  outcome (do_gsub hostC treT pcreT true 10 false (String1 "b*") (String1 "-")
             (String1 "abc") None None None None)
  = Val (STRSXP [chars "-a-c-"] []).
Proof. vm_compute. reflexivity. Qed.

(** ** C1: [gregexpr] with a missing pattern *)

(** [gregexpr (NA_character_, "abc")] and [regexpr (NA_character_, "abc")]
    are errors, "invalid 'pattern' argument": the missing pattern is not
    propagated by these two. *)
Lemma missing_pattern_gregexpr_is_error :
  do_regexpr hostC treT pcreT true 10 false (STRSXP [NA_STRING] []) (String1 "abc")
    None None None None
  = ([], Err (invalid_arg "pattern"))
  /\ do_regexpr hostC treT pcreT false 10 false (STRSXP [NA_STRING] [])
       (String1 "abc") None None None None
     = ([], Err (invalid_arg "pattern")).
Proof. split; vm_compute; reflexivity. Qed.

(** ** C2: [strsplit] of the empty string *)

Lemma strsplit_fixed_comma_hostC :
  outcome (do_strsplit hostC treT pcreT 10 false (String1 "a,b,,c") (String1 ",")
             (Some true) None None)
  = Val (VECSXP [STRSXP [chars "a"; chars "b"; chars ""; chars "c"] []] [])
  /\ outcome (do_strsplit hostC treT pcreT 10 false (String1 "") (String1 ",")
                (Some true) None None)
     = Val (VECSXP [STRSXP [] []] []).
Proof.
  exact (strsplit_fixed_comma hostC treT pcreT 10%nat false None None
           (fun _ => eq_refl) (fun _ => eq_refl)).
Defined.

(** [strsplit ("", ",", fixed = TRUE)] gives a vector of no tokens, not the
    vector of the one token [""]. *)
Lemma strsplit_empty_string_no_token :
  outcome (do_strsplit hostC treT pcreT 10 false (String1 "") (String1 ",")
             (Some true) None None)
  = Val (VECSXP [STRSXP [] []] [])
  /\ outcome (do_strsplit hostC treT pcreT 10 false (String1 "") (String1 ",")
                (Some true) None None)
     <> Val (VECSXP [STRSXP [chars ""] []] []).
Proof. split; vm_compute; [reflexivity | discriminate]. Qed.

(** ** C3: what [gsub ("b*", "-", "abc")] keeps *)


(** ** C4: [gregexpr ("b*", "abcb")] ends *)

Lemma gregexpr_empty_matches_end_star :
  (exists v attrs,
      outcome (gregexpr_Regexc hostC treT 10 (Star "b") (chars "abcb")
                 false false 0 (String1 "chars"))
      = Val (INTSXP v attrs)
      /\ strlen v <= Regexc_len hostC (chars "abcb") false false + 1
      /\ (infinite_warnings
            (gregexpr_Regexc hostC treT 10 (Star "b") (chars "abcb")
               false false 0 (String1 "chars")) <= 1)%nat)
  /\ (exists v attrs,
        outcome (R_pcre2_gregexpr hostC pcreT 10 (str "abcb") (Star "b")
                   false false {| jit_stack_assigned := false |} 0
                   (STRSXP [] []) 0 (String1 "chars"))
        = Val (INTSXP v attrs)
        /\ strlen v <= strlen (str "abcb") + 1
        /\ (infinite_warnings
              (R_pcre2_gregexpr hostC pcreT 10 (str "abcb") (Star "b")
                 false false {| jit_stack_assigned := false |} 0
                 (STRSXP [] []) 0 (String1 "chars")) <= 1)%nat).
Proof.
  apply (gregexpr_empty_matches_end hostC treT pcreT 10%nat (Star "b") (Star "b")
           {| jit_stack_assigned := false |} (chars "abcb") (str "abcb")
           false false false 0 (STRSXP [] []) 0 (String1 "chars")).
  - apply star_engine_wf.
  - apply star_pcre_wf.
  - vm_compute. discriminate.
  - intros E. discriminate E.
  - vm_compute. lia.
  - vm_compute. lia.
Defined.

(** ** C6: the name of the environment variable *)

(** Digits as a number, for an environment whose values are whole numbers. *)
Definition digit_value (c : ascii) : float :=
  match (code c - 48)%Z with
  | 1%Z => 1%float | 2%Z => 2%float | 3%Z => 3%float | 4%Z => 4%float
  | 5%Z => 5%float | 6%Z => 6%float | 7%Z => 7%float | 8%Z => 8%float
  | 9%Z => 9%float
  | _ => 0%float
  end.

Definition strtod_digits (s : cstr) : float :=
  fold_left (fun x c => (x * 10 + digit_value c)%float) s 0%float.

(** An environment with one variable, [name], of value [value]. *)
Definition host_with (name : string) (value : string) : Host :=
  hostC_env (fun n => if String.eqb n name then Some (str value) else None)
            strtod_digits.

Example jit_stack_10MB :
  jit_stack_size (host_with "R_PCRE_JIT_STACK_MAXSIZE" "10")
  = ([], Val (10 * 1024 * 1024)).
Proof. vm_compute. reflexivity. Qed.

Example jit_stack_1000MB :
  jit_stack_size (host_with "R_PCRE_JIT_STACK_MAXSIZE" "1000")
  = ([], Val (1000 * 1024 * 1024)).
Proof. vm_compute. reflexivity. Qed.

Example jit_stack_out_of_range :
  jit_stack_size (host_with "R_PCRE_JIT_STACK_MAXSIZE" "1001")
  = ([jit_stack_maxsize_invalid], Val (64 * 1024 * 1024)).
Proof. vm_compute. reflexivity. Qed.

(** With [PCRE_JIT_STACK_MAXSIZE] set to 10 (and to the out-of-range 2000)
    the ceiling is still 64 MB and nothing is warned: the variable is not
    read. *)
Lemma jit_stack_other_variable_ignored :
  getenv (host_with "PCRE_JIT_STACK_MAXSIZE" "10") "PCRE_JIT_STACK_MAXSIZE"
  = Some (str "10")
  /\ jit_stack_size (host_with "PCRE_JIT_STACK_MAXSIZE" "10")
     = ([], Val (64 * 1024 * 1024))
  /\ jit_stack_size (host_with "PCRE_JIT_STACK_MAXSIZE" "10")
     <> ([], Val (10 * 1024 * 1024))
  /\ jit_stack_size (host_with "PCRE_JIT_STACK_MAXSIZE" "2000")
     = ([], Val (64 * 1024 * 1024)).
Proof. repeat split; vm_compute; solve [reflexivity | discriminate]. Qed.

(** ** C7: a required capacity beyond [INT_MAX/2] that is not refused *)


(** ** C8: a missing replacement *)


(** An element that the pattern does not match is returned as it is. *)
Example missing_replacement_unmatched :
  outcome (do_gsub hostC treT pcreT true 10 false (String1 "x")
             (STRSXP [NA_STRING] []) (STRSXP [chars "abc"; chars "xyz"] [])
             None None (Some true) None)
  = Val (STRSXP [chars "abc"; NA_STRING] []).
Proof. vm_compute. reflexivity. Qed.

(** ** C9: [gsub ("", "x", "abc", fixed = TRUE)] *)

Lemma zero_length_fixed_pattern_hostC :
  outcome (do_gsub hostC treT pcreT true 10 false (String1 "") (String1 "x")
             (String1 "abc") None None (Some true) None)
  = Err zero_length_pattern
  /\ (forall pat rep text fixed, na_false fixed = false ->
        outcome (do_gsub hostC treT pcreT true 10 false pat rep text None None
                   fixed None)
        <> Err zero_length_pattern).
Proof.
  apply (zero_length_fixed_pattern hostC treT pcreT true 10%nat false
           (chars "") (chars "x") [] [] [chars "abc"] [] [] [] None None None
           [] (str "x")).
  - reflexivity.
  - vm_compute. reflexivity.
Defined.

(** ** C10: [grepRaw] from beyond the text *)

Lemma grepraw_offset_beyond_text_7 :
  do_grepraw treT 10 (RAWSXP (str "ab")) (RAWSXP (str "abcabc")) 7
    None None None None None
  = ([], Val (INTSXP [] [])).
Proof.
  apply (grepraw_offset_beyond_text treT 10%nat (str "ab") (str "abcabc") 7
           None None None None None).
  - vm_compute. reflexivity.
  - vm_compute. discriminate.
Defined.

(** * Further properties of the code *)


(** * Further properties of the code *)

Section Replacement.

Variable H : Host.

(** ** The size of an expanded replacement

    [maxrep] is what the replacement loops reserve for one expansion of the
    replacement; the expansions stay within it. *)

Lemma strlen_slice_le {A} (s : list A) (a b : Z) : strlen (slice s a b) <= strlen s.
Proof.
  unfold slice, take, advance, strlen.
  rewrite length_firstn, length_skipn. lia.
Qed.

Lemma strlen_cons {A} (x : A) (s : list A) : strlen (x :: s) = 1 + strlen s.
Proof. unfold strlen. simpl length. lia. Qed.

Lemma string_adj_cons (orig : cstr) (c : ascii) (p : cstr) (regmatch : list regmatch_t) :
  string_adj orig (c :: p) regmatch
  = if Ascii.eqb c backslash then
      match p with
      | [] => []
      | d :: p' =>
          if is_digit19 d then
            slice orig (rm_so (rm regmatch (digit d))) (rm_eo (rm regmatch (digit d)))
              ++ string_adj orig p' regmatch
          else d :: string_adj orig p' regmatch
      end
    else c :: string_adj orig p regmatch.
Proof. reflexivity. Qed.

Lemma count_subs_cons (c : ascii) (p : cstr) :
  count_subs (c :: p)
  = if Ascii.eqb c backslash then
      match p with
      | [] => 0
      | d :: p' => if is_digit19 d then 1 + count_subs p' else count_subs p'
      end
    else count_subs p.
Proof. reflexivity. Qed.

Lemma wstring_adj_cons (orig : wstr) (c : Z) (p : wstr) (regmatch : list regmatch_t) :
  wstring_adj orig (c :: p) regmatch
  = if c =? 92 then
      match p with
      | [] => []
      | d :: p' =>
          if (49 <=? d) && (d <=? 57) then
            slice orig (rm_so (rm regmatch (Z.to_nat (d - 48))))
                       (rm_eo (rm regmatch (Z.to_nat (d - 48))))
              ++ wstring_adj orig p' regmatch
          else d :: wstring_adj orig p' regmatch
      end
    else c :: wstring_adj orig p regmatch.
Proof. reflexivity. Qed.

Lemma wcount_subs_cons (c : Z) (p : wstr) :
  wcount_subs (c :: p)
  = if c =? 92 then
      match p with
      | [] => 0
      | d :: p' => if (49 <=? d) && (d <=? 57) then 1 + wcount_subs p' else wcount_subs p'
      end
    else wcount_subs p.
Proof. reflexivity. Qed.

(** Induction on a replacement, by one unit or by an escape of two. *)
Lemma by_escapes {A} (P : list A -> Prop) :
  P [] -> (forall c, P [c]) ->
  (forall c d p, P p -> P (d :: p) -> P (c :: d :: p)) ->
  forall repl, P repl.
Proof.
  intros Hnil Hone Hstep repl.
  assert (Hboth : P repl /\ forall c, P (c :: repl)).
  { induction repl as [|d p [IHp IHc]].
    - split; [exact Hnil | exact Hone].
    - split; [apply IHc | intros c; apply Hstep; [exact IHp | apply IHc]]. }
  apply Hboth.
Qed.



Lemma string_adj_bound (orig repl : cstr) (regmatch : list regmatch_t) :
  strlen (string_adj orig repl regmatch)
  <= gsub_maxrep (strlen repl) (strlen orig) (count_subs repl).
Proof.
  unfold gsub_maxrep. pose proof (strlen_nonneg orig) as Ho.
  induction repl as [|c|c d p Hp Hd] using by_escapes.
  - cbn [string_adj count_subs]. change (strlen (@nil ascii)) with 0. lia.
  - rewrite string_adj_cons, count_subs_cons.
    destruct (Ascii.eqb c backslash); rewrite ?strlen_cons;
      change (strlen (@nil ascii)) with 0; cbn [string_adj count_subs]; 
      change (strlen (@nil ascii)) with 0; lia.
  - rewrite string_adj_cons, count_subs_cons.
    destruct (Ascii.eqb c backslash).
    + destruct (is_digit19 d).
      * rewrite strlen_app, !strlen_cons.
        pose proof (strlen_slice_le orig (rm_so (rm regmatch (digit d)))
                      (rm_eo (rm regmatch (digit d)))).
        lia.
      * rewrite !strlen_cons. lia.
    + rewrite strlen_cons. rewrite (strlen_cons c). lia.
Qed.



Lemma R_pcre_string_adj_from_cons (cf : case_flag) (orig : cstr) (c : ascii)
    (p : cstr) (ovec : list Z) (use_UTF8 : bool) (ncap : Z) :
  R_pcre_string_adj_from H cf orig (c :: p) ovec use_UTF8 ncap
  = if Ascii.eqb c backslash then
      match p with
      | [] => []
      | d :: p' =>
          if is_digit19 d then
            let k := digit d in
            if Z.of_nat k >=? ncap then
              R_pcre_string_adj_from H cf orig p' ovec use_UTF8 ncap
            else
              let so := ov ovec (2 * k) in
              let eo := ov ovec (2 * k + 1) in
              let nb := to_size_t (eo - so) in
              let folded := match cf with no_case => false | _ => true end in
              (if (nb >? 0) && use_UTF8 && folded then
                 let xi := take nb (advance orig so) in
                 match (match cf with
                        | upper_case => utf8_toupper H xi
                        | _ => utf8_tolower H xi
                        end) with
                 | Some xi' => xi'
                 | None => []
                 end
               else
                 map (fun c => match cf with
                               | upper_case => toupper H c
                               | lower_case => tolower H c
                               | no_case => c
                               end) (slice orig so eo))
              ++ R_pcre_string_adj_from H cf orig p' ovec use_UTF8 ncap
          else if Ascii.eqb d "U" then
            R_pcre_string_adj_from H upper_case orig p' ovec use_UTF8 ncap
          else if Ascii.eqb d "L" then
            R_pcre_string_adj_from H lower_case orig p' ovec use_UTF8 ncap
          else if Ascii.eqb d "E" then
            R_pcre_string_adj_from H no_case orig p' ovec use_UTF8 ncap
          else d :: R_pcre_string_adj_from H cf orig p' ovec use_UTF8 ncap
      end
    else c :: R_pcre_string_adj_from H cf orig p ovec use_UTF8 ncap.
Proof. reflexivity. Qed.

Lemma R_pcre_string_adj_from_bound (orig repl : cstr) (ovec : list Z) (ncap : Z) :
  forall cf,
    strlen (R_pcre_string_adj_from H cf orig repl ovec false ncap)
    <= gsub_maxrep (strlen repl) (strlen orig) (count_subs repl).
Proof.
  unfold gsub_maxrep. pose proof (strlen_nonneg orig) as Ho.
  induction repl as [|c|c d p Hp Hd] using by_escapes; intros cf.
  - cbn [R_pcre_string_adj_from count_subs]. change (strlen (@nil ascii)) with 0. lia.
  - rewrite R_pcre_string_adj_from_cons, count_subs_cons.
    destruct (Ascii.eqb c backslash); rewrite ?strlen_cons;
      cbn [R_pcre_string_adj_from count_subs];
      change (strlen (@nil ascii)) with 0; lia.
  - rewrite R_pcre_string_adj_from_cons, count_subs_cons.
    destruct (Ascii.eqb c backslash).
    + destruct (is_digit19 d).
      * cbv zeta. rewrite !strlen_cons.
        destruct (Z.of_nat (digit d) >=? ncap).
        -- specialize (Hp cf). lia.
        -- rewrite andb_false_r, andb_false_l. rewrite strlen_app.
           specialize (Hp cf).
           pose proof (strlen_slice_le orig (ov ovec (2 * digit d))
                         (ov ovec (2 * digit d + 1))) as Hsl.
           unfold strlen at 1. rewrite length_map. fold (strlen (slice orig (ov ovec (2 * digit d)) (ov ovec (2 * digit d + 1)))).
           lia.
      * rewrite !strlen_cons.
        pose proof (Hp upper_case). pose proof (Hp lower_case).
        pose proof (Hp no_case). pose proof (Hp cf).
        destruct (Ascii.eqb d "U"); [lia|].
        destruct (Ascii.eqb d "L"); [lia|].
        destruct (Ascii.eqb d "E"); [lia|].
        rewrite strlen_cons. lia.
    + rewrite strlen_cons. rewrite (strlen_cons c). specialize (Hd cf). lia.
Qed.

(** X2.  Without UTF-8, an expansion of the replacement by
    [R_pcre_string_adj], case conversions included, is at most
    [maxrep = replen + (ns - 2) * count_subs (repl)] bytes long for a
    subject of [ns] bytes. *)
Theorem pcre_expansion_within_maxrep
    (orig repl : cstr) (ovec : list Z) (ncap : Z) :
  strlen (R_pcre_string_adj H orig repl ovec false ncap)
  <= gsub_maxrep (strlen repl) (strlen orig) (count_subs repl).
Proof. apply R_pcre_string_adj_from_bound. Qed.

(** ** A replacement without a backslash *)

Definition plain (repl : cstr) : bool :=
  forallb (fun c => negb (Ascii.eqb c backslash)) repl.

Definition wplain (repl : wstr) : bool :=
  forallb (fun c => negb (c =? 92)) repl.

(** X3.  A replacement that holds no backslash is inserted as it is by the
    three adjusters, whatever was matched, and it counts no
    back-reference. *)
Theorem plain_replacement_is_literal
    (orig repl : cstr) (worig wrepl : wstr) (regmatch : list regmatch_t)
    (ovec : list Z) (use_UTF8 : bool) (ncap : Z) :
  plain repl = true -> wplain wrepl = true ->
  string_adj orig repl regmatch = repl
  /\ count_subs repl = 0
  /\ R_pcre_string_adj H orig repl ovec use_UTF8 ncap = repl
  /\ wstring_adj worig wrepl regmatch = wrepl
  /\ wcount_subs wrepl = 0.
Proof.
  intros Hp Hw. unfold R_pcre_string_adj. repeat split.
  - induction repl as [|c p IH]; [reflexivity|].
    cbn [plain forallb] in Hp. apply andb_true_iff in Hp. destruct Hp as [Hc Hp].
    apply negb_true_iff in Hc. rewrite string_adj_cons, Hc. f_equal. now apply IH.
  - induction repl as [|c p IH]; [reflexivity|].
    cbn [plain forallb] in Hp. apply andb_true_iff in Hp. destruct Hp as [Hc Hp].
    apply negb_true_iff in Hc. rewrite count_subs_cons, Hc. now apply IH.
  - induction repl as [|c p IH]; [reflexivity|].
    cbn [plain forallb] in Hp. apply andb_true_iff in Hp. destruct Hp as [Hc Hp].
    apply negb_true_iff in Hc. rewrite R_pcre_string_adj_from_cons, Hc.
    f_equal. now apply IH.
  - induction wrepl as [|c p IH]; [reflexivity|].
    cbn [wplain forallb] in Hw. apply andb_true_iff in Hw. destruct Hw as [Hc Hw].
    apply negb_true_iff in Hc. rewrite wstring_adj_cons, Hc. f_equal. now apply IH.
  - induction wrepl as [|c p IH]; [reflexivity|].
    cbn [wplain forallb] in Hw. apply andb_true_iff in Hw. destruct Hw as [Hc Hw].
    apply negb_true_iff in Hc. rewrite wcount_subs_cons, Hc. now apply IH.
Qed.

End Replacement.

Section FixedSearch.

Variable H : Host.

(** ** The fixed search

    [pat] stands in [t] at the byte offset [k]. *)
Definition occurs_at (pat t : cstr) (k : Z) : Prop :=
  slice t k (k + strlen pat) = pat.

Lemma cstr_eqb_refl (a : cstr) : cstr_eqb a a = true.
Proof.
  induction a as [|x a IH]; [reflexivity|].
  cbn [cstr_eqb]. now rewrite Ascii.eqb_refl, IH.
Qed.

Lemma strncmp_eq_occurs (pat t : cstr) (k : Z) :
  strncmp_eq pat (advance t k) (strlen pat) = true <-> occurs_at pat t k.
Proof.
  unfold strncmp_eq, occurs_at, slice. rewrite take_all.
  replace (k + strlen pat - k) with (strlen pat) by lia. split.
  - intros E. apply cstr_eqb_eq in E. now symmetry.
  - intros ->. apply cstr_eqb_refl.
Qed.

(** An occurrence lies within the subject. *)
Lemma occurs_at_within (pat t : cstr) (k : Z) :
  1 <= strlen pat -> 0 <= k -> occurs_at pat t k -> k + strlen pat <= strlen t.
Proof.
  unfold occurs_at, slice, take, advance, strlen. intros Hp Hk E.
  apply (f_equal (@length ascii)) in E.
  rewrite length_firstn, length_skipn in E. lia.
Qed.

Lemma occurs_at_byte (c : ascii) (t : cstr) (k : Z) :
  0 <= k -> (occurs_at [c] t k <-> nth_error t (Z.to_nat k) = Some c).
Proof.
  intros Hk. unfold occurs_at, slice, take, advance.
  change (strlen [c]) with 1. replace (k + 1 - k) with 1 by lia.
  change (Z.to_nat 1) with 1%nat.
  generalize (Z.to_nat k) as n. intros n. revert t.
  induction n as [|n IH]; intros [|x t]; cbn; try (split; discriminate).
  - split; intros [= ->]; reflexivity.
  - apply IH.
Qed.

Lemma find_byte_first (c : ascii) (t : cstr) : forall i,
  0 <= i ->
  (find_byte c t i = -1
   /\ forall n, nth_error t n <> Some c)
  \/ (i <= find_byte c t i
      /\ nth_error t (Z.to_nat (find_byte c t i - i)) = Some c
      /\ forall n, (n < Z.to_nat (find_byte c t i - i))%nat -> nth_error t n <> Some c).
Proof.
  induction t as [|x t IH]; intros i Hi; cbn [find_byte].
  - left. split; [reflexivity|]. intros [|n]; discriminate.
  - destruct (Ascii.eqb_spec x c) as [->|Hne].
    + right. rewrite Z.sub_diag. split; [lia|]. split; [reflexivity|].
      intros n Hn. cbn in Hn. lia.
    + destruct (IH (i + 1) ltac:(lia)) as [[E Hno] | (Hle & Hat & Hbefore)].
      * left. split; [exact E|]. intros [|n]; cbn; [congruence | apply Hno].
      * right. split; [lia|].
        replace (Z.to_nat (find_byte c t (i + 1) - i))
          with (S (Z.to_nat (find_byte c t (i + 1) - (i + 1)))) by lia.
        split; [exact Hat|].
        intros [|n] Hn; cbn; [congruence | apply Hbefore; lia].
Qed.

(** The scan by one byte finds the first offset at which the comparison
    succeeds. *)
Lemma fgrep_scan_first (pat t : cstr) (step : Z -> Z) :
  (forall ib, step ib = 1) -> 1 <= strlen pat ->
  forall n ib i,
    0 <= ib -> (Z.to_nat (strlen t - ib) < n)%nat ->
    match fgrep_scan n step pat t (strlen t) (strlen pat) ib i with
    | Some (ib', i') =>
        ib <= ib' /\ i' - i = ib' - ib /\ occurs_at pat t ib'
        /\ forall k, ib <= k < ib' -> ~ occurs_at pat t k
    | None => forall k, ib <= k -> ~ occurs_at pat t k
    end.
Proof.
  intros Hstep Hp. induction n as [|n IH]; intros ib i Hib Hn; [lia|].
  cbn [fgrep_scan].
  destruct (Z.leb_spec ib (strlen t - strlen pat)) as [Hle|Hgt].
  - destruct (strncmp_eq pat (advance t ib) (strlen pat)) eqn:E.
    + apply strncmp_eq_occurs in E. split; [lia|]. split; [lia|]. split; [exact E|].
      intros k Hk; lia.
    + rewrite Hstep. cbn [Z.leb Z.compare].
      specialize (IH (ib + 1) (i + 1) ltac:(lia) ltac:(lia)).
      destruct (fgrep_scan n step pat t (strlen t) (strlen pat) (ib + 1) (i + 1))
        as [[ib' i']|].
      * destruct IH as (H1 & H2 & H3 & H4). split; [lia|]. split; [lia|].
        split; [exact H3|].
        intros k Hk Hocc. destruct (Z.eq_dec k ib) as [->|Hne].
        -- apply strncmp_eq_occurs in Hocc. congruence.
        -- apply (H4 k); [lia | exact Hocc].
      * intros k Hk Hocc. destruct (Z.eq_dec k ib) as [->|Hne].
        -- apply strncmp_eq_occurs in Hocc. congruence.
        -- apply (IH k); [lia | exact Hocc].
  - intros k Hk Hocc. apply occurs_at_within in Hocc; lia.
Qed.

(** The search by bytes stops at the leftmost occurrence. *)
Lemma fgrep_one_bytes_first (pat t : cstr) (useBytes use_UTF8 : bool) :
  useBytes = true \/ (use_UTF8 = false /\ mbcslocale H = false) ->
  1 <= strlen pat ->
  let r := fgrep_one_bytes H pat t (strlen t) useBytes use_UTF8 in
  (r = -1 /\ forall k, 0 <= k -> ~ occurs_at pat t k)
  \/ (0 <= r /\ occurs_at pat t r
      /\ forall k, 0 <= k < r -> ~ occurs_at pat t k).
Proof.
  intros Hmode Hp r. subst r. unfold fgrep_one_bytes.
  destruct (Z.eqb_spec (strlen pat) 0) as [|_]; [lia|].
  assert (Hbyte : (useBytes || negb (mbcslocale H || use_UTF8)) = true).
  { destruct Hmode as [->|[-> ->]]; [reflexivity | apply orb_true_r]. }
  assert (Hstep : forall ib, fgrep_step H useBytes use_UTF8 t ib = 1).
  { intros ib. unfold fgrep_step.
    destruct Hmode as [->|[-> ->]]; [reflexivity|].
    now rewrite !andb_false_r. }
  rewrite Hbyte, andb_true_r.
  destruct (Z.eqb_spec (strlen pat) 1) as [H1|H1].
  - destruct pat as [|c [|d pat]]; unfold strlen in H1, Hp; simpl length in *; try lia.
    change (byte_at [c] 0) with c.
    destruct (find_byte_first c t 0 ltac:(lia)) as [[E Hno] | (Hle & Hat & Hbefore)].
    + rewrite E. left. split; [reflexivity|].
      intros k Hk Hocc. apply occurs_at_byte in Hocc; [|exact Hk].
      exact (Hno (Z.to_nat k) Hocc).
    + rewrite Z.sub_0_r in Hat, Hbefore.
      right. split; [lia|]. split.
      * apply occurs_at_byte; [lia | exact Hat].
      * intros k Hk Hocc. apply occurs_at_byte in Hocc; [|lia].
        apply (Hbefore (Z.to_nat k)); [lia | exact Hocc].
  - pose proof (fgrep_scan_first pat t (fgrep_step H useBytes use_UTF8 t) Hstep Hp
                  (S (length t)) 0 0 ltac:(lia) ltac:(unfold strlen; lia)) as Hscan.
    destruct (fgrep_scan (S (length t)) _ pat t (strlen t) (strlen pat) 0 0)
      as [[ib i]|].
    + destruct Hscan as (H0 & Hi & Hocc & Hfirst).
      right. split; [lia|]. split; assumption.
    + left. split; [reflexivity|]. exact Hscan.
Qed.

(** In a search by bytes, what [fgrep_one] stores through [next] is the
    end of the match. *)
Lemma fgrep_one_next (pat t : cstr) (useBytes use_UTF8 : bool) :
  useBytes = true \/ (use_UTF8 = false /\ mbcslocale H = false) ->
  1 <= strlen pat ->
  fgrep_one H pat t useBytes use_UTF8
  = let r := fgrep_one_bytes H pat t (strlen t) useBytes use_UTF8 in
    (r, if r <? 0 then None else Some (r + strlen pat)).
Proof.
  intros Hmode Hp. unfold fgrep_one, fgrep_one_bytes. cbv zeta.
  destruct (Z.eqb_spec (strlen pat) 0) as [|_]; [lia|].
  assert (Hbyte : (useBytes || negb (mbcslocale H || use_UTF8)) = true).
  { destruct Hmode as [->|[-> ->]]; [reflexivity | apply orb_true_r]. }
  assert (Hstep : forall ib, fgrep_step H useBytes use_UTF8 t ib = 1).
  { intros ib. unfold fgrep_step.
    destruct Hmode as [->|[-> ->]]; [reflexivity|].
    now rewrite !andb_false_r. }
  rewrite Hbyte, andb_true_r.
  destruct (Z.eqb_spec (strlen pat) 1) as [H1|H1].
  - rewrite H1.
    destruct (find_byte_first (byte_at pat 0) t 0 ltac:(lia)) as [[E _]|[Hle _]].
    + rewrite E. reflexivity.
    + destruct (Z.ltb_spec (find_byte (byte_at pat 0) t 0) 0); [lia | reflexivity].
  - pose proof (fgrep_scan_first pat t (fgrep_step H useBytes use_UTF8 t) Hstep Hp
                  (S (length t)) 0 0 ltac:(lia) ltac:(unfold strlen; lia)) as Hscan.
    destruct (fgrep_scan (S (length t)) _ pat t (strlen t) (strlen pat) 0 0)
      as [[ib i]|]; [| reflexivity].
    destruct Hscan as (H0 & Hi & _ & _).
    destruct (Z.ltb_spec ib 0); [lia|]. f_equal. lia.
Qed.

(** X4.  In a search by bytes ([useBytes], or a single-byte locale without
    UTF-8) for a pattern that is not empty, [fgrep_one_bytes] gives the
    offset of the leftmost occurrence of the pattern in the subject, or -1
    when the pattern does not occur; [fgrep_one] gives the same offset. *)
Theorem fgrep_leftmost (pat t : cstr) (useBytes use_UTF8 : bool) :
  useBytes = true \/ (use_UTF8 = false /\ mbcslocale H = false) ->
  1 <= strlen pat ->
  let r := fgrep_one_bytes H pat t (strlen t) useBytes use_UTF8 in
  fst (fgrep_one H pat t useBytes use_UTF8) = r
  /\ ((r = -1 /\ forall k, 0 <= k -> ~ occurs_at pat t k)
      \/ (0 <= r /\ occurs_at pat t r
          /\ forall k, 0 <= k < r -> ~ occurs_at pat t k)).
Proof.
  intros Hmode Hp r. split.
  - rewrite (fgrep_one_next pat t useBytes use_UTF8 Hmode Hp). reflexivity.
  - exact (fgrep_one_bytes_first pat t useBytes use_UTF8 Hmode Hp).
Qed.

(** ** The occurrences met from the left *)

(** The starts (from 1) of the occurrences of [pat] met from [pos] on,
    each the first at or after the end of the one before. *)
Inductive greedy (pat text : list ascii) : Z -> list Z -> Prop :=
| greedy_end (pos : Z) :
    (forall k, pos <= k -> ~ occurs_at pat text k) -> greedy pat text pos []
| greedy_match (pos m : Z) (ms : list Z) :
    pos <= m - 1 -> occurs_at pat text (m - 1) ->
    (forall k, pos <= k < m - 1 -> ~ occurs_at pat text k) ->
    greedy pat text (m - 1 + strlen pat) ms ->
    greedy pat text pos (m :: ms).

Lemma greedy_unique (pat text : list ascii) (pos : Z) (ms ms' : list Z) :
  greedy pat text pos ms -> greedy pat text pos ms' -> ms = ms'.
Proof.
  intros Hg. revert ms'.
  induction Hg as [pos Hno | pos m ms Hpos Hocc Hno Hg IH]; intros ms' Hg'.
  - destruct Hg' as [pos _ | pos m' ms' Hpos' Hocc' _ _]; [reflexivity|].
    now destruct (Hno (m' - 1) Hpos').
  - destruct Hg' as [pos Hno' | pos m' ms' Hpos' Hocc' Hno' Hg'].
    + now destruct (Hno' (m - 1) Hpos).
    + assert (m' = m).
      { destruct (Z.lt_trichotomy m m') as [Hlt|[Heq|Hgt]]; [| now symmetry |].
        - destruct (Hno' (m - 1)); [lia | exact Hocc].
        - destruct (Hno (m' - 1)); [lia | exact Hocc']. }
      subst m'. f_equal. now apply IH.
Qed.

End FixedSearch.

(** ** Two computations side by side *)

(** The same warnings, and outcomes that are the same error or values
    that [Q] relates. *)
Definition alike {A B} (Q : A -> B -> Prop) (m1 : M A) (m2 : M B) : Prop :=
  warnings m1 = warnings m2
  /\ match outcome m1, outcome m2 with
     | Val a, Val b => Q a b
     | Err e1, Err e2 => e1 = e2
     | Fuel, Fuel => True
     | _, _ => False
     end.

Lemma alike_bind {A B C} (Q : B -> C -> Prop) (Pm : A -> Prop)
    (m : M A) (f : A -> M B) (g : A -> M C) :
  (forall ws a, m = (ws, Val a) -> Pm a) ->
  (forall a, Pm a -> alike Q (f a) (g a)) ->
  alike Q (bind m f) (bind m g).
Proof.
  intros Hm Hfg. destruct m as [ws [a| e |]]; cbn.
  - specialize (Hfg a (Hm ws a eq_refl)). unfold alike in *.
    destruct (f a) as [w1 r1], (g a) as [w2 r2]. cbn in *.
    destruct Hfg as [-> Hr]. split; [reflexivity | exact Hr].
  - split; reflexivity.
  - split; [reflexivity | exact I].
Qed.

Lemma alike_bind_any {A B C} (Q : B -> C -> Prop)
    (m : M A) (f : A -> M B) (g : A -> M C) :
  (forall a, alike Q (f a) (g a)) -> alike Q (bind m f) (bind m g).
Proof.
  intros Hfg. apply alike_bind with (Pm := fun _ => True); auto.
Qed.

Lemma alike_ret {A B} (Q : A -> B -> Prop) (a : A) (b : B) :
  Q a b -> alike Q (ret a) (ret b).
Proof. intros HQ. split; [reflexivity | exact HQ]. Qed.

(** An invariant of a loop over the elements: [Inv l s] for the state [s]
    with [l] still to come. *)
Lemma foldM_inv {A S} (Inv : list A -> S -> Prop) (f : S -> A -> M S) :
  (forall a l s ws s', Inv (a :: l) s -> f s a = (ws, Val s') -> Inv l s') ->
  forall l s ws r, Inv l s -> foldM f l s = (ws, Val r) -> Inv [] r.
Proof.
  intros Hstep. induction l as [|a l IH]; intros s ws r Hs Hf; cbn [foldM] in Hf.
  - unfold ret in Hf. inversion Hf; subst. exact Hs.
  - destruct (f s a) as [w [s'| e |]] eqn:E; cbn in Hf; try discriminate.
    destruct (foldM f l s') as [w' r'] eqn:E'.
    inversion Hf; subst. eapply IH; [eapply Hstep; eauto | exact E'].
Qed.

Lemma bind_val_inv {A B} (m : M A) (f : A -> M B) (ws : list condition) (b : B) :
  bind m f = (ws, Val b) ->
  exists w1 a w2, m = (w1, Val a) /\ f a = (w2, Val b).
Proof.
  destruct m as [w1 [a| e |]]; cbn; try discriminate.
  destruct (f a) as [w2 r] eqn:E. intros [= _ ->]. eauto.
Qed.

Lemma outcome_val {A} (m : M A) (a : A) :
  outcome m = Val a -> exists ws, m = (ws, Val a).
Proof. destruct m as [ws r]; cbn. intros ->. eauto. Qed.

Lemma map_snd_indexed {A} (l : list A) : forall k, map snd (indexed k l) = l.
Proof. induction l as [|a l IH]; intros k; cbn; [reflexivity | now rewrite IH]. Qed.

Section GrepWhich.

Variable H : Host.
Variable T : TRE.
Variable P : PCRE.

(** ** [grep] and [grepl] *)

(** The positions (from 1) of [ind] that [invert] selects. *)
Definition which (invert : bool) (ind : list Z) : list Z :=
  map fst (filter (fun p => selected invert (snd p)) (indexed 1 ind)).

Lemma select_positions (invert : bool) : forall (ind : list Z) {A} (xs : list A) (k : Z),
  length ind = length xs ->
  select invert ind (map fst (indexed k xs))
  = map fst (filter (fun p => selected invert (snd p)) (indexed k ind)).
Proof.
  induction ind as [|b ind IH]; intros A [|x xs] k Hlen; try discriminate; [reflexivity|].
  cbn [indexed map select filter snd]. injection Hlen as Hlen.
  destruct (selected invert b); cbn [map fst]; rewrite (IH _ xs (k + 1) Hlen); reflexivity.
Qed.

Lemma length_select (invert : bool) : forall (ind : list Z) {A} (xs : list A),
  length ind = length xs ->
  length (select invert ind xs) = length (filter (selected invert) ind).
Proof.
  induction ind as [|b ind IH]; intros A [|x xs] Hlen; try discriminate; [reflexivity|].
  cbn [select filter]. injection Hlen as Hlen.
  destruct (selected invert b); cbn [Datatypes.length]; rewrite (IH _ xs Hlen); reflexivity.
Qed.

Lemma filter_app_one {A} (p : A -> bool) (l : list A) (a : A) :
  Z.of_nat (length (filter p (l ++ [a])))
  = if p a then Z.of_nat (length (filter p l)) + 1
    else Z.of_nat (length (filter p l)).
Proof.
  rewrite filter_app, length_app. cbn [filter]. destruct (p a); cbn [Datatypes.length]; lia.
Qed.

(** What [do_grep] returns after its loop, from the logical vector [ind]
    and the count [nmatches] of the selected elements. *)
Definition grep_answer (grepl value_opt invert : bool) (text : SEXP)
    (ind : list Z) (nmatches : Z) : M SEXP :=
  let xs := STRING_ELTS text in
  if grepl then ret (LGLSXP ind [])
  else if value_opt then
    let nmold := getAttrib text "names" in
    ret (STRSXP (take nmatches (select invert ind xs))
           (if isNull nmold then []
            else [("names"%string,
                   STRSXP (take nmatches (select invert ind (STRING_ELTS nmold))) [])]))
  else if strlen xs >? INT_MAX then
    ret (REALSXP (take nmatches (select invert ind (map fst (indexed 1 xs)))) [])
  else
    ret (INTSXP (take nmatches (select invert ind (map fst (indexed 1 xs)))) []).

(** Two calls of [do_grep] that differ in [grepl] and [value] only run the
    same loop: they are alike as soon as their answers are, for a vector
    [ind] with an entry for each element of [text] and the count of its
    selected entries.  With [invert] this is for a search by bytes, where
    no element is skipped as invalid: the count leaves such an element
    out. *)
Lemma do_grep_answers (g1 g2 : bool) (v1 v2 : Rflag) (Q : SEXP -> SEXP -> Prop)
    (jit_stack : bool) (pat text : SEXP) (igcase perl fixed useBytes invert : Rflag) :
  is_NA (STRING_ELT0 pat) = false ->
  na_false invert = false \/ na_false useBytes = true ->
  (forall ind,
      length ind = length (STRING_ELTS text) ->
      alike Q
        (grep_answer g1 (na_false v1) (na_false invert) text ind
           (Z.of_nat (length (filter (selected (na_false invert)) ind))))
        (grep_answer g2 (na_false v2) (na_false invert) text ind
           (Z.of_nat (length (filter (selected (na_false invert)) ind))))) ->
  alike Q
    (do_grep H T P g1 jit_stack pat text igcase v1 perl fixed useBytes invert)
    (do_grep H T P g2 jit_stack pat text igcase v2 perl fixed useBytes invert).
Proof.
  intros Hpat Hmode Htail. unfold do_grep. cbv zeta.
  rewrite Hpat.
  do 5 (apply alike_bind_any; intros _).
  apply alike_bind_any; intros spat.
  apply alike_bind_any; intros comp.
  unfold grep_answer in Htail. cbv zeta in Htail.
  set (xs := STRING_ELTS text) in *.
  set (inv := na_false invert) in *.
  set (ub := na_false useBytes || onlyASCII [STRING_ELT0 pat] xs
             || IS_BYTES (STRING_ELT0 pat) || existsb IS_BYTES xs).
  assert (Hmode' : inv = false \/ ub = true).
  { destruct Hmode as [E|E]; [now left | right]. subst ub. now rewrite E. }
  clearbody ub inv.
  pose (Inv := fun (l : list (Z * CHARSXP)) (st : list Z * Z * Z) =>
                 (length (fst (fst st)) + length l = length xs)%nat
                 /\ snd (fst st)
                    = Z.of_nat (length (filter (selected inv) (fst (fst st))))).
  assert (Hix : forall (k : Z), length (indexed k xs) = length xs).
  { clear. intros k. generalize k. induction xs as [|x l IH]; intros k'; cbn; [reflexivity|].
    now rewrite IH. }
  match goal with
  | |- alike _ (bind (foldM ?body ?elts ?init) _) _ =>
      assert (Hstep : forall a l s ws s',
                 Inv (a :: l) s -> body s a = (ws, Val s') -> Inv l s');
      [| apply alike_bind with (Pm := Inv []);
         [ intros ws st Hfold;
           apply (foldM_inv Inv body Hstep elts init ws st); [| exact Hfold];
           split; [cbn; apply Hix | reflexivity]
         | ] ]
  end.
  - subst Inv. cbv beta.
    intros [i xi] l [[ind nm] nw] ws [[ind' nm'] nw'] [Hl Hn];
      cbn [fst snd Datatypes.length] in *.
    destruct (is_NA xi).
    { intros [= _ <- <- _]. cbn [fst snd]. rewrite length_app, filter_app_one.
      cbn [Datatypes.length]. split; [lia|]. subst nm. reflexivity. }
    match goal with
    | |- bind ?m _ = _ -> _ => destruct m as [w1 [[[s|] nw1]| e |]] eqn:Ein
    end; cbn [bind]; try discriminate.
    + match goal with
      | |- (let (_, _) := bind ?m _ in _) = _ -> _ => destruct m as [w2 [b| e |]]
      end; cbn; try discriminate.
      intros [= _ <- <- _]. cbn [fst snd]. rewrite length_app, filter_app_one.
      cbn [Datatypes.length]. split; [lia|]. subst nm. reflexivity.
    + cbn. intros [= _ <- <- _]. cbn [fst snd].
      destruct Hmode' as [->| ->]; [| discriminate Ein].
      rewrite length_app, filter_app_one. cbn [Datatypes.length]. split; [lia|].
      cbn. exact Hn.
  - subst Inv. cbv beta. intros [[ind nm] nw] [Hl Hn]. cbn [fst snd Datatypes.length] in *.
    rewrite Nat.add_0_r in Hl. rewrite Hn. exact (Htail ind Hl).
Qed.

(** X5.  [grep] gives the positions at which [grepl] is true, in order
    (with [invert], those at which it is not): for a pattern that is not
    missing and [value] unset, the two calls give the same warnings and
    stop on the same error, and when [grepl] returns the logical vector
    [ind], [grep] returns the positions of [ind] that are selected.  With
    [invert] this is for a search by bytes, where no element is skipped as
    invalid. *)
Theorem grep_is_which_grepl (jit_stack : bool) (pat text : SEXP)
    (igcase value perl fixed useBytes invert : Rflag) :
  is_NA (STRING_ELT0 pat) = false ->
  na_false value = false ->
  strlen (STRING_ELTS text) <= INT_MAX ->
  na_false invert = false \/ na_false useBytes = true ->
  alike (fun l r => exists ind,
           l = LGLSXP ind [] /\ length ind = length (STRING_ELTS text)
           /\ r = INTSXP (which (na_false invert) ind) [])
    (do_grep H T P true jit_stack pat text igcase value perl fixed useBytes invert)
    (do_grep H T P false jit_stack pat text igcase value perl fixed useBytes invert).
Proof.
  intros Hpat Hval Hlen Hmode.
  apply do_grep_answers; [exact Hpat | exact Hmode |].
  intros ind Hl. unfold grep_answer. cbv zeta. rewrite Hval.
  set (xs := STRING_ELTS text) in *.
  destruct (Z.gtb_spec (strlen xs) INT_MAX) as [|_]; [lia|].
  apply alike_ret. exists ind. split; [reflexivity|]. split; [exact Hl|].
  f_equal. unfold which.
  rewrite <- (select_positions (na_false invert) ind xs 1 Hl).
  rewrite <- (length_select (na_false invert) ind (map fst (indexed 1 xs))).
  - apply take_all.
  - rewrite length_map. rewrite Hl. clear. generalize 1.
    induction xs as [|x l IH]; intros k; cbn; [reflexivity|]. now rewrite <- IH.
Qed.

(** The elements of [l] at the positions [idx], counted from 1. *)
Definition at_positions {A} (d : A) (l : list A) (idx : list Z) : list A :=
  map (fun k => nth (Z.to_nat (k - 1)) l d) idx.

Lemma select_at_positions {A} (d : A) (invert : bool) :
  forall (ind : list Z) (l : list A) (k : Z) (pre : list A),
    length ind = length l -> Z.of_nat (length pre) + 1 = k ->
    select invert ind l
    = map (fun j => nth (Z.to_nat (j - 1)) (pre ++ l) d)
        (map fst (filter (fun p => selected invert (snd p)) (indexed k ind))).
Proof.
  induction ind as [|b ind IH]; intros [|x l] k pre Hlen Hk; try discriminate;
    [reflexivity|].
  injection Hlen as Hlen.
  assert (Hrest : select invert ind l
                  = map (fun j => nth (Z.to_nat (j - 1)) (pre ++ x :: l) d)
                      (map fst (filter (fun p => selected invert (snd p))
                                  (indexed (k + 1) ind)))).
  { rewrite (IH l (k + 1) (pre ++ [x]) Hlen).
    - now rewrite <- app_assoc.
    - rewrite length_app. cbn [Datatypes.length]. lia. }
  cbn [indexed select filter snd]. destruct (selected invert b); cbn [map fst].
  - rewrite <- Hrest. f_equal.
    replace (Z.to_nat (k - 1)) with (length pre) by lia.
    now rewrite nth_middle.
  - exact Hrest.
Qed.

(** X20.  [grep] with [value] gives the elements of [text] at the positions
    that [grep] without [value] gives, and their names when [text] has
    names: for a pattern that is not missing the two calls give the same
    warnings and stop on the same error, and when the one returns the
    positions [idx] the other returns the elements at [idx].  With
    [invert] this is for a search by bytes. *)
Theorem grep_value_selects (jit_stack : bool) (pat text : SEXP)
    (igcase perl fixed useBytes invert : Rflag) :
  is_NA (STRING_ELT0 pat) = false ->
  strlen (STRING_ELTS text) <= INT_MAX ->
  na_false invert = false \/ na_false useBytes = true ->
  (isNull (getAttrib text "names") = false ->
   length (STRING_ELTS (getAttrib text "names")) = length (STRING_ELTS text)) ->
  alike (fun v r => exists idx,
           r = INTSXP idx []
           /\ v = STRSXP (at_positions NA_STRING (STRING_ELTS text) idx)
                    (if isNull (getAttrib text "names") then []
                     else [("names"%string,
                            STRSXP (at_positions NA_STRING
                                      (STRING_ELTS (getAttrib text "names")) idx)
                              [])]))
    (do_grep H T P false jit_stack pat text igcase (Some true) perl fixed useBytes
       invert)
    (do_grep H T P false jit_stack pat text igcase (Some false) perl fixed useBytes
       invert).
Proof.
  intros Hpat Hlen Hmode Hnames.
  apply do_grep_answers; [exact Hpat | exact Hmode |].
  intros ind Hl. unfold grep_answer. cbv zeta. cbn [na_false].
  set (xs := STRING_ELTS text) in *.
  set (inv := na_false invert) in *.
  destruct (Z.gtb_spec (strlen xs) INT_MAX) as [|_]; [lia|].
  assert (Hsel : forall {A} (l : list A),
             length ind = length l ->
             take (Z.of_nat (length (filter (selected inv) ind))) (select inv ind l)
             = select inv ind l).
  { intros A l Hll. rewrite <- (length_select inv ind l Hll). apply take_all. }
  apply alike_ret. exists (which inv ind). split.
  - f_equal. rewrite (Hsel _ (map fst (indexed 1 xs))).
    + apply (select_positions inv ind xs 1 Hl).
    + rewrite length_map, Hl. clear. generalize 1.
      induction xs as [|x l IH]; intros k; cbn; [reflexivity|]. now rewrite <- IH.
  - unfold at_positions, which. f_equal.
    + rewrite (Hsel _ xs Hl).
      apply (select_at_positions NA_STRING inv ind xs 1 [] Hl). reflexivity.
    + destruct (isNull (getAttrib text "names")) eqn:En; [reflexivity|].
      specialize (Hnames eq_refl). do 3 f_equal.
      rewrite (Hsel _ (STRING_ELTS (getAttrib text "names"))) by congruence.
      apply (select_at_positions NA_STRING inv ind _ 1 []); [congruence | reflexivity].
Qed.

(** X21.  For a pattern that is not missing, [grepl] never gives a missing
    value: when it returns, its result has one entry for each element of
    [text], each of them 0 or 1, and the entry of a missing element is 0. *)
Theorem grepl_never_missing (jit_stack : bool) (pat text r : SEXP)
    (igcase value perl fixed useBytes invert : Rflag) :
  is_NA (STRING_ELT0 pat) = false ->
  outcome (do_grep H T P true jit_stack pat text igcase value perl fixed useBytes
             invert) = Val r ->
  exists ind,
    r = LGLSXP ind []
    /\ Forall2 (fun x b => (b = 0 \/ b = 1) /\ (is_NA x = true -> b = 0))
         (STRING_ELTS text) ind.
Proof.
  intros Hpat Hr. destruct (do_grep H T P true jit_stack pat text igcase value perl
                              fixed useBytes invert) as [ws o] eqn:E.
  cbn in Hr. subst o.
  unfold do_grep in E. cbv zeta in E. rewrite Hpat in E.
  do 5 (apply bind_val_inv in E; destruct E as (? & ? & ? & _ & E)).
  apply bind_val_inv in E. destruct E as (? & spat & ? & _ & E).
  apply bind_val_inv in E. destruct E as (? & comp & ? & _ & E).
  apply bind_val_inv in E. destruct E as (w1 & [[ind nm] nw] & w2 & Hfold & Hret).
  injection Hret as _ <-. exists ind. split; [reflexivity|].
  set (xs := STRING_ELTS text) in *.
  set (R := fun (x : CHARSXP) (b : Z) => (b = 0 \/ b = 1) /\ (is_NA x = true -> b = 0)).
  pose (Inv := fun (l : list (Z * CHARSXP)) (st : list Z * Z * Z) =>
                 exists pre, pre ++ map snd l = xs /\ Forall2 R pre (fst (fst st))).
  assert (Hext : forall pre (l : list (Z * CHARSXP)) (i : Z) xi ind0 b,
             pre ++ map snd ((i, xi) :: l) = xs -> Forall2 R pre ind0 -> R xi b ->
             exists pre', pre' ++ map snd l = xs /\ Forall2 R pre' (ind0 ++ [b])).
  { intros pre l i xi ind0 b Hpre Hall Hb. exists (pre ++ [xi]). split.
    - rewrite <- app_assoc. exact Hpre.
    - apply Forall2_app; [exact Hall|]. constructor; [exact Hb | constructor]. }
  match type of Hfold with
  | foldM ?body ?elts ?init = _ =>
      assert (Hstep : forall a l s ws s',
                 Inv (a :: l) s -> body s a = (ws, Val s') -> Inv l s')
  end.
  { intros [i xi] l [[ind0 nm0] nw0] ws' [[ind1 nm1] nw1] (pre & Hpre & Hall).
    cbn [fst snd] in *.
    destruct (is_NA xi) eqn:Exi.
    - intros [= _ <- _ _]. apply (Hext pre l i xi ind0 0 Hpre Hall).
      split; [now left | reflexivity].
    - intros Hb.
      apply bind_val_inv in Hb. destruct Hb as (? & [[s|] nw'] & ? & _ & Hb).
      + apply bind_val_inv in Hb. destruct Hb as (? & b & ? & Hb & Hb').
        injection Hb' as _ <- _ _.
        apply (Hext pre l i xi ind0 b Hpre Hall).
        split; [| intros E'; congruence].
        destruct comp as [|re mc|reg].
        * injection Hb as _ <-.
          destruct (fst (fgrep_one H (the spat) s _ _) >=? 0); [now right | now left].
        * destruct (pcre2_match P re s 0 false mc) as [rc ov].
          destruct (rc >=? 0).
          -- injection Hb as _ <-. now right.
          -- apply bind_val_inv in Hb. destruct Hb as (? & ? & ? & _ & Hb).
             injection Hb as _ <-. now left.
        * match type of Hb with
          | (let (_, _) := ?e in _) = _ => destruct e as [rc rm]
          end.
          apply bind_val_inv in Hb. destruct Hb as (? & ? & ? & _ & Hb).
          injection Hb as _ <-. destruct rc; [now right | now left ..].
      + injection Hb as _ <- _ _.
        apply (Hext pre l i xi ind0 0 Hpre Hall).
        split; [now left | reflexivity]. }
  assert (Hinit : Inv (indexed 0 xs) ([], 0, 0)).
  { exists []. split; [apply map_snd_indexed | constructor]. }
  destruct (foldM_inv Inv _ Hstep _ _ _ _ Hinit Hfold) as (pre & Hpre & Hall).
  cbn [map fst] in Hpre, Hall. rewrite app_nil_r in Hpre. now subst pre.
Qed.

End GrepWhich.

Section FirstElement.

Variable H : Host.
Variable T : TRE.
Variable P : PCRE.

(** ** A pattern or a replacement of several elements *)

Lemma outcome_bind_cong {A B} (m : M A) (f g : A -> M B) :
  (forall a, outcome (f a) = outcome (g a)) ->
  outcome (bind m f) = outcome (bind m g).
Proof.
  intros Hfg. destruct m as [w [a| e |]]; cbn; try reflexivity.
  specialize (Hfg a). destruct (f a), (g a). exact Hfg.
Qed.

Lemma outcome_warn_if_bind {B} (b : bool) (c : condition) (k : unit -> M B) :
  outcome (bind (warn_if b c) k) = outcome (k tt).
Proof. destruct b; cbn; destruct (k tt); reflexivity. Qed.

Lemma strlen_cons_lt1 {A} (x : A) (l : list A) : (strlen (x :: l) <? 1) = false.
Proof. apply Z.ltb_ge. rewrite strlen_cons. pose proof (strlen_nonneg l). lia. Qed.

Lemma warned_bind_l {A B} (c : condition) (m : M A) (f : A -> M B) :
  In c (warnings m) -> In c (warnings (bind m f)).
Proof.
  destruct m as [w [a| e |]]; cbn; auto.
  destruct (f a); cbn. intros Hin. apply in_or_app. now left.
Qed.

Lemma warned_bind_r {A B} (c : condition) (m : M A) (f : A -> M B) (a : A) :
  outcome m = Val a -> In c (warnings (f a)) -> In c (warnings (bind m f)).
Proof.
  destruct m as [w r]; cbn. intros ->. destruct (f a); cbn.
  intros Hin. apply in_or_app. now right.
Qed.

Lemma strlen_cons2_gt1 {A} (x y : A) (l : list A) : (strlen (x :: y :: l) >? 1) = true.
Proof.
  apply Z.gtb_lt. rewrite !strlen_cons. pose proof (strlen_nonneg l). lia.
Qed.

Ltac first_only :=
  cbn [isString STRING_ELT0 STRING_ELTS nth LENGTH negb orb];
  rewrite ?strlen_cons_lt1; cbn [orb];
  repeat first
    [ reflexivity
    | rewrite !outcome_warn_if_bind
    | apply outcome_bind_cong; intros ? ].

(** X6.  Of a pattern (and of a replacement) of several elements only the
    first is used: the outcome of [grep], [grepl], [sub], [gsub], [regexpr],
    [gregexpr] and [regexec] is the one for the vector of its first element
    alone; [grep] and [grepl] warn that the pattern has more than one
    element. *)
Theorem first_element_only (fuel : nat) (jit_stack : bool)
    (p r : CHARSXP) (ps rs : list CHARSXP) (pa ra : list (string * SEXP))
    (text : SEXP) (igcase value perl fixed useBytes invert : Rflag) :
  (forall grepl,
     outcome (do_grep H T P grepl jit_stack (STRSXP (p :: ps) pa) text
                igcase value perl fixed useBytes invert)
     = outcome (do_grep H T P grepl jit_stack (STRSXP [p] []) text
                  igcase value perl fixed useBytes invert))
  /\ (forall global,
        outcome (do_gsub H T P global fuel jit_stack (STRSXP (p :: ps) pa)
                   (STRSXP (r :: rs) ra) text igcase perl fixed useBytes)
        = outcome (do_gsub H T P global fuel jit_stack (STRSXP [p] [])
                     (STRSXP [r] []) text igcase perl fixed useBytes))
  /\ (forall gregexpr,
        outcome (do_regexpr H T P gregexpr fuel jit_stack (STRSXP (p :: ps) pa) text
                   igcase perl fixed useBytes)
        = outcome (do_regexpr H T P gregexpr fuel jit_stack (STRSXP [p] []) text
                     igcase perl fixed useBytes))
  /\ outcome (do_regexec H T (STRSXP (p :: ps) pa) text igcase fixed useBytes)
     = outcome (do_regexec H T (STRSXP [p] []) text igcase fixed useBytes)
  /\ (forall grepl q,
        In (arg_length_gt1 "pattern")
           (warnings (do_grep H T P grepl jit_stack (STRSXP (p :: q :: ps) pa) text
                        igcase value perl fixed useBytes invert))).
Proof.
  repeat split.
  5:{ intros grepl q. unfold do_grep. cbv zeta.
      cbn [isString LENGTH negb orb]. rewrite strlen_cons_lt1, strlen_cons2_gt1.
      eapply warned_bind_r; [apply outcome_warn_if|].
      eapply warned_bind_r; [apply outcome_warn_if|].
      eapply warned_bind_r; [reflexivity|].
      apply warned_bind_l. cbn. now left. }
  - intros grepl. unfold do_grep. cbv zeta. first_only.
  - intros global. unfold do_gsub. cbv zeta. first_only.
  - intros gregexpr. unfold do_regexpr. cbv zeta. first_only.
  - unfold do_regexec. cbv zeta. first_only.
Qed.

End FirstElement.

Section Substitution.

Variable H : Host.
Variable T : TRE.
Variable P : PCRE.

(** ** [sub] and [gsub] on one element *)

(** X7.  An element in which the pattern does not match is returned as it
    is, the same element and not a copy of its bytes, whatever the
    replacement: for the fixed, the Perl and the extended paths. *)
Theorem unmatched_is_unchanged
    (fuel : nat) (comp : compiled T P) (global useBytes use_UTF8 use_WC : bool)
    (rep0 : CHARSXP) (spat srep : cstr) (wrep : wstr) (replen : Z)
    (xi : CHARSXP) (i : Z) (s : cstr) :
  (0 < fuel)%nat ->
  matched H T P comp useBytes use_UTF8 use_WC spat xi s = false ->
  outcome (gsub_elt H T P fuel comp global useBytes use_UTF8 use_WC rep0
             spat srep wrep replen xi i s)
  = Val xi.
Proof.
  intros Hfuel Hm. destruct fuel as [|f]; [lia|].
  destruct comp as [|re mc|reg]; cbn [matched] in Hm; cbn [gsub_elt].
  - destruct (Z.geb_spec (fgrep_one_bytes H spat s (strlen s) useBytes use_UTF8) 0)
      as [|Hlt]; [discriminate|].
    destruct (Z.ltb_spec (fgrep_one_bytes H spat s (strlen s) useBytes use_UTF8) 0);
      [reflexivity | lia].
  - cbv zeta. cbn [pcre_replace gsub_init offset eflag].
    destruct (pcre2_match P re s 0 false mc) as [ncap ovector]. cbn [fst] in Hm.
    rewrite Hm. rewrite bind_ret_l.
    unfold R_pcre_exec_error.
    destruct ((ncap >=? 0) || (ncap =? PCRE2_ERROR_NOMATCH P)); reflexivity.
  - unfold exec_wide, exec_bytes in Hm.
    destruct use_WC; cbn [negb]; cbv zeta; cbn [tre_replace gsub_init offset eflag];
      rewrite advance_0.
    + destruct (tre_regwexec T reg (wtransChar H xi) 10 false) as [rc m].
      cbn [fst] in Hm. destruct rc; try discriminate; reflexivity.
    + destruct (tre_regexecb T reg s 10 false) as [rc m].
      cbn [fst] in Hm. destruct rc; try discriminate; reflexivity.
Qed.

Lemma take_slice_advance {A} (s : list A) (a b : Z) :
  0 <= a <= b -> take a s ++ slice s a b ++ advance s b = s.
Proof.
  intros Hab. rewrite slice_advance by lia.
  unfold take, advance. apply firstn_skipn.
Qed.

(** Replacing each occurrence of the pattern by the pattern rebuilds the
    subject. *)
Lemma fixed_replace_self (global useBytes use_UTF8 : bool) (spat : cstr) :
  1 <= strlen spat ->
  forall (fuel : nat) (s : cstr) (st : Z),
    0 <= st -> slice s st (st + strlen spat) = spat ->
    (length s < fuel)%nat ->
    fixed_replace H fuel global useBytes use_UTF8 spat spat s st = ret s.
Proof.
  intros Hp. induction fuel as [|f IH]; intros s st Hst Hocc Hfuel; [lia|].
  rewrite fixed_replace_S. cbv zeta.
  assert (Hin : st + strlen spat <= strlen s).
  { apply (f_equal (@strlen ascii)) in Hocc.
    pose proof (strlen_slice_le s st (st + strlen spat)).
    unfold slice, take, advance, strlen in *.
    rewrite length_firstn, length_skipn in Hocc. lia. }
  set (s' := advance s (st + strlen spat)).
  assert (Hs' : strlen s' = strlen s - (st + strlen spat))
    by (apply strlen_advance; lia).
  assert (Hwhole : take st s ++ spat ++ s' = s).
  { rewrite <- Hocc at 1. apply take_slice_advance. lia. }
  destruct (global && (fgrep_one_bytes H spat s' (strlen s') useBytes use_UTF8 >=? 0))
    eqn:E.
  - apply andb_true_iff in E. destruct E as [_ E].
    destruct (Z.geb_spec (fgrep_one_bytes H spat s' (strlen s') useBytes use_UTF8) 0)
      as [Hge|]; [|discriminate].
    destruct (fgrep_one_bytes_spec H spat s' useBytes use_UTF8 _ eq_refl Hge)
      as [_ [_ Hocc']].
    rewrite (IH s' _ Hge); [| | unfold strlen in *; lia].
    + rewrite bind_ret_l. now rewrite Hwhole.
    + exact Hocc'.
  - now rewrite Hwhole.
Qed.

(** X8.  With a fixed pattern that is not empty and a replacement that has
    the bytes of the pattern, [sub] and [gsub] rebuild the subject: the
    result holds the bytes of the subject (and is the element itself when
    the pattern does not occur). *)
Theorem self_replacement_rebuilds
    (fuel : nat) (global useBytes use_UTF8 use_WC : bool)
    (rep0 : CHARSXP) (spat : cstr) (wrep : wstr) (replen : Z)
    (xi : CHARSXP) (i : Z) (s : cstr) :
  1 <= strlen spat -> is_NA rep0 = false -> (length s < fuel)%nat ->
  gsub_elt H T P fuel (C_fixed T P) global useBytes use_UTF8 use_WC rep0
    spat spat wrep replen xi i s
  = ret (if fgrep_one_bytes H spat s (strlen s) useBytes use_UTF8 <? 0
         then xi else gsub_mark H useBytes use_UTF8 xi s).
Proof.
  intros Hp Hrep Hfuel. cbn [gsub_elt]. cbv zeta.
  destruct (Z.ltb_spec (fgrep_one_bytes H spat s (strlen s) useBytes use_UTF8) 0)
    as [|Hge]; [reflexivity|].
  rewrite Hrep.
  destruct (fgrep_one_bytes_spec H spat s useBytes use_UTF8 _ eq_refl Hge)
    as [_ [_ Hocc]].
  rewrite (fixed_replace_self global useBytes use_UTF8 spat Hp fuel s _ Hge Hocc Hfuel).
  now rewrite bind_ret_l.
Qed.

(** ** The buffer of the fixed replacement

    [if (global) { ss = s; sst = st; nr = 0;
       do { nr++; ss += sst+patlen; slen -= (int)(sst+patlen); }
       while ((sst = fgrep_one_bytes (spat, ss, slen, ...)) >= 0);
     } else nr = 1;
     cbuf = u = Calloc (ns + nr*(replen - patlen) + 1, char);]
    The number of matches [nr] that sizes the buffer. *)
Fixpoint fixed_nr (fuel : nat) (useBytes use_UTF8 : bool) (spat ss : cstr)
    (sst : Z) : Z :=
  match fuel with
  | O => 0
  | S f =>
      let ss' := advance ss (sst + strlen spat) in
      let sst' := fgrep_one_bytes H spat ss' (strlen ss') useBytes use_UTF8 in
      if sst' >=? 0 then 1 + fixed_nr f useBytes use_UTF8 spat ss' sst' else 1
  end.

Definition gsub_fixed_nr (fuel : nat) (global useBytes use_UTF8 : bool)
    (spat s : cstr) (st : Z) : Z :=
  if global then fixed_nr fuel useBytes use_UTF8 spat s st else 1.

Lemma fixed_replace_length (global useBytes use_UTF8 : bool) (spat srep : cstr) :
  1 <= strlen spat ->
  forall (fuel : nat) (s : cstr) (st : Z),
    0 <= st -> st + strlen spat <= strlen s ->
    (length s < fuel)%nat ->
    exists cbuf,
      fixed_replace H fuel global useBytes use_UTF8 spat srep s st = ret cbuf
      /\ strlen cbuf
         = strlen s
           + gsub_fixed_nr fuel global useBytes use_UTF8 spat s st
             * (strlen srep - strlen spat).
Proof.
  intros Hp. unfold gsub_fixed_nr.
  induction fuel as [|f IH]; intros s st Hst Hin Hfuel; [lia|].
  rewrite fixed_replace_S. cbv zeta. cbn [fixed_nr].
  set (s' := advance s (st + strlen spat)).
  assert (Hs' : strlen s' = strlen s - (st + strlen spat))
    by (apply strlen_advance; lia).
  assert (Htake : strlen (take st s) = st).
  { unfold take, strlen in *. rewrite length_firstn. lia. }
  destruct (Z.geb_spec (fgrep_one_bytes H spat s' (strlen s') useBytes use_UTF8) 0)
    as [Hge|Hlt].
  - destruct (fgrep_one_bytes_spec H spat s' useBytes use_UTF8 _ eq_refl Hge)
      as [Hin' _].
    destruct global; cbn [andb].
    + destruct (IH s' _ Hge Hin' ltac:(unfold strlen in *; lia)) as (rest & -> & Hlen).
      rewrite bind_ret_l. eexists. split; [reflexivity|].
      rewrite !strlen_app, Htake, Hlen. lia.
    + eexists. split; [reflexivity|].
      rewrite !strlen_app, Htake, Hs'. lia.
  - rewrite andb_false_r. eexists. split; [reflexivity|].
    rewrite !strlen_app, Htake, Hs'. destruct global; lia.
Qed.

(** X9.  The buffer of the fixed replacement is exact: for a pattern that
    is not empty and occurs in the subject, the result of [sub] and [gsub]
    is made from a buffer of [ns + nr * (replen - patlen)] bytes, [nr]
    being the count of matches that the code makes before it allocates
    [ns + nr * (replen - patlen) + 1] bytes. *)
Theorem fixed_buffer_is_exact
    (fuel : nat) (global useBytes use_UTF8 use_WC : bool)
    (rep0 : CHARSXP) (spat srep : cstr) (wrep : wstr) (replen : Z)
    (xi : CHARSXP) (i : Z) (s : cstr) :
  1 <= strlen spat -> is_NA rep0 = false -> (length s < fuel)%nat ->
  0 <= fgrep_one_bytes H spat s (strlen s) useBytes use_UTF8 ->
  exists cbuf,
    gsub_elt H T P fuel (C_fixed T P) global useBytes use_UTF8 use_WC rep0
      spat srep wrep replen xi i s
    = ret (gsub_mark H useBytes use_UTF8 xi cbuf)
    /\ strlen cbuf
       = strlen s
         + gsub_fixed_nr fuel global useBytes use_UTF8 spat s
             (fgrep_one_bytes H spat s (strlen s) useBytes use_UTF8)
           * (strlen srep - strlen spat).
Proof.
  intros Hp Hrep Hfuel Hge. cbn [gsub_elt]. cbv zeta.
  destruct (Z.ltb_spec (fgrep_one_bytes H spat s (strlen s) useBytes use_UTF8) 0);
    [lia|].
  rewrite Hrep.
  destruct (fgrep_one_bytes_spec H spat s useBytes use_UTF8 _ eq_refl Hge)
    as [Hin _].
  destruct (fixed_replace_length global useBytes use_UTF8 spat srep Hp fuel s _
              Hge Hin Hfuel) as (cbuf & -> & Hlen).
  exists cbuf. rewrite bind_ret_l. split; [reflexivity | exact Hlen].
Qed.

End Substitution.

Section FixedSplit.

Variable H : Host.

(** ** [strsplit] with a fixed separator *)

(** Each piece followed by the separator. *)
Definition join_with (sep : cstr) (pieces : list cstr) : cstr :=
  concat (map (fun t => t ++ sep) pieces).

(** The separator does not occur in [t]. *)
Definition free_of (sep t : cstr) : Prop :=
  forall k, 0 <= k -> ~ occurs_at sep t k.

(** The pieces of [text] from [q] on that stand before the occurrences at
    [ms] of a separator of [plen] bytes, and what comes after the last
    one. *)
Fixpoint between (text : cstr) (q : Z) (ms : list Z) (plen : Z)
    : list cstr * cstr :=
  match ms with
  | [] => ([], advance text q)
  | m :: ms' =>
      let '(ps, t) := between text (m - 1 + plen) ms' plen in
      (slice text q (m - 1) :: ps, t)
  end.

Lemma slice_shift {A} (s : list A) (a k j : Z) :
  0 <= a -> 0 <= k -> slice (advance s a) k j = slice s (a + k) (a + j).
Proof.
  intros Ha Hk. unfold slice. rewrite advance_advance by lia.
  f_equal. lia.
Qed.

Lemma slice_take {A} (s : list A) (n k m : Z) :
  0 <= k -> 0 <= m -> k + m <= n -> slice (take n s) k (k + m) = slice s k (k + m).
Proof.
  intros Hk Hm Hn. unfold slice, take, advance.
  replace (k + m - k) with m by lia.
  rewrite skipn_firstn_comm, firstn_firstn. f_equal. lia.
Qed.

Lemma occurs_in_slice (sep buf : cstr) (a b k : Z) :
  1 <= strlen sep -> 0 <= a <= b -> 0 <= k ->
  occurs_at sep (slice buf a b) k ->
  occurs_at sep buf (a + k) /\ a + k + strlen sep <= b.
Proof.
  intros Hs Hab Hk Hocc.
  pose proof (occurs_at_within sep (slice buf a b) k Hs Hk Hocc) as Hin.
  pose proof (strlen_slice buf a b ltac:(lia)) as Hlen.
  unfold occurs_at in *. unfold slice at 2 in Hocc.
  rewrite slice_take in Hocc by lia.
  rewrite slice_shift in Hocc by lia.
  split; [| lia].
  replace (a + k + strlen sep) with (a + (k + strlen sep)) by lia. exact Hocc.
Qed.

Lemma MAX_pred (slen : Z) : 1 <= slen -> MAX (slen - 1) 0 = slen - 1.
Proof. intros. unfold MAX. destruct (Z.gtb_spec (slen - 1) 0); lia. Qed.

Lemma byte_at_nth_error (buf : cstr) (p : Z) (c : ascii) :
  0 <= p < strlen buf ->
  (Ascii.eqb (byte_at buf p) c = true <-> nth_error buf (Z.to_nat p) = Some c).
Proof.
  intros Hp. unfold byte_at.
  assert (Hn : (Z.to_nat p < length buf)%nat) by (unfold strlen in Hp; lia).
  rewrite (nth_error_nth' buf Ascii.zero Hn). rewrite Ascii.eqb_eq.
  split; [now intros -> | now intros [= ->]].
Qed.

(** The test of the two passes: the separator stands at [p]. *)
Lemma fixed_nomatch_occurs (buf split : cstr) (p : Z) :
  1 <= strlen split -> 0 <= p < strlen buf ->
  (fixed_nomatch buf split (strlen split) p = false <-> occurs_at split buf p).
Proof.
  intros Hs Hp. unfold fixed_nomatch.
  destruct (Z.eqb_spec (strlen split) 1) as [E1|E1].
  - destruct (Z.gtb_spec (strlen split) 1) as [|_]; [lia|].
    cbn [andb orb]. rewrite orb_false_r, negb_false_iff.
    destruct split as [|c [|d split]]; unfold strlen in E1; simpl length in E1; try lia.
    change (byte_at [c] 0) with c.
    rewrite byte_at_nth_error by exact Hp. symmetry. apply occurs_at_byte. lia.
  - destruct (Z.gtb_spec (strlen split) 1) as [_|]; [|lia].
    cbn [andb orb]. rewrite negb_false_iff.
    unfold strncmp_eq, occurs_at, slice. rewrite take_all.
    replace (p + strlen split - p) with (strlen split) by lia. split.
    + apply cstr_eqb_eq.
    + intros ->. apply cstr_eqb_refl.
Qed.

(** The inner loop of the filling pass stops at an occurrence that has
    none before it. *)
Lemma fixed_next_finds (buf split : cstr) (q : Z) :
  1 <= strlen split -> q < strlen buf -> occurs_at split buf q ->
  forall (n : nat) (p : Z),
    0 <= p <= q -> (forall k, p <= k < q -> ~ occurs_at split buf k) ->
    (Z.to_nat (q - p) < n)%nat ->
    fixed_next n buf split (strlen split) (strlen buf) p = Some q.
Proof.
  intros Hs Hq Hocc. induction n as [|n IH]; intros p Hp Hnone Hn; [lia|].
  cbn [fixed_next]. destruct (Z.ltb_spec p (strlen buf)) as [_|]; [|lia].
  destruct (fixed_nomatch buf split (strlen split) p) eqn:E.
  - assert (p <> q).
    { intros ->. apply fixed_nomatch_occurs in Hocc; [congruence | lia | lia]. }
    apply IH; [lia | | lia]. intros k Hk. apply Hnone. lia.
  - apply fixed_nomatch_occurs in E; [| lia | lia].
    destruct (Z.eq_dec p q) as [->|Hne]; [reflexivity|].
    exfalso. apply (Hnone p); [lia | exact E].
Qed.

Section Passes.

Variable use_UTF8 : bool.
Variable xi : CHARSXP.
Variables buf split : cstr.
Hypothesis Hsplit : 1 <= strlen split.

Let tok := split_token H use_UTF8 xi.

(** The counting pass from [p], with the last start [ls] and no
    occurrence between the two: the filling pass from [ls] makes as many
    tokens as were counted and ends where the counting pass did. *)
Lemma two_passes_agree : forall (n : nat) (p ls ntok : Z),
  0 <= ls <= p -> p <= strlen buf ->
  (forall k, ls <= k < p -> ~ occurs_at split buf k) ->
  (Z.to_nat (strlen buf - p) < n)%nat ->
  exists (ms : list Z) (pieces : list cstr) (L : Z),
    greedy split buf ls ms
    /\ between buf ls ms (strlen split) = (pieces, advance buf L)
    /\ fixed_count n buf split (strlen split) (strlen buf) p ntok ls
       = (ntok + strlen pieces, L)
    /\ fixed_fill H (length pieces) use_UTF8 xi buf split (strlen split)
         (strlen buf) ls
       = (map tok pieces, L)
    /\ ls <= L <= strlen buf
    /\ join_with split pieces ++ advance buf L = advance buf ls
    /\ Forall (free_of split) pieces
    /\ free_of split (advance buf L).
Proof.
  induction n as [|n IH]; intros p ls ntok Hls Hp Hnone Hn; [lia|].
  cbn [fixed_count]. destruct (Z.ltb_spec p (strlen buf)) as [Hlt|Hge].
  - destruct (fixed_nomatch buf split (strlen split) p) eqn:E.
    + apply (IH (p + 1) ls ntok); try lia.
      intros k Hk. destruct (Z.eq_dec k p) as [->|Hne].
      * intros Hocc. apply fixed_nomatch_occurs in Hocc; [congruence | lia | lia].
      * apply Hnone. lia.
    + apply fixed_nomatch_occurs in E; [| lia | lia].
      pose proof (occurs_at_within split buf p Hsplit ltac:(lia) E) as Hin.
      rewrite MAX_pred by lia.
      replace (p + (strlen split - 1) + 1) with (p + strlen split) by lia.
      destruct (IH (p + strlen split) (p + strlen split) (ntok + 1))
        as (ms & pieces & L & Hg & Hbtw & Hc & Hf & HL & Hj & Hfree & Htail); try lia.
      exists (p + 1 :: ms), (slice buf ls p :: pieces), L.
      split; [| split; [| split; [| split; [| split; [| split; [| split]]]]]].
      * apply greedy_match; replace (p + 1 - 1) with p by lia;
          [lia | exact E | exact Hnone | exact Hg].
      * cbn [between]. replace (p + 1 - 1) with p by lia. now rewrite Hbtw.
      * rewrite Hc. f_equal. rewrite strlen_cons. lia.
      * cbn [length fixed_fill].
        rewrite (fixed_next_finds buf split p Hsplit Hlt E (S (length buf)) ls
                   ltac:(lia) Hnone ltac:(unfold strlen in *; lia)).
        destruct (Z.eqb_spec (strlen split) 0) as [|_]; [lia|].
        rewrite MAX_pred by lia.
        replace (p + (strlen split - 1) + 1) with (p + strlen split) by lia.
        rewrite Hf. reflexivity.
      * lia.
      * unfold join_with in *. cbn [map concat]. rewrite <- !app_assoc, Hj.
        rewrite <- E at 1. unfold occurs_at.
        rewrite slice_advance by lia. apply slice_advance. lia.
      * constructor; [| exact Hfree].
        intros k Hk Hocc.
        destruct (occurs_in_slice split buf ls p k Hsplit ltac:(lia) Hk Hocc)
          as [Hocc' Hb].
        apply (Hnone (ls + k)); [lia | exact Hocc'].
      * exact Htail.
  - assert (Hfree : forall k, ls <= k -> ~ occurs_at split buf k).
    { intros k Hk Hocc.
      pose proof (occurs_at_within split buf k Hsplit ltac:(lia) Hocc).
      apply (Hnone k); [lia | exact Hocc]. }
    exists [], [], ls. cbn [length fixed_fill map]. change (strlen (@nil cstr)) with 0.
    rewrite Z.add_0_r.
    split; [now constructor|]. split; [reflexivity|].
    split; [reflexivity|]. split; [reflexivity|]. split; [lia|].
    split; [reflexivity|]. split; [constructor|].
    intros k Hk Hocc. unfold occurs_at in Hocc.
    rewrite slice_shift in Hocc by lia.
    replace (ls + (k + strlen split)) with (ls + k + strlen split) in Hocc by lia.
    fold (occurs_at split buf (ls + k)) in Hocc.
    pose proof (occurs_at_within split buf (ls + k) Hsplit ltac:(lia) Hocc).
    apply (Hnone (ls + k)); [lia | exact Hocc].
Qed.

End Passes.

(** The result of the fixed split, from the occurrences [ms] of the
    separator met from the left. *)
Lemma split_fixed_pieces (use_UTF8 : bool) (xi : CHARSXP) (buf split : cstr) :
  1 <= strlen split ->
  exists (ms : list Z) (pieces : list cstr) (tail : cstr),
    greedy split buf 0 ms
    /\ between buf 0 ms (strlen split) = (pieces, tail)
    /\ split_fixed H use_UTF8 xi buf split
       = STRSXP (map (split_token H use_UTF8 xi)
                   (pieces ++ match tail with [] => [] | _ => [tail] end)) []
    /\ buf = join_with split pieces ++ tail
    /\ Forall (free_of split) pieces
    /\ free_of split tail.
Proof.
  intros Hsplit. unfold split_fixed. cbv zeta.
  destruct (two_passes_agree use_UTF8 xi buf split Hsplit (S (length buf)) 0 0 0)
    as (ms & pieces & L & Hg & Hbtw & Hc & Hf & HL & Hj & Hfree & Htail).
  { lia. } { apply strlen_nonneg. } { intros k Hk; lia. } { unfold strlen; lia. }
  rewrite Hc. cbn [Z.add].
  replace (Z.to_nat (strlen pieces)) with (length pieces) by (unfold strlen; lia).
  rewrite Hf. exists ms, pieces, (advance buf L).
  split; [exact Hg|]. split; [exact Hbtw|].
  split; [| split; [| split]]; try assumption.
  - unfold split_result. destruct (at_end buf L) eqn:E.
    + apply at_end_true in E; [| lia].
      assert (Hnil : advance buf L = []).
      { unfold advance. apply skipn_all2. unfold strlen in *. lia. }
      rewrite Hnil, app_nil_r. reflexivity.
    + apply at_end_false in E.
      destruct (advance buf L) as [|c tl] eqn:Eadv.
      * apply (f_equal (@strlen ascii)) in Eadv.
        rewrite strlen_advance in Eadv by lia.
        change (strlen (@nil ascii)) with 0 in Eadv. lia.
      * rewrite map_app. reflexivity.
  - now rewrite Hj.
Qed.

(** X10.  The fixed split takes the subject apart at the occurrences of
    the separator, from the left: for a separator that is not empty, the
    result holds the tokens of [pieces] and then the tail when it is not
    empty, where the subject is the pieces, each followed by the separator,
    and then the tail, and the separator occurs neither in a piece nor in
    the tail. *)
Theorem split_fixed_round_trip (use_UTF8 : bool) (xi : CHARSXP) (buf split : cstr) :
  1 <= strlen split ->
  exists (pieces : list cstr) (tail : cstr),
    split_fixed H use_UTF8 xi buf split
    = STRSXP (map (split_token H use_UTF8 xi)
                (pieces ++ match tail with [] => [] | _ => [tail] end)) []
    /\ buf = join_with split pieces ++ tail
    /\ Forall (free_of split) pieces
    /\ free_of split tail.
Proof.
  intros Hsplit.
  destruct (split_fixed_pieces use_UTF8 xi buf split Hsplit)
    as (ms & pieces & tail & _ & _ & Hs & Hj & Hfree & Htail).
  exists pieces, tail. auto.
Qed.

End FixedSplit.

Section RawSearch.

(** ** [fgrepraw1]: the fixed search in raw vectors *)

Lemma raw_scan_first (test : Z -> bool) (n : Z) : forall (fuel : nat) (offset : Z),
  0 <= offset -> (Z.to_nat (n - offset) < fuel)%nat ->
  (raw_scan fuel test offset n = -1
   /\ forall k, offset <= k < n -> test k = false)
  \/ (offset <= raw_scan fuel test offset n < n
      /\ test (raw_scan fuel test offset n) = true
      /\ forall k, offset <= k < raw_scan fuel test offset n -> test k = false).
Proof.
  induction fuel as [|f IH]; intros offset Ho Hf; [lia|].
  cbn [raw_scan]. destruct (Z.ltb_spec offset n) as [Hlt|Hge].
  - destruct (test offset) eqn:E.
    + right. split; [lia|]. split; [exact E|]. intros k Hk; lia.
    + destruct (IH (offset + 1) ltac:(lia) ltac:(lia)) as [[E1 Hno]|(Hr & Ht & Hno)].
      * left. split; [exact E1|]. intros k Hk.
        destruct (Z.eq_dec k offset) as [->|]; [exact E | apply Hno; lia].
      * right. split; [lia|]. split; [exact Ht|]. intros k Hk.
        destruct (Z.eq_dec k offset) as [->|]; [exact E | apply Hno; lia].
  - left. split; [reflexivity|]. intros k Hk; lia.
Qed.

Lemma skipn_nth {A} (d : A) : forall (n : nat) (l : list A),
  (n < length l)%nat -> skipn n l = nth n l d :: skipn (S n) l.
Proof.
  induction n as [|n IH]; intros [|x l] Hn; cbn in *; try lia; [reflexivity|].
  apply IH. lia.
Qed.

(** An occurrence byte by byte. *)
Lemma occurs_at_cons (c : ascii) (rest hay : cstr) (i : Z) :
  0 <= i < strlen hay ->
  (occurs_at (c :: rest) hay i
   <-> Ascii.eqb (byte_at hay i) c = true /\ occurs_at rest hay (i + 1)).
Proof.
  intros Hi. unfold occurs_at, slice, take, advance, byte_at.
  rewrite strlen_cons.
  replace (i + (1 + strlen rest) - i) with (1 + strlen rest) by lia.
  replace (i + 1 + strlen rest - (i + 1)) with (strlen rest) by lia.
  replace (Z.to_nat (1 + strlen rest)) with (S (Z.to_nat (strlen rest)))
    by (pose proof (strlen_nonneg rest); lia).
  rewrite (skipn_nth Ascii.zero (Z.to_nat i) hay) by (unfold strlen in Hi; lia).
  replace (Z.to_nat (i + 1)) with (S (Z.to_nat i)) by lia.
  cbn [firstn]. rewrite Ascii.eqb_eq. split.
  - intros E. injection E as E1 E2. split; assumption.
  - intros [E1 E2]. f_equal; assumption.
Qed.

Lemma occurs_at_nil (hay : cstr) (i : Z) : occurs_at [] hay i.
Proof. unfold occurs_at. change (strlen (@nil ascii)) with 0. rewrite Z.add_0_r. apply slice_same. Qed.

Lemma to_size_t_id (x : Z) : 0 <= x <= INT_MAX -> to_size_t x = x.
Proof. intros Hx. unfold to_size_t, INT_MAX in *. apply Z.mod_small. lia. Qed.

(** [fgrepraw1] gives the first offset, at or after the one it is given,
    at which the needle stands in the haystack, and -1 when there is none:
    the searches for needles of one, two and three bytes and the general
    one agree on this. *)
Lemma fgrepraw1_first (needle haystack : list ascii) (offset : Z) :
  1 <= strlen needle -> strlen haystack <= INT_MAX -> 0 <= offset ->
  let r := fgrepraw1 needle haystack offset in
  (r = -1 /\ forall k, offset <= k -> ~ occurs_at needle haystack k)
  \/ (offset <= r /\ occurs_at needle haystack r
      /\ forall k, offset <= k < r -> ~ occurs_at needle haystack k).
Proof.
  intros Hn Hmax Ho r. subst r. unfold fgrepraw1. cbv zeta.
  pose proof (strlen_nonneg haystack) as Hh.
  destruct (Z.ltb_spec (strlen haystack) (strlen needle)) as [Hshort|Hlong].
  { left. split; [reflexivity|]. intros k Hk Hocc.
    pose proof (occurs_at_within needle haystack k Hn ltac:(lia) Hocc). lia. }
  (* what each of the four scans tests, and up to where *)
  assert (Hscan : forall (test : Z -> bool) (bound : Z),
             bound = strlen haystack - strlen needle + 1 ->
             (forall k, offset <= k < bound ->
                        (test k = true <-> occurs_at needle haystack k)) ->
             let r := raw_scan (S (length haystack)) test offset bound in
             (r = -1 /\ forall k, offset <= k -> ~ occurs_at needle haystack k)
             \/ (offset <= r /\ occurs_at needle haystack r
                 /\ forall k, offset <= k < r -> ~ occurs_at needle haystack k)).
  { intros test bound -> Htest r.
    destruct (raw_scan_first test (strlen haystack - strlen needle + 1)
                (S (length haystack)) offset Ho ltac:(unfold strlen in *; lia))
      as [[E Hno]|(Hr & Ht & Hno)]; fold r in E || fold r in Hr, Ht, Hno.
    - left. split; [exact E|]. intros k Hk Hocc.
      pose proof (occurs_at_within needle haystack k Hn ltac:(lia) Hocc).
      specialize (Hno k ltac:(lia)). apply Htest in Hocc; [congruence | lia].
    - right. split; [lia|]. split; [apply Htest; [lia | exact Ht]|].
      intros k Hk Hocc. specialize (Hno k Hk).
      apply Htest in Hocc; [congruence | lia]. }
  destruct needle as [|a [|b [|c [|d needle]]]].
  - unfold strlen in Hn; simpl in Hn; lia.
  - change (strlen [a]) with 1 in *. cbn [Z.eqb Pos.eqb].
    apply Hscan; [lia|]. intros k Hk. change (byte_at [a] 0) with a.
    rewrite Z.add_0_r, occurs_at_cons by lia.
    split; [intros E; split; [exact E | apply occurs_at_nil] | tauto].
  - change (strlen [a; b]) with 2 in *. cbn [Z.eqb Pos.eqb].
    rewrite to_size_t_id by lia.
    apply Hscan; [lia|]. intros k Hk.
    change (byte_at [a; b] 0) with a. change (byte_at [a; b] 1) with b.
    rewrite Z.add_0_r, andb_true_iff, !occurs_at_cons by lia.
    split; [intros [E1 E2]; repeat split; [exact E1 | exact E2 | apply occurs_at_nil]
           | tauto].
  - change (strlen [a; b; c]) with 3 in *. cbn [Z.eqb Pos.eqb].
    rewrite to_size_t_id by lia.
    apply Hscan; [lia|]. intros k Hk.
    change (byte_at [a; b; c] 0) with a. change (byte_at [a; b; c] 1) with b.
    change (byte_at [a; b; c] 2) with c.
    rewrite Z.add_0_r, !andb_true_iff, !occurs_at_cons by lia.
    replace (k + 1 + 1) with (k + 2) by lia.
    split; [intros [[E1 E2] E3]; repeat split;
            [exact E1 | exact E2 | exact E3 | apply occurs_at_nil]
           | tauto].
  - set (rest := b :: c :: d :: needle) in *.
    assert (Hrest : strlen (a :: rest) = 1 + strlen rest) by apply strlen_cons.
    assert (Hr3 : 3 <= strlen rest).
    { subst rest. rewrite !strlen_cons. pose proof (strlen_nonneg needle). lia. }
    destruct (Z.eqb_spec (strlen (a :: rest)) 1); [lia|].
    destruct (Z.eqb_spec (strlen (a :: rest)) 2); [lia|].
    destruct (Z.eqb_spec (strlen (a :: rest)) 3); [lia|].
    rewrite Hrest. replace (1 + strlen rest - 1) with (strlen rest) by lia.
    rewrite (to_size_t_id (strlen rest)) by lia.
    rewrite to_size_t_id by lia.
    apply Hscan; [lia|]. intros k Hk.
    change (byte_at (a :: rest) 0) with a. change (advance (a :: rest) 1) with rest.
    rewrite Z.add_0_r, andb_true_iff, occurs_at_cons by lia.
    rewrite take_all.
    assert (Heq : cstr_eqb (take (strlen rest) (advance haystack (k + 1))) rest = true
                  <-> occurs_at rest haystack (k + 1)).
    { unfold occurs_at, slice.
      replace (k + 1 + strlen rest - (k + 1)) with (strlen rest) by lia. split.
      - apply cstr_eqb_eq.
      - intros ->. apply cstr_eqb_refl. }
    rewrite Heq. tauto.
Qed.

End RawSearch.

Section RawAll.

Variable T : TRE.

(** ** [grepRaw] with [fixed] and [all] *)

(** The pieces with the separator between them. *)
Fixpoint intercalate (sep : list ascii) (pieces : list (list ascii)) : list ascii :=
  match pieces with
  | [] => []
  | p :: ps =>
      match ps with
      | [] => p
      | _ => p ++ sep ++ intercalate sep ps
      end
  end.

Lemma fgrepraw_all_greedy (pat text : list ascii) :
  1 <= strlen pat -> strlen text <= INT_MAX ->
  forall (fuel : nat) (offset : Z),
    0 <= offset -> (Z.to_nat (strlen text - offset) < fuel)%nat ->
    greedy pat text offset (fgrepraw_all fuel pat text offset).
Proof.
  intros Hp Hmax. induction fuel as [|f IH]; intros offset Ho Hf; [lia|].
  cbn [fgrepraw_all]. destruct (Z.ltb_spec offset (strlen text)) as [Hlt|Hge].
  - destruct (fgrepraw1_first pat text offset Hp Hmax Ho)
      as [[E Hno]|(Hr & Hocc & Hno)].
    + rewrite E. cbn [Z.eqb]. now constructor.
    + destruct (Z.eqb_spec (fgrepraw1 pat text offset) (-1)) as [|_]; [lia|].
      apply greedy_match.
      * lia.
      * now replace (fgrepraw1 pat text offset + 1 - 1) with (fgrepraw1 pat text offset) by lia.
      * intros k Hk. apply Hno. lia.
      * replace (fgrepraw1 pat text offset + 1 - 1) with (fgrepraw1 pat text offset) by lia.
        apply IH; lia.
  - constructor. intros k Hk Hocc.
    pose proof (occurs_at_within pat text k Hp ltac:(lia) Hocc). lia.
Qed.

Lemma raw_pieces_join (pat text : list ascii) :
  1 <= strlen pat ->
  forall (pos : Z) (ms : list Z),
    greedy pat text pos ms ->
    forall q, 0 <= q <= pos ->
      exists pieces,
        raw_pieces text ms (map (fun _ => strlen pat) ms) q = map RAWSXP pieces
        /\ length pieces = S (length ms)
        /\ intercalate pat pieces = advance text q.
Proof.
  intros Hp pos ms Hg. induction Hg as [pos Hno | pos m ms Hpos Hocc Hno Hg IH];
    intros q Hq.
  - exists [advance text q]. split; [reflexivity|]. split; reflexivity.
  - destruct (IH (m - 1 + strlen pat) ltac:(lia)) as (pieces & Hpieces & Hlen & Hj).
    exists (slice text q (m - 1) :: pieces). cbn [raw_pieces map].
    split; [now rewrite Hpieces|]. split; [cbn; now rewrite Hlen|].
    cbn [intercalate]. destruct pieces as [|p ps]; [discriminate|].
    rewrite Hj. rewrite <- Hocc at 1. unfold occurs_at.
    rewrite slice_advance by lia. apply slice_advance. lia.
Qed.

(** X11.  [grepRaw] with [fixed] and without [all], for a pattern that is
    not empty and an offset within the text, finds the first occurrence of
    the pattern at or after the offset: it gives the position of that
    occurrence counted from 1 (with [value], the pattern itself), and an
    empty integer vector (with [value], an empty raw vector) when the
    pattern does not occur from the offset on. *)
Theorem grepraw_fixed_first (fuel : nat) (pat text : list ascii) (offset : Z)
    (igcase : Rflag) :
  1 <= strlen pat -> strlen text <= INT_MAX -> 1 <= offset <= strlen text ->
  let r := fgrepraw1 pat text (offset - 1) in
  ((r = -1 /\ forall k, offset - 1 <= k -> ~ occurs_at pat text k)
   \/ (offset - 1 <= r /\ occurs_at pat text r
       /\ forall k, offset - 1 <= k < r -> ~ occurs_at pat text k))
  /\ outcome (do_grepraw T fuel (RAWSXP pat) (RAWSXP text) offset igcase
                (Some true) (Some false) (Some false) (Some false))
     = Val (if r =? -1 then INTSXP [] [] else ScalarInteger (r + 1))
  /\ outcome (do_grepraw T fuel (RAWSXP pat) (RAWSXP text) offset igcase
                (Some true) (Some true) (Some false) (Some false))
     = Val (if r =? -1 then RAWSXP [] else RAWSXP pat).
Proof.
  intros Hp Hmax Ho r.
  assert (Hoff : to_size_t offset = offset) by (apply to_size_t_id; lia).
  assert (Hlen : to_size_t (strlen text) = strlen text)
    by (apply to_size_t_id; pose proof (strlen_nonneg text); lia).
  assert (H1 : (offset <? 1) = false) by (apply Z.ltb_ge; lia).
  assert (H2 : (offset >? strlen text) = false)
    by (destruct (Z.gtb_spec offset (strlen text)); [lia | reflexivity]).
  assert (H3 : (strlen pat =? 0) = false) by (apply Z.eqb_neq; lia).
  split; [| split].
  - exact (fgrepraw1_first pat text (offset - 1) Hp Hmax ltac:(lia)).
  - unfold do_grepraw. cbv zeta.
    cbn [na_false isRaw negb LENGTH RAW andb orb error_if].
    rewrite Hoff, Hlen, H1, H2, H3. fold r.
    destruct (na_false igcase), (r =? -1); reflexivity.
  - unfold do_grepraw. cbv zeta.
    cbn [na_false isRaw negb LENGTH RAW andb orb error_if].
    rewrite Hoff, Hlen, H1, H2, H3. fold r.
    destruct (na_false igcase), (r =? -1); reflexivity.
Qed.

(** X12.  [grepRaw] with [fixed] and [all], for a pattern that is not empty
    and an offset within the text: without [value] it gives the starts of
    the occurrences of the pattern met from the offset on, each the first
    one at or after the end of the one before; with [value] and [invert]
    and at least one match it gives the pieces of the whole text between
    the matches, one more than there are matches, which give back the text
    when the pattern is put between them. *)
Theorem grepraw_fixed_all (fuel : nat) (pat text : list ascii) (offset : Z)
    (igcase invert : Rflag) :
  1 <= strlen pat -> strlen text <= INT_MAX -> 1 <= offset <= strlen text ->
  exists ms,
    outcome (do_grepraw T fuel (RAWSXP pat) (RAWSXP text) offset igcase
               (Some true) (Some false) (Some true) invert)
    = Val (INTSXP ms [])
    /\ greedy pat text (offset - 1) ms
    /\ (ms <> [] ->
        exists pieces,
          outcome (do_grepraw T fuel (RAWSXP pat) (RAWSXP text) offset igcase
                     (Some true) (Some true) (Some true) (Some true))
          = Val (VECSXP (map RAWSXP pieces) [])
          /\ length pieces = S (length ms)
          /\ intercalate pat pieces = text).
Proof.
  intros Hp Hmax Ho.
  exists (fgrepraw_all (S (length text)) pat text (offset - 1)).
  assert (Hoff : to_size_t offset = offset) by (apply to_size_t_id; lia).
  assert (Hlen : to_size_t (strlen text) = strlen text)
    by (apply to_size_t_id; pose proof (strlen_nonneg text); lia).
  assert (H1 : (offset <? 1) = false) by (apply Z.ltb_ge; lia).
  assert (H2 : (offset >? strlen text) = false)
    by (destruct (Z.gtb_spec offset (strlen text)); [lia | reflexivity]).
  assert (H3 : (strlen pat =? 0) = false) by (apply Z.eqb_neq; lia).
  pose proof (fgrepraw_all_greedy pat text Hp Hmax (S (length text)) (offset - 1)
                ltac:(lia) ltac:(unfold strlen in *; lia)) as Hg.
  split; [| split].
  - unfold do_grepraw. cbv zeta.
    cbn [na_false isRaw negb LENGTH RAW andb orb error_if].
    rewrite Hoff, Hlen, H1, H2, H3.
    destruct (na_false igcase), (na_false invert); reflexivity.
  - exact Hg.
  - intros Hne.
    destruct (raw_pieces_join pat text Hp (offset - 1) _ Hg 0 ltac:(lia))
      as (pieces & Hpieces & Hl & Hj).
    exists pieces. split; [| split; [exact Hl | exact Hj]].
    unfold do_grepraw. cbv zeta.
    cbn [na_false isRaw negb LENGTH RAW andb orb error_if].
    rewrite Hoff, Hlen, H1, H2, H3.
    destruct (Z.eqb_spec
                (strlen (fgrepraw_all (S (length text)) pat text (offset - 1))) 0)
      as [E0|_].
    { destruct (fgrepraw_all (S (length text)) pat text (offset - 1));
        [contradiction | unfold strlen in E0; simpl in E0; lia]. }
    rewrite Hpieces. destruct (na_false igcase); reflexivity.
Qed.

End RawAll.

Section RawOffset.

Variable T : TRE.

(** X13.  The offset of [grepRaw] is stored in an unsigned [R_size_t]
    before it is tested: the offset 0 is the error "invalid 'offset'
    argument", whatever the other arguments are, while a negative offset
    (the missing integer included) is no error: as an unsigned number it is
    beyond the text, and the result is an integer vector of length zero. *)
Theorem grepraw_offset_edges (fuel : nat) (pat text : SEXP) (p t : list ascii)
    (igcase fixed value all invert : Rflag) :
  outcome (do_grepraw T fuel pat text 0 igcase fixed value all invert)
  = Err (invalid_arg "offset")
  /\ (forall offset, NA_INTEGER <= offset < 0 -> strlen t <= INT_MAX ->
        outcome (do_grepraw T fuel (RAWSXP p) (RAWSXP t) offset
                   igcase fixed value all invert)
        = Val (INTSXP [] [])).
Proof.
  split.
  - unfold do_grepraw. cbv zeta.
    change (to_size_t 0 <? 1) with true. cbn [error_if].
    destruct (na_false fixed && na_false igcase),
             (na_false invert && negb (na_false value)); reflexivity.
  - intros offset Ho Ht. unfold do_grepraw. cbv zeta.
    assert (Hwrap : to_size_t offset = 2 ^ 64 + offset).
    { unfold to_size_t, NA_INTEGER in *.
      rewrite <- (Z.mod_add offset 1 (2 ^ 64)) by lia.
      rewrite Z.mul_1_l, Z.add_comm. apply Z.mod_small. lia. }
    assert (Hlen : to_size_t (strlen t) = strlen t)
      by (apply to_size_t_id; pose proof (strlen_nonneg t); lia).
    cbn [isRaw negb LENGTH error_if]. rewrite Hwrap, Hlen.
    assert (H1 : (2 ^ 64 + offset <? 1) = false)
      by (apply Z.ltb_ge; unfold NA_INTEGER in Ho; lia).
    assert (H2 : (2 ^ 64 + offset >? strlen t) = true).
    { apply Z.gtb_lt. unfold NA_INTEGER, INT_MAX in *. lia. }
    rewrite H1, H2.
    destruct (na_false fixed && na_false igcase),
             (na_false invert && negb (na_false value)); reflexivity.
Qed.

End RawOffset.

(** ** [R_pcre_max_recursions]

    The limit of the recursion of PCRE, from what is left of the C stack.
    [R_CStackLimit], [R_CStackStart] and [R_CStackDir] are variables of R
    (an [uintptr_t] each, and an [int]); [use_recursion] is what
    [pcre2_config (PCRE2_CONFIG_STACKRECURSE, ...)] stores, and
    [current_frame] the address of a local variable. *)

Definition UINTPTR_MAX : Z := 2 ^ 64 - 1.
Definition LONG_MAX : Z := 2 ^ 63 - 1.

(** Approximate number of bytes used in the stack, or fallback *)
Definition stack_used (R_CStackDir R_CStackStart current_frame : Z) : Z :=
  let fallback_used := 10000 in
  if R_CStackDir =? 1 then
    if R_CStackStart >=? current_frame
    then R_CStackStart - current_frame else fallback_used
  else
    if current_frame >=? R_CStackStart
    then current_frame - R_CStackStart else fallback_used.

Definition R_pcre_max_recursions (use_recursion : Z)
    (R_CStackLimit R_CStackDir R_CStackStart current_frame : Z) : Z :=
  let recursion_size := 600 in
  let fallback_limit := 10000 in
  if use_recursion =? 0 then -1
  else if R_CStackLimit =? UINTPTR_MAX then fallback_limit
  else
    let used := stack_used R_CStackDir R_CStackStart current_frame in
    if used >=? R_CStackLimit then 0
    else
      let ans := (R_CStackLimit - used) / recursion_size in
      if ans <=? LONG_MAX then ans else -1.

(** X14.  When PCRE recurses on the stack and the limit of the C stack is
    known, [R_pcre_max_recursions] gives a number of recursions that fits
    in what is left of the stack at 600 bytes each, and as many as fit; it
    is 0 when nothing is left, and never the -1 that stands for no limit. *)
Theorem max_recursions_fit
    (use_recursion R_CStackLimit R_CStackDir R_CStackStart current_frame : Z) :
  use_recursion <> 0 ->
  0 <= R_CStackLimit < UINTPTR_MAX ->
  0 <= R_CStackStart <= UINTPTR_MAX -> 0 <= current_frame <= UINTPTR_MAX ->
  let r := R_pcre_max_recursions use_recursion R_CStackLimit R_CStackDir
             R_CStackStart current_frame in
  let left := R_CStackLimit - stack_used R_CStackDir R_CStackStart current_frame in
  0 <= r <= LONG_MAX
  /\ (left <= 0 -> r = 0)
  /\ (0 < left -> 600 * r <= left < 600 * (r + 1)).
Proof.
  intros Hu Hl Hs Hf r left. subst r left. unfold R_pcre_max_recursions. cbv zeta.
  destruct (Z.eqb_spec use_recursion 0) as [|_]; [contradiction|].
  destruct (Z.eqb_spec R_CStackLimit UINTPTR_MAX) as [|_]; [lia|].
  set (used := stack_used R_CStackDir R_CStackStart current_frame).
  assert (Hused : 0 <= used).
  { subst used. unfold stack_used. cbv zeta.
    destruct (R_CStackDir =? 1).
    - destruct (Z.geb_spec R_CStackStart current_frame); lia.
    - destruct (Z.geb_spec current_frame R_CStackStart); lia. }
  destruct (Z.geb_spec used R_CStackLimit) as [Hge|Hlt].
  - unfold LONG_MAX. split; [lia|]. split; [reflexivity | lia].
  - pose proof (Z.div_mod (R_CStackLimit - used) 600 ltac:(lia)) as Hdm.
    pose proof (Z.mod_pos_bound (R_CStackLimit - used) 600 ltac:(lia)) as Hmod.
    assert (Hq : 0 <= (R_CStackLimit - used) / 600 <= LONG_MAX).
    { split; [apply Z.div_pos; lia|].
      unfold LONG_MAX, UINTPTR_MAX in *.
      apply Z.lt_succ_r. apply Z.div_lt_upper_bound; lia. }
    destruct (Z.leb_spec ((R_CStackLimit - used) / 600) LONG_MAX) as [_|]; [|lia].
    split; [exact Hq|]. split; [lia|]. intros _. lia.
Qed.

Section FixedAll.

Variable H : Host.

(** ** [gregexpr] with a fixed pattern *)

Lemma occurs_at_shift (pat s : cstr) (b k : Z) :
  0 <= b -> 0 <= k -> (occurs_at pat (advance s b) k <-> occurs_at pat s (b + k)).
Proof.
  intros Hb Hk. unfold occurs_at. rewrite slice_shift by lia.
  now replace (b + (k + strlen pat)) with (b + k + strlen pat) by lia.
Qed.

(** The loop, entered after a match at [st] in the subject from [b] on. *)
Lemma fixed_matches_greedy (pat s : cstr) (use_UTF8 useBytes : bool) :
  useBytes = true \/ (use_UTF8 = false /\ mbcslocale H = false) ->
  1 <= strlen pat ->
  forall (n : nat) (b st : Z),
    0 <= b -> 0 <= st -> b + st + strlen pat <= strlen s ->
    (Z.to_nat (strlen s - (b + st + strlen pat)) < n)%nat ->
    let ms := fixed_matches H n pat (advance s b) useBytes use_UTF8
                (strlen pat) (strlen s) b st (st + strlen pat) in
    greedy pat s (b + st + strlen pat) (map fst ms)
    /\ map snd ms = map (fun _ => strlen pat) (map fst ms).
Proof.
  intros Hmode Hp. induction n as [|n IH]; intros b st Hb Hst Hin Hn; [lia|].
  cbn [fixed_matches]. cbv zeta.
  destruct (Z.eqb_spec (strlen pat) 0) as [|_]; [lia|].
  rewrite advance_advance by lia.
  set (b' := b + st + strlen pat).
  replace (b + (st + strlen pat)) with b' by (subst b'; lia).
  destruct (Z.geb_spec b' (strlen s)) as [Hend|Hlt].
  - cbn [map]. split; [| reflexivity]. constructor. intros k Hk Hocc.
    pose proof (occurs_at_within pat s k Hp ltac:(lia) Hocc). lia.
  - rewrite (fgrep_one_next H pat (advance s b') useBytes use_UTF8 Hmode Hp). cbv zeta.
    destruct (fgrep_one_bytes_first H pat (advance s b') useBytes use_UTF8 Hmode Hp)
      as [[E Hno]|(Hr & Hocc & Hno)].
    + rewrite E. cbn. split; [| reflexivity]. constructor. intros k Hk Hocc.
      apply (Hno (k - b')); [lia|]. apply occurs_at_shift; [lia | lia |].
      now replace (b' + (k - b')) with k by lia.
    + set (r := fgrep_one_bytes H pat (advance s b') (strlen (advance s b'))
                  useBytes use_UTF8) in *.
      destruct (Z.ltb_spec r 0) as [|_]; [lia|].
      destruct (Z.geb_spec r 0) as [_|]; [|lia].
      apply occurs_at_shift in Hocc; [| lia | lia].
      pose proof (occurs_at_within pat s (b' + r) Hp ltac:(lia) Hocc) as Hin'.
      destruct (IH b' r ltac:(lia) Hr Hin' ltac:(lia)) as [Hg Hl].
      cbn [map fst snd]. split.
      * apply greedy_match.
        -- lia.
        -- now replace (b' + r + 1 - 1) with (b' + r) by lia.
        -- intros k Hk Hk'. apply (Hno (k - b')); [lia|].
           apply occurs_at_shift; [lia | lia |].
           now replace (b' + (k - b')) with k by lia.
        -- replace (b' + r + 1 - 1 + strlen pat) with (b' + r + strlen pat) by lia.
           exact Hg.
      * f_equal. exact Hl.
Qed.

(** X15.  [gregexpr] with a fixed pattern that is not empty, in a search
    by bytes: when the pattern does not occur in the subject the result is
    -1 with the length -1; otherwise the result holds the starts (from 1)
    of the occurrences of the pattern met from the left, each the first
    one at or after the end of the one before, and every length is the
    length of the pattern. *)
Theorem gregexpr_fixed_greedy (pat s : cstr) (use_UTF8 : bool) (itype : SEXP) :
  1 <= strlen pat ->
  exists ms lens,
    gregexpr_fixed H pat s true use_UTF8 itype
    = INTSXP ms (match_attribs true itype lens)
    /\ ((ms = [-1] /\ lens = [-1] /\ forall k, 0 <= k -> ~ occurs_at pat s k)
        \/ (ms <> [] /\ greedy pat s 0 ms
            /\ lens = map (fun _ => strlen pat) ms)).
Proof.
  intros Hp. unfold gregexpr_fixed. cbv zeta. cbn [negb andb].
  assert (Hmode : true = true \/ (use_UTF8 = false /\ mbcslocale H = false))
    by now left.
  rewrite (fgrep_one_next H pat s true use_UTF8 Hmode Hp). cbv zeta.
  destruct (fgrep_one_bytes_first H pat s true use_UTF8 Hmode Hp)
    as [[E Hno]|(Hr & Hocc & Hno)].
  - rewrite E. cbn. eexists _, _. split; [reflexivity|]. left. auto.
  - set (r := fgrep_one_bytes H pat s (strlen s) true use_UTF8) in *.
    destruct (Z.ltb_spec r 0) as [|_]; [lia|].
    pose proof (occurs_at_within pat s r Hp Hr Hocc) as Hin.
    destruct (fixed_matches_greedy pat s use_UTF8 true Hmode Hp (S (length s)) 0 r
                ltac:(lia) Hr ltac:(lia) ltac:(unfold strlen in *; lia)) as [Hg Hl].
    rewrite advance_0 in Hg, Hl. cbn [Z.add] in Hg.
    eexists _, _. split; [reflexivity|]. right.
    cbn [map fst snd]. split; [discriminate|]. split.
    + apply greedy_match.
      * lia.
      * now replace (r + 1 - 1) with r by lia.
      * intros k Hk. apply Hno. lia.
      * replace (r + 1 - 1 + strlen pat) with (r + strlen pat) by lia. exact Hg.
    + f_equal. exact Hl.
Qed.

End FixedAll.

Section Shape.

Variable H : Host.
Variable T : TRE.
Variable P : PCRE.

(** ** Element by element *)

(** A missing element gives a missing entry. *)
Definition keeps_missing (x r : CHARSXP) : Prop := is_NA x = true -> r = NA_STRING.

(** X16.  When [sub] or [gsub] returns, for a pattern that is not missing,
    the result is a character vector with the attributes of [text] and one
    element for each element of [text], and the elements of [text] that
    are missing are missing in the result. *)
Theorem gsub_shape (global : bool) (fuel : nat) (jit_stack : bool)
    (pat rep text r : SEXP) (igcase perl fixed useBytes : Rflag) :
  is_NA (STRING_ELT0 pat) = false ->
  outcome (do_gsub H T P global fuel jit_stack pat rep text igcase perl fixed useBytes)
  = Val r ->
  exists ans,
    r = STRSXP ans (ATTRIB text)
    /\ Forall2 keeps_missing (STRING_ELTS text) ans.
Proof.
  intros Hpat Hr. apply outcome_val in Hr. destruct Hr as [ws Hr].
  unfold do_gsub in Hr. cbv zeta in Hr. rewrite Hpat in Hr.
  do 7 (apply bind_val_inv in Hr; destruct Hr as (? & ? & ? & _ & Hr)).
  apply bind_val_inv in Hr. destruct Hr as (? & [spat srep] & ? & _ & Hr).
  apply bind_val_inv in Hr. destruct Hr as (? & [[comp wrep] replen] & ? & _ & Hr).
  apply bind_val_inv in Hr. destruct Hr as (w1 & ans & w2 & Hfold & Hret).
  injection Hret as _ <-. exists ans. split; [reflexivity|].
  set (xs := STRING_ELTS text) in *.
  pose (Inv := fun (l : list (Z * CHARSXP)) (ans : list CHARSXP) =>
                 exists pre, pre ++ map snd l = xs /\ Forall2 keeps_missing pre ans).
  match type of Hfold with
  | foldM ?body ?elts ?init = _ =>
      assert (Hstep : forall a l s ws s',
                 Inv (a :: l) s -> body s a = (ws, Val s') -> Inv l s')
  end.
  { intros [i xi] l s ws' s' (pre & Hpre & Hall).
    destruct (is_NA xi) eqn:Exi.
    - intros [= _ <-]. exists (pre ++ [xi]). split.
      + rewrite <- app_assoc. exact Hpre.
      + apply Forall2_app; [exact Hall|]. constructor; [| constructor].
        intros _. reflexivity.
    - intros Hb.
      apply bind_val_inv in Hb. destruct Hb as (? & ? & ? & _ & Hb).
      apply bind_val_inv in Hb. destruct Hb as (? & res & ? & _ & Hb).
      injection Hb as _ <-. exists (pre ++ [xi]). split.
      + rewrite <- app_assoc. exact Hpre.
      + apply Forall2_app; [exact Hall|]. constructor; [| constructor].
        intros E. congruence. }
  destruct (foldM_inv Inv _ Hstep _ _ _ _ ltac:(exists []; split; [apply map_snd_indexed | constructor]) Hfold)
    as (pre & Hpre & Hall).
  cbn [map] in Hpre. rewrite app_nil_r in Hpre. now subst pre.
Qed.

End Shape.

Section Characters.

Variable H : Host.

(** ** [strsplit] with an empty separator *)

(** The UTF-8 characters, as [utf8clen] measures them, fill [buf] from [p]
    to its end. *)
Inductive tiles (buf : cstr) : Z -> Prop :=
| tiles_end (p : Z) : p = strlen buf -> tiles buf p
| tiles_step (p : Z) :
    0 <= p < strlen buf -> 1 <= utf8clen H (byte_at buf p) ->
    tiles buf (p + utf8clen H (byte_at buf p)) -> tiles buf p.

Lemma tiles_within (buf : cstr) (p : Z) : tiles buf p -> 0 <= p <= strlen buf.
Proof. intros [q -> | q Hq _ _]; [pose proof (strlen_nonneg buf) |]; lia. Qed.

Lemma at_end_inside {A} (s : list A) (i : Z) : 0 <= i < strlen s -> at_end s i = false.
Proof.
  intros Hi. destruct (at_end s i) eqn:E; [| reflexivity].
  apply at_end_true in E; lia.
Qed.

Lemma at_end_strlen {A} (s : list A) : at_end s (strlen s) = true.
Proof.
  destruct (at_end s (strlen s)) eqn:E; [reflexivity|].
  apply at_end_false in E. lia.
Qed.

Lemma take_advance {A} (s : list A) (p n : Z) :
  0 <= p -> 0 <= n -> take n (advance s p) ++ advance s (p + n) = advance s p.
Proof.
  intros Hp Hn. rewrite <- (advance_advance s p n) by lia.
  unfold take. unfold advance at 2. apply firstn_skipn.
Qed.

Lemma utf8_passes_agree (buf : cstr) (p : Z) :
  tiles buf p ->
  forall (fuel : nat) (n : nat),
    (Z.to_nat (strlen buf - p) < fuel)%nat ->
    exists pieces,
      utf8_count H fuel buf p n = Some (n + length pieces)%nat
      /\ utf8_fill H (length pieces) buf p = map (mkCharCE_UTF8 H) pieces
      /\ concat pieces = advance buf p
      /\ Forall (fun t => t <> []) pieces.
Proof.
  induction 1 as [p -> | p Hp Hc Ht IH]; intros fuel n Hf;
    (destruct fuel as [|f]; [lia|]); cbn [utf8_count].
  - rewrite at_end_strlen. exists []. cbn. rewrite Nat.add_0_r.
    repeat split; [| constructor].
    unfold advance. symmetry. apply skipn_all2. unfold strlen. lia.
  - rewrite at_end_inside by exact Hp.
    destruct (IH f (S n) ltac:(lia)) as (pieces & Hcount & Hfill & Hcat & Hne).
    set (used := utf8clen H (byte_at buf p)) in *.
    exists (take used (advance buf p) :: pieces).
    cbn [length utf8_fill map concat]. fold used.
    split; [rewrite Hcount; f_equal; lia|].
    split; [now rewrite Hfill|].
    split; [rewrite Hcat; apply take_advance; lia|].
    constructor; [| exact Hne].
    intros E. apply (f_equal (@length ascii)) in E.
    unfold take, advance in E. rewrite length_firstn, length_skipn in E.
    unfold strlen in Hp. cbn in E. lia.
Qed.

(** X17.  The split into characters loses nothing: in the UTF-8 path (for a
    subject that its characters fill) and in the byte-by-byte path, the
    result holds one token for each of the pieces, none of them empty,
    whose concatenation is the subject. *)
Theorem split_chars_round_trip (fuel : nat) (useBytes use_UTF8 : bool)
    (xi : CHARSXP) (buf : cstr) :
  use_UTF8 = true \/ mbcslocale H = false ->
  (use_UTF8 = true -> tiles buf 0) ->
  (length buf < fuel)%nat ->
  exists pieces,
    split_chars H fuel useBytes use_UTF8 xi buf
    = ret (STRSXP
             (map (if negb useBytes && (use_UTF8 || mbcslocale H)
                      && negb (strIsASCII H buf)
                   then mkCharCE_UTF8 H else fun t => markKnown H t xi)
                pieces) [])
    /\ concat pieces = buf
    /\ Forall (fun t => t <> []) pieces.
Proof.
  intros Hmode Htiles Hfuel. unfold split_chars.
  destruct (negb useBytes && (use_UTF8 || mbcslocale H) && negb (strIsASCII H buf))
    eqn:E.
  - assert (Hu : use_UTF8 = true).
    { destruct Hmode as [->| Hm]; [reflexivity|].
      rewrite Hm, orb_false_r in E. destruct use_UTF8; [reflexivity|].
      now rewrite andb_false_r in E. }
    rewrite Hu.
    destruct (utf8_passes_agree buf 0 (Htiles Hu) fuel O
                ltac:(unfold strlen; lia)) as (pieces & Hcount & Hfill & Hcat & Hne).
    rewrite Hcount. cbn [Nat.add]. rewrite Hfill. exists pieces.
    split; [reflexivity|]. split; [exact Hcat | exact Hne].
  - exists (map (fun c => [c]) buf). rewrite map_map. split; [reflexivity|].
    split.
    + induction buf as [|c l IH]; [reflexivity|]. cbn. f_equal.
      clear -l. induction l as [|d l IH]; [reflexivity|]. cbn. now f_equal.
    + apply Forall_map. apply Forall_forall. intros c _. discriminate.
Qed.

End Characters.

Section SplitShape.

Variable H : Host.
Variable T : TRE.
Variable P : PCRE.

(** ** The result of [strsplit], element by element *)

Lemma length_set_nth {A} (v : A) : forall (l : list A) (i : nat),
  length (set_nth i v l) = length l.
Proof.
  induction l as [|a l IH]; intros [|i]; cbn; try reflexivity. now rewrite IH.
Qed.

Lemma nth_set_nth_same {A} (v d : A) : forall (l : list A) (i : nat),
  (i < length l)%nat -> nth i (set_nth i v l) d = v.
Proof.
  induction l as [|a l IH]; intros [|i] Hi; cbn in *; try lia; [reflexivity|].
  apply IH. lia.
Qed.

Lemma nth_set_nth_other {A} (v d : A) : forall (l : list A) (i j : nat),
  i <> j -> nth j (set_nth i v l) d = nth j l d.
Proof.
  induction l as [|a l IH]; intros [|i] [|j] Hij; cbn; try reflexivity; try lia.
  apply IH. lia.
Qed.

Section Settled.

Variable xs : list CHARSXP.

Definition NA_result : SEXP := ScalarString NA_STRING.

(** The entries of [ans] at the positions of [S] where [xs] is missing
    hold the missing result. *)
Definition settled (S : Z -> Prop) (ans : list SEXP) : Prop :=
  length ans = length xs
  /\ forall i, S i -> 0 <= i < strlen xs ->
       is_NA (nth (Z.to_nat i) xs NA_STRING) = true ->
       nth (Z.to_nat i) ans R_NilValue = NA_result.

Lemma settled_weaken (S S' : Z -> Prop) (ans : list SEXP) :
  (forall i, S' i -> S i) -> settled S ans -> settled S' ans.
Proof. intros Hsub [Hl Hs]. split; [exact Hl|]. intros i Hi. apply Hs. auto. Qed.

Lemma settled_set (S : Z -> Prop) (ans : list SEXP) (j : Z) (v : SEXP) :
  0 <= j ->
  (is_NA (nth (Z.to_nat j) xs NA_STRING) = true -> v = NA_result) ->
  settled S ans -> settled (fun i => S i \/ i = j) (SET_VECTOR_ELT ans j v).
Proof.
  intros Hj Hv [Hl Hs]. unfold SET_VECTOR_ELT. split.
  - now rewrite length_set_nth.
  - intros i Hi Hin Hna. destruct (Z.eq_dec i j) as [->|Hne].
    + rewrite nth_set_nth_same by (unfold strlen in Hin; lia). now apply Hv.
    + rewrite nth_set_nth_other by lia.
      destruct Hi as [Hi|]; [| contradiction]. now apply Hs.
Qed.

Lemma settled_fold_left (f : Z -> SEXP) :
  (forall j, is_NA (nth (Z.to_nat j) xs NA_STRING) = true -> f j = NA_result) ->
  forall (idx : list Z) (S : Z -> Prop) (ans : list SEXP),
    Forall (fun j => 0 <= j) idx -> settled S ans ->
    settled (fun i => S i \/ In i idx)
      (fold_left (fun ans i => SET_VECTOR_ELT ans i (f i)) idx ans).
Proof.
  intros Hf. induction idx as [|j idx IH]; intros S ans Hpos Hs; cbn [fold_left].
  - eapply settled_weaken; [| exact Hs]. intros i [Hi|[]]. exact Hi.
  - inversion Hpos as [|? ? Hj Hpos']; subst.
    eapply settled_weaken;
      [| apply (IH (fun i => S i \/ i = j) _ Hpos'); apply settled_set;
         [exact Hj | apply Hf | exact Hs]].
    intros i [Hi|[<-|Hi]]; cbn; auto.
Qed.

Lemma settled_split_elts (useBytes use_UTF8 : bool)
    (body : CHARSXP -> Z -> cstr -> M SEXP) :
  forall (idx : list Z) (S : Z -> Prop) (ans : list SEXP) (nwarn : Z)
         (ws : list condition) (ans' : list SEXP) (nwarn' : Z),
    Forall (fun j => 0 <= j) idx -> settled S ans ->
    split_elts H useBytes use_UTF8 xs body idx (ans, nwarn) = (ws, Val (ans', nwarn')) ->
    settled (fun i => S i \/ In i idx) ans'.
Proof.
  unfold split_elts.
  induction idx as [|j idx IH]; intros S ans nwarn ws ans' nwarn' Hpos Hs Hf;
    cbn [foldM] in Hf.
  - injection Hf as _ <- _. eapply settled_weaken; [| exact Hs].
    intros i [Hi|[]]. exact Hi.
  - inversion Hpos as [|? ? Hj Hpos']; subst.
    apply bind_val_inv in Hf. destruct Hf as (w1 & [ans1 nw1] & w2 & Hstep & Hrest).
    assert (H1 : settled (fun i => S i \/ i = j) ans1).
    { destruct (is_NA (nth (Z.to_nat j) xs NA_STRING)) eqn:Ena.
      - injection Hstep as _ <- _. apply settled_set; auto.
      - apply bind_val_inv in Hstep.
        destruct Hstep as (? & [[buf|] nw] & ? & _ & Hstep).
        + apply bind_val_inv in Hstep. destruct Hstep as (? & t & ? & _ & Hstep).
          injection Hstep as _ <- _. apply settled_set; auto. congruence.
        + injection Hstep as _ <- _. apply settled_set; auto. }
    eapply settled_weaken; [| exact (IH _ _ _ _ _ _ Hpos' H1 Hrest)].
    intros i [Hi|[<-|Hi]]; cbn; auto.
Qed.

End Settled.

Lemma stride_nonneg (tlen len : Z) : forall (n : nat) (i0 : Z),
  0 <= i0 -> 0 <= tlen -> Forall (fun j => 0 <= j) (stride n i0 tlen len).
Proof.
  induction n as [|n IH]; intros i0 H0 Ht; cbn [stride]; [constructor|].
  destruct (i0 <? len); constructor; [exact H0 | apply IH; lia].
Qed.

(** The recycling reaches every position. *)
Lemma in_stride (tlen len i : Z) : 1 <= tlen ->
  forall (n : nat) (i0 : Z),
    0 <= i0 <= i -> i < len -> (i - i0) mod tlen = 0 ->
    (Z.to_nat ((i - i0) / tlen) < n)%nat ->
    In i (stride n i0 tlen len).
Proof.
  intros Ht. induction n as [|n IH]; intros i0 H0 Hlen Hmod Hn; [lia|].
  cbn [stride]. destruct (Z.ltb_spec i0 len) as [_|]; [|lia].
  destruct (Z.eq_dec i0 i) as [->|Hne]; [now left | right].
  pose proof (Z.div_mod (i - i0) tlen ltac:(lia)) as Hdm. rewrite Hmod in Hdm.
  assert (Hq : 1 <= (i - i0) / tlen).
  { destruct (Z.le_gt_cases 1 ((i - i0) / tlen)) as [|Hlt]; [assumption|].
    assert ((i - i0) / tlen = 0) by (pose proof (Z.div_pos (i - i0) tlen); lia).
    nia. }
  assert (Hshift : i - (i0 + tlen) = tlen * ((i - i0) / tlen - 1)) by nia.
  apply IH.
  - nia.
  - exact Hlen.
  - rewrite Hshift, Z.mul_comm. apply Z.mod_mul. lia.
  - rewrite Hshift, Z.mul_comm, Z.div_mul by lia. lia.
Qed.

Lemma in_indexed {A} (l : list A) (d : A) : forall (k0 k : Z),
  k0 <= k < k0 + strlen l -> In (k, nth (Z.to_nat (k - k0)) l d) (indexed k0 l).
Proof.
  induction l as [|a l IH]; intros k0 k Hk; [unfold strlen in Hk; cbn in Hk; lia|].
  cbn [indexed]. rewrite strlen_cons in Hk.
  destruct (Z.eq_dec k k0) as [->|Hne].
  - left. now rewrite Z.sub_diag.
  - right. replace (Z.to_nat (k - k0)) with (S (Z.to_nat (k - (k0 + 1)))) by lia.
    cbn [nth]. apply IH. lia.
Qed.

(** X18.  When [strsplit] returns, the result is a list with one entry for
    each element of [x], with the names of [x], in which the entry of each
    missing element of [x] is the missing string: the recycling of [split]
    over [x] reaches every element. *)
Theorem strsplit_shape (fuel : nat) (jit_stack : bool) (x tok r : SEXP)
    (fixed perl useBytes : Rflag) :
  outcome (do_strsplit H T P fuel jit_stack x tok fixed perl useBytes) = Val r ->
  exists ans,
    r = VECSXP ans (names_attr (getAttrib x "names"))
    /\ length ans = length (STRING_ELTS x)
    /\ forall i, (i < length (STRING_ELTS x))%nat ->
         is_NA (nth i (STRING_ELTS x) NA_STRING) = true ->
         nth i ans R_NilValue = ScalarString NA_STRING.
Proof.
  intros Hr. apply outcome_val in Hr. destruct Hr as [ws Hr].
  unfold do_strsplit in Hr. cbv zeta in Hr.
  apply bind_val_inv in Hr. destruct Hr as (? & ? & ? & _ & Hr).
  apply bind_val_inv in Hr. destruct Hr as (? & ? & ? & Hchk & Hr).
  assert (Htok : isString tok = true).
  { destruct (isString tok); [reflexivity|]. rewrite orb_true_r in Hchk.
    discriminate Hchk. }
  apply bind_val_inv in Hr.
  destruct Hr as (w1 & [[ans nw] jit] & w2 & Hfold & Hret).
  injection Hret as _ <-. exists ans. split; [reflexivity|].
  set (xs := STRING_ELTS x) in *.
  set (toks := if LENGTH tok =? 0 then STRING_ELTS (mkString []) else STRING_ELTS tok)
    in *.
  assert (Htoks : 1 <= strlen toks).
  { subst toks. destruct (Z.eqb_spec (LENGTH tok) 0) as [|Hne]; [reflexivity|].
    destruct tok; try discriminate Htok. cbn [LENGTH STRING_ELTS] in *.
    pose proof (strlen_nonneg v). lia. }
  pose (covered := fun (done : list (Z * CHARSXP)) (i : Z) =>
          exists p, In p done
                    /\ In i (stride (length xs) (fst p) (strlen toks) (strlen xs))).
  pose (Inv := fun (l : list (Z * CHARSXP)) (st : list SEXP * Z * bool) =>
          exists done, done ++ l = indexed 0 toks
                       /\ Forall (fun p => 0 <= fst p) done
                       /\ settled xs (covered done) (fst (fst st))).
  assert (Hidx : forall k0 (l : list CHARSXP), 0 <= k0 ->
             Forall (fun p : Z * CHARSXP => 0 <= fst p) (indexed k0 l)).
  { intros k0 l. revert k0. induction l as [|a l IH]; intros k0 Hk0; cbn [indexed];
      constructor; [exact Hk0 | apply IH; lia]. }
  match type of Hfold with
  | foldM ?body ?elts ?init = _ =>
      assert (Hstep : forall a l s ws s',
                 Inv (a :: l) s -> body s a = (ws, Val s') -> Inv l s')
  end.
  { intros [itok this] l [[ans0 nw0] jit0] ws' [[ans1 nw1] jit1]
           (done & Hdone & Hpos & Hs) Hb.
    cbn [fst snd] in *.
    assert (Hitok : 0 <= itok).
    { pose proof (Hidx 0 toks ltac:(lia)) as Hall. rewrite <- Hdone in Hall.
      apply Forall_app in Hall. destruct Hall as [_ Hall].
      inversion Hall; subst. assumption. }
    set (idx := stride (length xs) itok (strlen toks) (strlen xs)) in *.
    assert (Hidxpos : Forall (fun j => 0 <= j) idx)
      by (apply stride_nonneg; lia).
    enough (Hans : settled xs (fun i => covered done i \/ In i idx) ans1).
    { exists (done ++ [(itok, this)]). split; [now rewrite <- app_assoc|].
      split; [apply Forall_app; split; [exact Hpos | now repeat constructor]|].
      eapply settled_weaken; [| exact Hans].
      intros i (p & Hin & Hi). apply in_app_or in Hin.
      destruct Hin as [Hin|[<-|[]]]; [left; exists p; auto | right; exact Hi]. }
    destruct (is_NA this).
    { injection Hb as _ <- _ _.
      apply (settled_fold_left xs
               (fun i => ScalarString (nth (Z.to_nat i) xs NA_STRING))); auto.
      intros j Hj. destruct (nth (Z.to_nat j) xs NA_STRING);
        [reflexivity | discriminate Hj]. }
    destruct (at_end (CHAR this) 0).
    { apply bind_val_inv in Hb. destruct Hb as (? & [a' n'] & ? & Hloop & Hb).
      injection Hb as _ <- _ _. eapply settled_split_elts; eauto. }
    destruct (na_false fixed).
    { apply bind_val_inv in Hb. destruct Hb as (? & split & ? & _ & Hb).
      apply bind_val_inv in Hb. destruct Hb as (? & [a' n'] & ? & Hloop & Hb).
      injection Hb as _ <- _ _. eapply settled_split_elts; eauto. }
    match type of Hb with
    | (if ?c then _ else _) = _ => destruct c
    end.
    { apply bind_val_inv in Hb. destruct Hb as (? & split & ? & _ & Hb).
      apply bind_val_inv in Hb. destruct Hb as (? & [[re mc] j'] & ? & _ & Hb).
      apply bind_val_inv in Hb. destruct Hb as (? & [a' n'] & ? & Hloop & Hb).
      injection Hb as _ <- _ _. eapply settled_split_elts; eauto. }
    match type of Hb with
    | (if ?c then _ else _) = _ => destruct c
    end.
    { destruct (tre_regwcomp T (wtransChar H this) REG_EXTENDED_only) as [reg|rc].
      - injection Hb as _ <- _ _.
        apply (settled_fold_left xs
                 (fun i => if is_NA (nth (Z.to_nat i) xs NA_STRING)
                           then ScalarString NA_STRING
                           else split_wc H T reg (nth (Z.to_nat i) xs NA_STRING)));
          auto.
        intros j ->. reflexivity.
      - destruct (translateChar H this); discriminate Hb. }
    apply bind_val_inv in Hb. destruct Hb as (? & split & ? & _ & Hb).
    destruct (tre_regcomp T split REG_EXTENDED_only) as [reg|rc].
    - apply bind_val_inv in Hb. destruct Hb as (? & [a' n'] & ? & Hloop & Hb).
      injection Hb as _ <- _ _. eapply settled_split_elts; eauto.
    - discriminate Hb. }
  assert (Hinit : Inv (indexed 0 toks) (repeat R_NilValue (length xs), 0, jit_stack)).
  { exists []. split; [reflexivity|]. split; [constructor|].
    split; [apply repeat_length | intros i [p [[] _]]]. }
  destruct (foldM_inv Inv _ Hstep _ _ _ _ Hinit Hfold)
    as (done & Hdone & _ & Hl & Hs).
  rewrite app_nil_r in Hdone. subst done. cbn [fst] in *.
  split; [exact Hl|]. intros i Hi Hna.
  specialize (Hs (Z.of_nat i)). rewrite Nat2Z.id in Hs. apply Hs.
  - exists (Z.of_nat i mod strlen toks,
            nth (Z.to_nat (Z.of_nat i mod strlen toks - 0)) toks NA_STRING).
    pose proof (Z.mod_pos_bound (Z.of_nat i) (strlen toks) ltac:(lia)) as Hm.
    split; [apply in_indexed; lia|]. cbn [fst].
    pose proof (Z.mod_le (Z.of_nat i) (strlen toks) ltac:(lia) ltac:(lia)) as Hle.
    apply in_stride.
    + lia.
    + lia.
    + unfold strlen. lia.
    + rewrite Zminus_mod_idemp_r, Z.sub_diag. reflexivity.
    + assert ((Z.of_nat i - Z.of_nat i mod strlen toks) / strlen toks <= Z.of_nat i).
      { apply Z.div_le_upper_bound; nia. }
      assert (0 <= (Z.of_nat i - Z.of_nat i mod strlen toks) / strlen toks)
        by (apply Z.div_pos; lia).
      lia.
  - unfold strlen. lia.
  - exact Hna.
Qed.

End SplitShape.

Section SubOnce.

Variable H : Host.
Variable T : TRE.
Variable P : PCRE.

(** ** [sub] with an extended regular expression *)

(** X19.  [sub] replaces the first match and nothing else, and the buffer
    it starts with is large enough: when the expression matches the
    subject at [so, eo) and the capacity [ns + maxrep + 1000] is within the
    range of [int], the result is made from the bytes before [so], the
    expansion of the replacement, and the bytes from [eo] on; the call does
    not stop on "result string is too long". *)
Theorem sub_replaces_first_match
    (fuel : nat) (reg : regex_t T) (useBytes use_UTF8 : bool)
    (rep0 : CHARSXP) (spat srep : cstr) (wrep : wstr)
    (xi : CHARSXP) (i : Z) (s : cstr) (m : list regmatch_t) :
  (0 < fuel)%nat -> is_NA rep0 = false ->
  tre_regexecb T reg s 10 false = (REG_OK, m) ->
  0 <= rm_so (rm m 0) <= rm_eo (rm m 0) -> rm_eo (rm m 0) <= strlen s ->
  gsub_nns false false (strlen s) (strlen srep)
    (gsub_maxrep (strlen srep) (strlen s) (count_subs srep)) <= INT_MAX ->
  gsub_elt H T P fuel (C_tre T P reg) false useBytes use_UTF8 false rep0
    spat srep wrep (strlen srep) xi i s
  = ret (gsub_mark H useBytes false xi
           (take (rm_so (rm m 0)) s ++ string_adj s srep m
            ++ advance s (rm_eo (rm m 0)))).
Proof.
  intros Hfuel Hrep Hexec Hso Heo _. destruct fuel as [|f]; [lia|].
  cbn [gsub_elt negb]. cbv zeta.
  cbn [tre_replace gsub_init offset eflag out nns nmatch last_end].
  rewrite advance_0, Hexec. cbn [negb orb]. rewrite orb_true_r.
  destruct (Z.gtb_spec (0 + rm_eo (rm m 0)) (-1)) as [_|]; [|lia].
  rewrite bind_ret_l. cbn [espace_warning]. rewrite bind_ret_l.
  unfold gsub_finish. cbn [nmatch out offset nns]. cbn [Z.add Z.eqb Pos.eqb].
  rewrite Hrep. rewrite !app_nil_l.
  set (so := rm_so (rm m 0)) in *. set (eo := rm_eo (rm m 0)) in *.
  assert (Hpre : slice s 0 so = take so s).
  { unfold slice. now rewrite advance_0, Z.sub_0_r. }
  rewrite Hpre.
  assert (Hgrow : grow (gsub_nns false false (strlen s) (strlen srep)
                          (gsub_maxrep (strlen srep) (strlen s) (count_subs srep)))
                    (strlen (take so s ++ string_adj s srep m) + (strlen s - eo) + 1)
                  = ret (gsub_nns false false (strlen s) (strlen srep)
                           (gsub_maxrep (strlen srep) (strlen s) (count_subs srep)))).
  { unfold grow, gsub_nns.
    pose proof (string_adj_bound s srep m) as Hb.
    pose proof (strlen_take s so) as Ht.
    rewrite strlen_app.
    match goal with
    | |- (if ?a <? ?b then _ else _) = _ => destruct (Z.ltb_spec a b); [lia | reflexivity]
    end. }
  rewrite Hgrow, bind_ret_l. now rewrite <- app_assoc.
Qed.

End SubOnce.

(** ** [regexpr] and [gregexpr] *)

(** What two computations return, when both return. *)
Definition both {A B} (Q : A -> B -> Prop) (m1 : M A) (m2 : M B) : Prop :=
  forall a b, outcome m1 = Val a -> outcome m2 = Val b -> Q a b.

Lemma outcome_bind_inv {A B} (m : M A) (f : A -> M B) (b : B) :
  outcome (bind m f) = Val b ->
  exists ws a, m = (ws, Val a) /\ outcome (f a) = Val b.
Proof.
  destruct m as [ws [a| e |]]; cbn; try discriminate.
  destruct (f a) as [w r] eqn:E. cbn. intros ->.
  exists ws, a. split; [reflexivity | now rewrite E].
Qed.

Lemma both_bind2 {A1 A2 B1 B2} (R : A1 -> A2 -> Prop) (Q : B1 -> B2 -> Prop)
    (m1 : M A1) (m2 : M A2) (f : A1 -> M B1) (g : A2 -> M B2) :
  both R m1 m2 -> (forall a b, R a b -> both Q (f a) (g b)) ->
  both Q (bind m1 f) (bind m2 g).
Proof.
  intros Hm Hfg b1 b2 H1 H2.
  apply outcome_bind_inv in H1. destruct H1 as (w1 & a1 & E1 & H1).
  apply outcome_bind_inv in H2. destruct H2 as (w2 & a2 & E2 & H2).
  apply (Hfg a1 a2); [| exact H1 | exact H2].
  apply Hm; [now rewrite E1 | now rewrite E2].
Qed.

Lemma both_bind {A B C} (Q : B -> C -> Prop) (Pm : A -> Prop)
    (m : M A) (f : A -> M B) (g : A -> M C) :
  (forall ws a, m = (ws, Val a) -> Pm a) ->
  (forall a, Pm a -> both Q (f a) (g a)) ->
  both Q (bind m f) (bind m g).
Proof.
  intros Hm Hfg. apply both_bind2 with (R := fun a b => a = b /\ Pm a).
  - intros a b Ha Hb. destruct m as [ws r]. cbn in Ha, Hb. subst r.
    injection Hb as ->. split; [reflexivity | now apply (Hm ws)].
  - intros a b [<- Ha]. now apply Hfg.
Qed.

Lemma both_bind_l {A B C} (Q : B -> C -> Prop) (m : M A) (f : A -> M B) (m2 : M C) :
  (forall a, both Q (f a) m2) -> both Q (bind m f) m2.
Proof.
  intros Hf b c H1 H2. apply outcome_bind_inv in H1.
  destruct H1 as (w & a & _ & H1). now apply (Hf a).
Qed.

Lemma both_ret {A B} (Q : A -> B -> Prop) (a : A) (b : B) :
  Q a b -> both Q (ret a) (ret b).
Proof. intros HQ a' b' [= <-] [= <-]. exact HQ. Qed.

(** Two loops over the same elements, with an invariant of the two
    states. *)
Lemma both_foldM {A S1 S2} (Inv : list A -> S1 -> S2 -> Prop)
    (f : S1 -> A -> M S1) (g : S2 -> A -> M S2) :
  (forall a l s1 s2, Inv (a :: l) s1 s2 -> both (Inv l) (f s1 a) (g s2 a)) ->
  forall l s1 s2, Inv l s1 s2 -> both (Inv []) (foldM f l s1) (foldM g l s2).
Proof.
  intros Hstep. induction l as [|a l IH]; intros s1 s2 Hinv; cbn [foldM].
  - now apply both_ret.
  - apply both_bind2 with (R := Inv l); [now apply Hstep | exact IH].
Qed.

Section FirstMatch.

Variable H : Host.
Variable T : TRE.
Variable P : PCRE.

(** [e] is a vector of positions that starts with [a], with match lengths
    that start with [l]. *)
Definition first_of (a l : Z) (e : SEXP) : Prop :=
  exists rest lrest attrs,
    e = INTSXP (a :: rest) (("match.length"%string, INTSXP (l :: lrest) []) :: attrs).

(** The match of an element by [regexpr] is the first of the matches of
    the element by [gregexpr]: an element that is not missing, in a search
    by bytes.  With TRE the element is not empty. *)
Lemma regexpr_elt_first (fuel : nat) (comp : compiled T P) (spat : cstr)
    (capture_count : Z) (capture_names itype : SEXP) (xi : CHARSXP) (i : Z) :
  match comp with C_tre _ _ _ => 1 <= strlen (CHAR xi) | _ => True end ->
  both (fun '(st, ln, _) e => first_of st ln e)
    (regexpr_elt H T P comp true false false spat capture_count xi i (CHAR xi))
    (match comp with
     | C_perl _ _ re mc =>
         R_pcre2_gregexpr H P fuel (CHAR xi) re true false mc capture_count
           capture_names i itype
     | C_fixed _ _ => ret (gregexpr_fixed H spat (CHAR xi) true false itype)
     | C_tre _ _ reg => gregexpr_Regexc H T fuel reg xi true false i itype
     end).
Proof.
  intros Hlen. destruct comp as [|re mc|reg].
  - (* fixed *)
    unfold regexpr_elt, gregexpr_fixed. cbv zeta. cbn [negb andb].
    destruct (fgrep_one H spat (CHAR xi) true false) as [st next]. cbn [fst].
    apply both_ret.
    destruct (Z.ltb_spec st 0) as [Hneg|Hpos].
    + destruct (Z.gtb_spec st (-1)) as [|_]; [lia|].
      cbn. now exists [], [], [("index.type"%string, itype);
                              ("useBytes"%string, LGLSXP [1] [])].
    + destruct (Z.gtb_spec st (-1)) as [_|]; [|lia].
      destruct (Z.geb_spec (st + 1) 0) as [_|]; [|lia].
      cbn [map fst snd match_attribs]. now eexists _, _, _.
  - (* PCRE *)
    unfold regexpr_elt, R_pcre2_gregexpr. cbv zeta.
    destruct fuel as [|f].
    { intros a b _ Hb. cbn in Hb. discriminate. }
    cbn [pcre_matches].
    destruct (pcre2_match P re (CHAR xi) 0 false mc) as [rc ov].
    intros [[st ln] row] e H1 H2.
    apply outcome_bind_inv in H1. destruct H1 as (? & [] & _ & H1).
    apply outcome_bind_inv in H2. destruct H2 as (? & ms & Hms & H2).
    apply bind_val_inv in Hms. destruct Hms as (? & [] & ? & _ & Hms).
    destruct (rc >=? 0).
    + destruct (extract_match_and_groups H (S (length (CHAR xi))) false ov
                  capture_count (CHAR xi)) as [[[[st' ln'] groups] foundAll]|];
        [| discriminate].
      cbn in H1. injection H1 as -> -> _.
      assert (Hhd : exists rest, ms = (st, ln, groups) :: rest).
      { destruct (foundAll || _).
        - injection Hms as _ <-. now exists [].
        - apply bind_val_inv in Hms. destruct Hms as (? & rest & ? & _ & Hms).
          injection Hms as _ <-. now exists rest. }
      destruct Hhd as [rest ->]. cbn in H2. injection H2 as <-.
      now eexists _, _, _.
    + cbn in H1. injection H1 as <- <- _.
      injection Hms as _ <-. cbn in H2. injection H2 as <-.
      now eexists _, _, _.
  - (* TRE *)
    unfold regexpr_elt, gregexpr_Regexc. cbv zeta. cbn [negb].
    destruct fuel as [|f].
    { intros a b _ Hb. cbn in Hb. discriminate. }
    cbn [Regexc_loop].
    destruct (Z.ltb_spec 0 (strlen (CHAR xi))) as [_|]; [|lia].
    rewrite advance_0.
    destruct (tre_regexecb T reg (CHAR xi) 1 false) as [rc rmatch].
    intros [[st ln] row] e H1 H2.
    apply outcome_bind_inv in H1. destruct H1 as (? & [] & _ & H1).
    destruct rc;
      try (cbn in H1; injection H1 as <- <- _;
           apply outcome_bind_inv in H2; destruct H2 as (? & [] & _ & H2);
           cbn in H2; injection H2 as <-; now eexists _, _, _).
    cbn in H1. injection H1 as <- <- _.
    destruct (Regexc_loop f _ (CHAR xi) (strlen (CHAR xi)) _ true (Some REG_OK))
      as [[ms rc']|]; [| discriminate].
    apply outcome_bind_inv in H2. destruct H2 as (? & [] & _ & H2).
    cbn in H2. injection H2 as <-.
    now eexists _, _, _.
Qed.

End FirstMatch.

Section FirstOfAll.

Variable H : Host.
Variable T : TRE.
Variable P : PCRE.

(** X22.  [regexpr] gives, element by element, the first of the matches
    that [gregexpr] gives, in a search by bytes: when both calls return,
    the position and the match length of each element that is missing or
    not empty are the first position and the first match length of the
    element in the list of [gregexpr].  For a fixed pattern and with
    [perl] this holds for an empty element too; with TRE it does not
    ([gregexpr_Regexc] does not run the engine on an empty string). *)
Theorem regexpr_is_first_of_gregexpr (fuel fuel' : nat) (jit_stack : bool)
    (pat text r1 r2 : SEXP) (igcase perl fixed useBytes : Rflag) :
  na_false useBytes = true ->
  outcome (do_regexpr H T P false fuel jit_stack pat text igcase perl fixed useBytes)
  = Val r1 ->
  outcome (do_regexpr H T P true fuel' jit_stack pat text igcase perl fixed useBytes)
  = Val r2 ->
  exists (rows : list (Z * Z * SEXP)) attrs,
    r1 = INTSXP (map (fun r => fst (fst r)) rows)
           (("match.length"%string, INTSXP (map (fun r => snd (fst r)) rows) [])
            :: attrs)
    /\ r2 = VECSXP (map snd rows) []
    /\ Forall2 (fun x '(a, l, e) =>
                  is_NA x = true \/ 1 <= strlen (CHAR x)
                  \/ na_false fixed = true \/ na_false perl = true ->
                  first_of a l e)
         (STRING_ELTS text) rows.
Proof.
  intros Hub. revert r1 r2.
  match goal with
  | |- forall r1 r2, outcome ?m1 = _ -> outcome ?m2 = _ -> @?Q r1 r2 =>
      change (both Q m1 m2)
  end.
  unfold do_regexpr. cbv zeta. rewrite Hub. cbn [orb negb andb].
  assert (Hif : forall b : bool, (if b then false else false) = false)
    by (now intros []).
  rewrite !andb_false_r, !Hif. cbn [negb]. clear Hif.
  set (fx := na_false fixed).
  set (pl := if fx && na_false perl then false else na_false perl).
  do 5 (apply both_bind with (Pm := fun _ => True); [auto|]; intros _ _).
  apply both_bind with (Pm := fun _ => True); [auto|]; intros spat _.
  apply both_bind
    with (Pm := fun a : compiled T P * Z * SEXP =>
                  match fst (fst a) with
                  | C_fixed _ _ => fx = true
                  | C_perl _ _ _ _ => fx = false /\ pl = true
                  | C_tre _ _ _ => fx = false /\ pl = false
                  end).
  { intros ws [[comp cc] cn]. cbn [fst]. destruct fx.
    - intros [= _ <- _ _]. reflexivity.
    - destruct pl.
      + intros E. apply bind_val_inv in E.
        destruct E as (? & [[re mc] js] & ? & _ & E).
        destruct (pcre2_capture_count P re) as [info cc'].
        apply bind_val_inv in E. destruct E as (? & ? & ? & _ & E).
        injection E as _ <- _ _. split; reflexivity.
      + destruct (tre_regcompb T (the spat) _) as [reg|rc].
        * intros [= _ <- _ _]. split; reflexivity.
        * destruct spat; cbn; discriminate. }
  intros [[comp cc] cn] Hcomp. cbn [fst] in Hcomp.
  apply both_bind_l; intros _.
  set (xs := STRING_ELTS text).
  set (Rel := fun (x : CHARSXP) '((a, l, e) : Z * Z * SEXP) =>
                is_NA x = true \/ 1 <= strlen (CHAR x)
                \/ fx = true \/ na_false perl = true ->
                first_of a l e).
  pose (Inv := fun (l : list (Z * CHARSXP))
                   (s1 : list Z * list Z * list (list (Z * Z)) * Z)
                   (s2 : list SEXP * Z) =>
                 exists pre rows,
                   pre ++ map snd l = xs
                   /\ fst (fst (fst s1)) = map (fun r => fst (fst r)) rows
                   /\ snd (fst (fst s1)) = map (fun r => snd (fst r)) rows
                   /\ fst s2 = map snd rows
                   /\ Forall2 Rel pre rows).
  apply both_bind2 with (R := Inv []).
  - apply both_foldM with (Inv := Inv).
    + intros [i xi] l [[[ans ml] rws] nw] [ans2 nw2]
        (pre & rows & Hpre & Ha & Hm & Ha2 & Hall).
      cbn [fst snd] in *. subst ans ml ans2.
      assert (Hext : forall st ln e (s1 : list (list (Z * Z)) * Z) (n2 : Z),
                 Rel xi (st, ln, e) ->
                 Inv l (map (fun r : Z * Z * SEXP => fst (fst r)) rows ++ [st],
                        map (fun r : Z * Z * SEXP => snd (fst r)) rows ++ [ln],
                        fst s1, snd s1)
                       (map snd rows ++ [e], n2)).
      { intros st ln e s1 n2 HR. exists (pre ++ [xi]), (rows ++ [(st, ln, e)]).
        cbn [fst snd]. rewrite !map_app. cbn [map fst snd].
        split; [rewrite <- app_assoc; exact Hpre|].
        split; [reflexivity|]. split; [reflexivity|]. split; [reflexivity|].
        apply Forall2_app; [exact Hall|]. constructor; [exact HR | constructor]. }
      destruct (is_NA xi) eqn:Ena.
      * apply both_ret.
        apply (Hext NA_INTEGER NA_INTEGER gregexpr_NAInputAns (_, nw) nw2).
        intros _. now exists [], [], [].
      * rewrite bind_ret_l.
        set (itype := ScalarString (mkChar H (str "bytes"))).
        assert (Hfirst :
                  both (fun (x : Z * Z * option (list (Z * Z))) e =>
                          Rel xi (fst (fst x), snd (fst x), e))
                    (regexpr_elt H T P comp true false false (the spat) cc xi i
                       (CHAR xi))
                    (match comp with
                     | C_perl _ _ re mc =>
                         R_pcre2_gregexpr H P fuel' (CHAR xi) re true false mc cc
                           cn i itype
                     | C_fixed _ _ =>
                         ret (gregexpr_fixed H (the spat) (CHAR xi) true false itype)
                     | C_tre _ _ reg =>
                         gregexpr_Regexc H T fuel' reg xi true false i itype
                     end)).
        { destruct (Z.le_gt_cases 1 (strlen (CHAR xi))) as [Hne|Hempty].
          - intros [[st ln] row] e Hx He _. cbn [fst snd].
            apply (regexpr_elt_first H T P fuel' comp (the spat) cc cn itype xi i
                     ltac:(destruct comp; [exact I | exact I | exact Hne])
                     (st, ln, row) e Hx He).
          - destruct comp as [|re mc|reg].
            + intros [[st ln] row] e Hx He _. cbn [fst snd].
              apply (regexpr_elt_first H T P fuel' (C_fixed T P) (the spat) cc cn
                       itype xi i I (st, ln, row) e Hx He).
            + intros [[st ln] row] e Hx He _. cbn [fst snd].
              apply (regexpr_elt_first H T P fuel' (C_perl T P re mc) (the spat) cc cn
                       itype xi i I (st, ln, row) e Hx He).
            + destruct Hcomp as [Efx Epl]. intros x e _ _ [E|[E|[E|E]]].
              * congruence.
              * lia.
              * congruence.
              * subst pl. rewrite Efx in Epl. cbn in Epl. congruence. }
        assert (Hsame :
                  (if fx || pl
                   then
                     elt <-
                       match comp with
                       | C_perl _ _ re mc =>
                           R_pcre2_gregexpr H P fuel' (CHAR xi) re true false mc cc
                             cn i itype
                       | _ =>
                           ret (gregexpr_fixed H (the spat) (CHAR xi) true false
                                  itype)
                       end ;; ret (map snd rows ++ [elt], nw2)
                   else
                     elt <-
                       match comp with
                       | C_tre _ _ reg =>
                           gregexpr_Regexc H T fuel' reg xi true false i itype
                       | _ => ret R_NilValue
                       end ;; ret (map snd rows ++ [elt], nw2))
                  = (elt <-
                       match comp with
                       | C_perl _ _ re mc =>
                           R_pcre2_gregexpr H P fuel' (CHAR xi) re true false mc cc
                             cn i itype
                       | C_fixed _ _ =>
                           ret (gregexpr_fixed H (the spat) (CHAR xi) true false
                                  itype)
                       | C_tre _ _ reg =>
                           gregexpr_Regexc H T fuel' reg xi true false i itype
                       end ;; ret (map snd rows ++ [elt], nw2))).
        { destruct comp as [|re mc|reg].
          - rewrite Hcomp. reflexivity.
          - destruct Hcomp as [-> ->]. reflexivity.
          - destruct Hcomp as [-> ->]. reflexivity. }
        rewrite Hsame.
        apply both_bind2 with (1 := Hfirst).
        intros [[st ln] row] e HR. cbn [fst snd] in HR. apply both_ret.
        apply (Hext st ln e (_, nw) nw2 HR).
    + exists [], []. cbn [fst snd map]. split; [apply map_snd_indexed|].
      repeat (split; [reflexivity|]). constructor.
  - intros [[[ans ml] rws] nw] [ans2 nw2]
      (pre & rows & Hpre & Ha & Hm & Ha2 & Hall).
    cbn [fst snd map] in *. subst ans ml ans2. rewrite app_nil_r in Hpre. subst pre.
    apply both_ret. exists rows. eexists. split; [reflexivity|].
    split; [reflexivity | exact Hall].
Qed.

End FirstOfAll.

Section SplitAndReplace.

Variable H : Host.
Variable T : TRE.
Variable P : PCRE.

(** ** [gsub] and [strsplit] with the same fixed pattern *)

(** The loop of the fixed replacement, entered at the leftmost occurrence
    [st] of the pattern in the subject [s0] from [k] on: it puts the
    replacement after each of the pieces that stand before the occurrences
    met from the left. *)
Lemma fixed_replace_greedy (useBytes use_UTF8 : bool) (spat srep s0 : cstr) :
  useBytes = true \/ (use_UTF8 = false /\ mbcslocale H = false) ->
  1 <= strlen spat ->
  forall (fuel : nat) (k st : Z),
    0 <= k <= strlen s0 -> 0 <= st ->
    occurs_at spat (advance s0 k) st ->
    (forall j, 0 <= j < st -> ~ occurs_at spat (advance s0 k) j) ->
    (Z.to_nat (strlen s0 - k) < fuel)%nat ->
    exists ms pieces tail,
      greedy spat s0 k ms /\ ms <> []
      /\ between s0 k ms (strlen spat) = (pieces, tail)
      /\ fixed_replace H fuel true useBytes use_UTF8 spat srep (advance s0 k) st
         = ret (join_with srep pieces ++ tail).
Proof.
  intros Hmode Hp. induction fuel as [|f IH]; intros k st Hk Hst Hocc Hno Hfuel; [lia|].
  rewrite fixed_replace_S. cbv zeta. cbn [andb].
  set (patlen := strlen spat) in *.
  pose proof (occurs_at_within spat (advance s0 k) st Hp Hst Hocc) as Hin.
  rewrite strlen_advance in Hin by lia. fold patlen in Hin.
  rewrite advance_advance by lia.
  replace (k + (st + patlen)) with (k + st + patlen) by lia.
  set (k' := k + st + patlen).
  assert (Htake : take st (advance s0 k) = slice s0 k (k + st)).
  { unfold slice. f_equal. lia. }
  rewrite Htake.
  assert (Hocc0 : occurs_at spat s0 (k + st + 1 - 1)).
  { replace (k + st + 1 - 1) with (k + st) by lia.
    apply occurs_at_shift; [lia | lia | exact Hocc]. }
  assert (Hno0 : forall j, k <= j < k + st + 1 - 1 -> ~ occurs_at spat s0 j).
  { intros j Hj Hoccj. apply (Hno (j - k)); [lia|].
    apply occurs_at_shift; [lia | lia |].
    now replace (k + (j - k)) with j by lia. }
  destruct (fgrep_one_bytes_first H spat (advance s0 k') useBytes use_UTF8 Hmode Hp)
    as [[E Hnone]|(Hr & Hocc' & Hno')].
  - rewrite E. cbn.
    exists [k + st + 1], [slice s0 k (k + st)], (advance s0 k').
    split; [| split; [discriminate | split]].
    + apply greedy_match; [lia | exact Hocc0 | exact Hno0 |].
      constructor. intros j Hj Hoccj. apply (Hnone (j - k')); [unfold k'; lia|].
      apply occurs_at_shift; [unfold k'; lia | unfold k'; lia |].
      now replace (k' + (j - k')) with j by lia.
    + cbn [between]. replace (k + st + 1 - 1) with (k + st) by lia. reflexivity.
    + unfold join_with. cbn [map concat]. now rewrite app_nil_r, <- app_assoc.
  - set (st' := fgrep_one_bytes H spat (advance s0 k') (strlen (advance s0 k'))
                  useBytes use_UTF8) in *.
    destruct (Z.geb_spec st' 0) as [_|]; [|lia].
    destruct (IH k' st') as (ms & pieces & tail & Hg & _ & Hbtw & ->);
      [unfold k'; lia | exact Hr | exact Hocc' | exact Hno' | unfold k'; lia |].
    rewrite bind_ret_l.
    exists (k + st + 1 :: ms), (slice s0 k (k + st) :: pieces), tail.
    split; [| split; [discriminate | split]].
    + apply greedy_match; [lia | exact Hocc0 | exact Hno0 |].
      replace (k + st + 1 - 1 + strlen spat) with k' by (unfold k', patlen; lia).
      exact Hg.
    + cbn [between].
      replace (k + st + 1 - 1 + patlen) with k' by (unfold k'; lia).
      rewrite Hbtw. replace (k + st + 1 - 1) with (k + st) by lia. reflexivity.
    + unfold join_with. cbn [map concat]. now rewrite <- !app_assoc.
Qed.

(** X23.  [gsub] with a fixed pattern puts the replacement where [strsplit]
    with the same pattern cuts: in a search by bytes for a pattern that is
    not empty, with [ms] the occurrences of the pattern met from the left,
    [pieces] the pieces of the subject before them and [tail] the rest,
    [strsplit] gives the pieces and then the tail when it is not empty,
    and [gsub] gives the pieces, each followed by the replacement, and then
    the tail (the element itself when there is no occurrence). *)
Theorem gsub_fixed_joins_split
    (fuel : nat) (useBytes use_UTF8 use_WC split_UTF8 : bool)
    (rep0 : CHARSXP) (spat srep : cstr) (wrep : wstr) (replen : Z)
    (xi : CHARSXP) (i : Z) (s : cstr) :
  useBytes = true \/ (use_UTF8 = false /\ mbcslocale H = false) ->
  1 <= strlen spat -> is_NA rep0 = false -> (length s < fuel)%nat ->
  exists (ms : list Z) (pieces : list cstr) (tail : cstr),
    greedy spat s 0 ms
    /\ between s 0 ms (strlen spat) = (pieces, tail)
    /\ split_fixed H split_UTF8 xi s spat
       = STRSXP (map (split_token H split_UTF8 xi)
                   (pieces ++ match tail with [] => [] | _ => [tail] end)) []
    /\ gsub_elt H T P fuel (C_fixed T P) true useBytes use_UTF8 use_WC rep0
         spat srep wrep replen xi i s
       = ret (match ms with
              | [] => xi
              | _ => gsub_mark H useBytes use_UTF8 xi (join_with srep pieces ++ tail)
              end).
Proof.
  intros Hmode Hp Hrep Hfuel.
  destruct (split_fixed_pieces H split_UTF8 xi s spat Hp)
    as (ms & pieces & tail & Hg & Hbtw & Hs & _).
  exists ms, pieces, tail.
  split; [exact Hg|]. split; [exact Hbtw|]. split; [exact Hs|].
  cbn [gsub_elt]. cbv zeta.
  destruct (fgrep_one_bytes_first H spat s useBytes use_UTF8 Hmode Hp)
    as [[E Hnone]|(Hr & Hocc & Hno)].
  - rewrite E. cbn.
    assert (Hg0 : greedy spat s 0 []) by now constructor.
    now rewrite (greedy_unique spat s 0 ms [] Hg Hg0).
  - set (st := fgrep_one_bytes H spat s (strlen s) useBytes use_UTF8) in *.
    destruct (Z.ltb_spec st 0) as [|_]; [lia|]. rewrite Hrep.
    destruct (fixed_replace_greedy useBytes use_UTF8 spat srep s Hmode Hp fuel 0 st)
      as (ms' & pieces' & tail' & Hg' & Hne & Hbtw' & Hrun).
    + pose proof (strlen_nonneg s). lia.
    + exact Hr.
    + now rewrite advance_0.
    + intros j Hj. rewrite advance_0. now apply Hno.
    + unfold strlen. lia.
    + rewrite advance_0 in Hrun. rewrite Hrun, bind_ret_l.
      rewrite (greedy_unique spat s 0 ms' ms Hg' Hg) in Hne, Hbtw'.
      rewrite Hbtw in Hbtw'. injection Hbtw' as <- <-.
      destruct ms; [contradiction | reflexivity].
Qed.

End SplitAndReplace.

Section RegexSplit.

Variable H : Host.
Variable T : TRE.
Variable P : PCRE.

(** ** [strsplit] with an extended regular expression *)



Section Passes.

Variable reg : regex_t T.
Variable xi : CHARSXP.
Variable i : Z.
Variable buf : cstr.
Hypothesis Hwf : tre_wf (fun t e => tre_regexec T reg t 1 e) buf.


End Passes.


End RegexSplit.

Section PerlSplit.

Variable H : Host.
Variable T : TRE.
Variable P : PCRE.

(** ** [strsplit] with [perl] *)



Section Passes.

Variable re : pcre2_code P.
Variable mc : mcontext_t.
Variable use_UTF8 : bool.
Variable xi : CHARSXP.
Variable i : Z.
Variable buf : cstr.

(** The matches that PCRE reports from an offset of the subject lie in
    what is left of it. *)
Hypothesis Hwf : forall off rc ovector,
  0 <= off <= strlen buf ->
  pcre2_match P re (advance buf off) 0 false mc = (rc, ovector) -> 0 <= rc ->
  0 <= ov ovector 0 <= ov ovector 1 /\ off + ov ovector 1 <= strlen buf.


End Passes.


End PerlSplit.

Section MatchesApart.

Variable H : Host.
Variable T : TRE.
Variable P : PCRE.

(** ** The matches of [gregexpr] with TRE *)

(** The matches [ms] (start from 1, and length) lie after the offset
    [pos] and within [len] units, and each starts after the one before,
    where that one ended. *)
Fixpoint apart (pos len : Z) (ms : list (Z * Z)) : Prop :=
  match ms with
  | [] => True
  | (st, ml) :: rest =>
      pos < st /\ 0 <= ml /\ st - 1 + ml <= len
      /\ apart (st - 1 + Z.max ml 1) len rest
  end.

Lemma Regexc_loop_apart {A} (exec : list A -> bool -> tre_rc * list regmatch_t)
    (s : list A) :
  tre_wf exec s ->
  forall (fuel : nat) (offset : Z) (eflags : bool) (rc : option tre_rc),
    0 <= offset ->
    (Z.to_nat (strlen s - offset) < fuel)%nat ->
    exists ms rc',
      Regexc_loop fuel exec s (strlen s) offset eflags rc = Some (ms, rc')
      /\ apart offset (strlen s) ms.
Proof.
  intros Hwf. induction fuel as [|f IH]; intros offset eflags rc Hoff Hfuel; [lia|].
  cbn [Regexc_loop].
  destruct (Z.ltb_spec offset (strlen s)) as [Hlt|Hge].
  - destruct (exec (advance s offset) eflags) as [rc1 m] eqn:E.
    destruct rc1; try (eexists _, _; split; [reflexivity | exact I]).
    destruct (Hwf offset eflags m ltac:(lia) E) as [Hso Heo].
    set (so := rm_so (rm m 0)) in *. set (eo := rm_eo (rm m 0)) in *.
    set (off' := if eo - so =? 0 then offset + so + 1 else offset + eo).
    assert (Hoff' : off' = offset + so + 1 - 1 + Z.max (eo - so) 1).
    { unfold off'. destruct (Z.eqb_spec (eo - so) 0); lia. }
    destruct (IH off' true (Some REG_OK) ltac:(lia) ltac:(lia))
      as (ms & rc' & -> & Hap).
    eexists _, _. split; [reflexivity|].
    cbn [apart]. rewrite <- Hoff'. repeat split; try lia. exact Hap.
  - eexists _, _. split; [reflexivity | exact I].
Qed.

(** X26.  The matches of an element that [gregexpr] gives with TRE do not
    overlap: with an engine whose matches lie within the subject, the
    result holds the matches [ms], or -1 when there is none, where each
    match lies within the subject and starts after the start and not
    before the end of the one before (positions and lengths in the units
    of the search: bytes, or wide characters). *)
Theorem gregexpr_matches_apart (fuel : nat) (reg : regex_t T) (sstr : CHARSXP)
    (useBytes use_WC : bool) (i : Z) (itype : SEXP) :
  tre_engine_wf T reg ->
  (Z.to_nat (Regexc_len H sstr useBytes use_WC) < fuel)%nat ->
  exists ms,
    outcome (gregexpr_Regexc H T fuel reg sstr useBytes use_WC i itype)
    = Val (INTSXP (map fst (match ms with [] => [(-1, -1)] | _ => ms end))
             (match_attribs useBytes itype
                (map snd (match ms with [] => [(-1, -1)] | _ => ms end))))
    /\ apart 0 (Regexc_len H sstr useBytes use_WC) ms.
Proof.
  intros [Hb Hw] Hfuel. unfold gregexpr_Regexc, Regexc_len in *.
  assert (Hfin : forall (ms : list (Z * Z)) (rc : option tre_rc),
            outcome (match rc with Some rc => espace_warning rc i | None => ret tt end ;;
                     ret (INTSXP (map fst (match ms with [] => [(-1, -1)] | _ => ms end))
                            (match_attribs useBytes itype
                               (map snd (match ms with [] => [(-1, -1)] | _ => ms end)))))
            = Val (INTSXP (map fst (match ms with [] => [(-1, -1)] | _ => ms end))
                     (match_attribs useBytes itype
                        (map snd (match ms with [] => [(-1, -1)] | _ => ms end))))).
  { intros ms rc. destruct rc as [[| |]|]; reflexivity. }
  destruct useBytes; cbn [negb].
  - destruct (Regexc_loop_apart _ _ (Hb (CHAR sstr) 1) fuel 0 false None
                ltac:(lia) ltac:(lia)) as (ms & rc & -> & Hap).
    exists ms. split; [apply Hfin | exact Hap].
  - destruct use_WC; cbn [negb] in *.
    + destruct (Regexc_loop_apart _ _ (Hw (wtransChar H sstr) 1) fuel 0 false None
                  ltac:(lia) ltac:(lia)) as (ms & rc & -> & Hap).
      exists ms. split; [apply Hfin | exact Hap].
    + destruct (Regexc_loop_apart _ _ (Hb (translateChar H sstr) 1) fuel 0 false None
                  ltac:(lia) ltac:(lia)) as (ms & rc & -> & Hap).
      exists ms. split; [apply Hfin | exact Hap].
Qed.

End MatchesApart.

(** ** Runs of the further properties *)


Lemma plain_replacement_is_literal_dash :
  string_adj (str "abc") (str "-") [] = str "-"
  /\ count_subs (str "-") = 0
  /\ R_pcre_string_adj hostC (str "abc") (str "-") [] false 1 = str "-"
  /\ wstring_adj [97; 98; 99] [45] [] = [45]
  /\ wcount_subs [45] = 0.
Proof.
  apply (plain_replacement_is_literal hostC (str "abc") (str "-") [97; 98; 99] [45]
           [] [] false 1); reflexivity.
Defined.

Lemma fgrep_leftmost_abcb :
  let r := fgrep_one_bytes hostC (str "b") (str "abcb") (strlen (str "abcb"))
             true false in
  fst (fgrep_one hostC (str "b") (str "abcb") true false) = r
  /\ ((r = -1 /\ forall k, 0 <= k -> ~ occurs_at (str "b") (str "abcb") k)
      \/ (0 <= r /\ occurs_at (str "b") (str "abcb") r
          /\ forall k, 0 <= k < r -> ~ occurs_at (str "b") (str "abcb") k)).
Proof.
  apply (fgrep_leftmost hostC (str "b") (str "abcb") true false).
  - left. reflexivity.
  - vm_compute. discriminate.
Defined.

Lemma grep_is_which_grepl_fixed :
  alike (fun l r => exists ind,
           l = LGLSXP ind []
           /\ length ind
              = length (STRING_ELTS (STRSXP [chars "abc"; NA_STRING; chars "xbz"] []))
           /\ r = INTSXP (which (na_false None) ind) [])
    (do_grep hostC treT pcreT true false (String1 "b")
       (STRSXP [chars "abc"; NA_STRING; chars "xbz"] [])
       None None None (Some true) None None)
    (do_grep hostC treT pcreT false false (String1 "b")
       (STRSXP [chars "abc"; NA_STRING; chars "xbz"] [])
       None None None (Some true) None None).
Proof.
  apply (grep_is_which_grepl hostC treT pcreT false (String1 "b")
           (STRSXP [chars "abc"; NA_STRING; chars "xbz"] [])
           None None None (Some true) None None).
  - reflexivity.
  - reflexivity.
  - vm_compute. discriminate.
  - left. reflexivity.
Defined.

(** [grep ("b", c ("abc", NA, "xbz"), fixed = TRUE)] is [c (1, 3)]. *)
Example grep_fixed_positions :
  do_grep hostC treT pcreT false false (String1 "b")
    (STRSXP [chars "abc"; NA_STRING; chars "xbz"] [])
    None None None (Some true) None None
  = ([], Val (INTSXP [1; 3] [])).
Proof. vm_compute. reflexivity. Qed.

Lemma unmatched_is_unchanged_abc :
  outcome (gsub_elt hostC treT pcreT 10 (C_fixed treT pcreT) true false false false
             (chars "-") (str "x") (str "-") [] 1 (chars "abc") 0 (str "abc"))
  = Val (chars "abc").
Proof.
  apply (unmatched_is_unchanged hostC treT pcreT 10%nat (C_fixed treT pcreT)
           true false false false (chars "-") (str "x") (str "-") [] 1
           (chars "abc") 0 (str "abc")).
  - lia.
  - reflexivity.
Defined.

Lemma self_replacement_rebuilds_abcb :
  gsub_elt hostC treT pcreT 10 (C_fixed treT pcreT) true false false false
    (chars "b") (str "b") (str "b") [] 1 (chars "abcb") 0 (str "abcb")
  = ret (if fgrep_one_bytes hostC (str "b") (str "abcb") (strlen (str "abcb"))
              false false <? 0
         then chars "abcb" else gsub_mark hostC false false (chars "abcb") (str "abcb")).
Proof.
  apply (self_replacement_rebuilds hostC treT pcreT 10%nat true false false false
           (chars "b") (str "b") [] 1 (chars "abcb") 0 (str "abcb")).
  - vm_compute. discriminate.
  - reflexivity.
  - vm_compute. lia.
Defined.

Lemma fixed_buffer_is_exact_abcb :
  exists cbuf,
    gsub_elt hostC treT pcreT 10 (C_fixed treT pcreT) true false false false
      (chars "xyz") (str "b") (str "xyz") [] 3 (chars "abcb") 0 (str "abcb")
    = ret (gsub_mark hostC false false (chars "abcb") cbuf)
    /\ strlen cbuf
       = strlen (str "abcb")
         + gsub_fixed_nr hostC 10 true false false (str "b") (str "abcb")
             (fgrep_one_bytes hostC (str "b") (str "abcb") (strlen (str "abcb"))
                false false)
           * (strlen (str "xyz") - strlen (str "b")).
Proof.
  apply (fixed_buffer_is_exact hostC treT pcreT 10%nat true false false false
           (chars "xyz") (str "b") (str "xyz") [] 3 (chars "abcb") 0 (str "abcb")).
  - vm_compute. discriminate.
  - reflexivity.
  - vm_compute. lia.
  - vm_compute. discriminate.
Defined.

(** [gsub ("b", "xyz", "abcb", fixed = TRUE)]: two matches, 4 + 2 * (3 - 1)
    bytes. *)
Example gsub_fixed_abcb :
  gsub_elt hostC treT pcreT 10 (C_fixed treT pcreT) true false false false
    (chars "xyz") (str "b") (str "xyz") [] 3 (chars "abcb") 0 (str "abcb")
  = ret (chars "axyzcxyz")
  /\ gsub_fixed_nr hostC 10 true false false (str "b") (str "abcb") 1 = 2.
Proof. split; vm_compute; reflexivity. Qed.

Lemma split_fixed_round_trip_commas :
  exists (pieces : list cstr) (tail : cstr),
    split_fixed hostC false (chars "a,b,,c") (str "a,b,,c") (str ",")
    = STRSXP (map (split_token hostC false (chars "a,b,,c"))
                (pieces ++ match tail with [] => [] | _ => [tail] end)) []
    /\ str "a,b,,c" = join_with (str ",") pieces ++ tail
    /\ Forall (free_of (str ",")) pieces
    /\ free_of (str ",") tail.
Proof.
  apply (split_fixed_round_trip hostC false (chars "a,b,,c") (str "a,b,,c") (str ",")).
  vm_compute. discriminate.
Defined.

Lemma grepraw_fixed_first_xxabab :
  let r := fgrepraw1 (str "ab") (str "xxabab") (2 - 1) in
  ((r = -1 /\ forall k, 2 - 1 <= k -> ~ occurs_at (str "ab") (str "xxabab") k)
   \/ (2 - 1 <= r /\ occurs_at (str "ab") (str "xxabab") r
       /\ forall k, 2 - 1 <= k < r -> ~ occurs_at (str "ab") (str "xxabab") k))
  /\ outcome (do_grepraw treT 10 (RAWSXP (str "ab")) (RAWSXP (str "xxabab")) 2 None
                (Some true) (Some false) (Some false) (Some false))
     = Val (if r =? -1 then INTSXP [] [] else ScalarInteger (r + 1))
  /\ outcome (do_grepraw treT 10 (RAWSXP (str "ab")) (RAWSXP (str "xxabab")) 2 None
                (Some true) (Some true) (Some false) (Some false))
     = Val (if r =? -1 then RAWSXP [] else RAWSXP (str "ab")).
Proof.
  apply (grepraw_fixed_first treT 10%nat (str "ab") (str "xxabab") 2 None).
  - vm_compute. discriminate.
  - vm_compute. discriminate.
  - vm_compute. split; discriminate.
Defined.

(** [grepRaw] of "ab" in "xxabab" from the second byte on: position 3. *)
Example grepraw_first_xxabab :
  do_grepraw treT 10 (RAWSXP (str "ab")) (RAWSXP (str "xxabab")) 2 None
    (Some true) (Some false) (Some false) (Some false)
  = ([], Val (INTSXP [3] [])).
Proof. vm_compute. reflexivity. Qed.

Lemma grepraw_fixed_all_xxabab :
  exists ms,
    outcome (do_grepraw treT 10 (RAWSXP (str "ab")) (RAWSXP (str "xxabab")) 1 None
               (Some true) (Some false) (Some true) None)
    = Val (INTSXP ms [])
    /\ greedy (str "ab") (str "xxabab") (1 - 1) ms
    /\ (ms <> [] ->
        exists pieces,
          outcome (do_grepraw treT 10 (RAWSXP (str "ab")) (RAWSXP (str "xxabab")) 1
                     None (Some true) (Some true) (Some true) (Some true))
          = Val (VECSXP (map RAWSXP pieces) [])
          /\ length pieces = S (length ms)
          /\ intercalate (str "ab") pieces = str "xxabab").
Proof.
  apply (grepraw_fixed_all treT 10%nat (str "ab") (str "xxabab") 1 None None).
  - vm_compute. discriminate.
  - vm_compute. discriminate.
  - vm_compute. split; discriminate.
Defined.

(** [grepRaw] of "ab" in "xxabab", all matches: the starts 3 and 5, and the
    pieces "xx", "" and "". *)
Example grepraw_all_xxabab :
  do_grepraw treT 10 (RAWSXP (str "ab")) (RAWSXP (str "xxabab")) 1 None
    (Some true) (Some false) (Some true) None
  = ([], Val (INTSXP [3; 5] []))
  /\ do_grepraw treT 10 (RAWSXP (str "ab")) (RAWSXP (str "xxabab")) 1 None
       (Some true) (Some true) (Some true) (Some true)
     = ([], Val (VECSXP [RAWSXP (str "xx"); RAWSXP []; RAWSXP []] [])).
Proof. split; vm_compute; reflexivity. Qed.

Lemma max_recursions_fit_8MB :
  let r := R_pcre_max_recursions 1 8388608 1 1000000 995904 in
  let left := 8388608 - stack_used 1 1000000 995904 in
  0 <= r <= LONG_MAX
  /\ (left <= 0 -> r = 0)
  /\ (0 < left -> 600 * r <= left < 600 * (r + 1)).
Proof.
  apply (max_recursions_fit 1 8388608 1 1000000 995904).
  - discriminate.
  - vm_compute. split; [discriminate | reflexivity].
  - vm_compute. split; discriminate.
  - vm_compute. split; discriminate.
Defined.

Example max_recursions_8MB : R_pcre_max_recursions 1 8388608 1 1000000 995904 = 13974.
Proof. vm_compute. reflexivity. Qed.

Lemma gregexpr_fixed_greedy_abcb :
  exists ms lens,
    gregexpr_fixed hostC (str "b") (str "abcb") true false (String1 "bytes")
    = INTSXP ms (match_attribs true (String1 "bytes") lens)
    /\ ((ms = [-1] /\ lens = [-1]
         /\ forall k, 0 <= k -> ~ occurs_at (str "b") (str "abcb") k)
        \/ (ms <> [] /\ greedy (str "b") (str "abcb") 0 ms
            /\ lens = map (fun _ => strlen (str "b")) ms)).
Proof.
  apply (gregexpr_fixed_greedy hostC (str "b") (str "abcb") false (String1 "bytes")).
  vm_compute. discriminate.
Defined.

Lemma gsub_shape_abc :
  exists ans,
    STRSXP [chars "a-c"; NA_STRING] [] = STRSXP ans (ATTRIB (STRSXP [chars "abc"; NA_STRING] []))
    /\ Forall2 keeps_missing (STRING_ELTS (STRSXP [chars "abc"; NA_STRING] [])) ans.
Proof.
  apply (gsub_shape hostC treT pcreT true 10%nat false (String1 "b") (String1 "-")
           (STRSXP [chars "abc"; NA_STRING] []) (STRSXP [chars "a-c"; NA_STRING] [])
           None None None None).
  - reflexivity.
  - vm_compute. reflexivity.
Defined.

Lemma split_chars_round_trip_abc :
  exists pieces,
    split_chars hostC 10 false false (chars "abc") (str "abc")
    = ret (STRSXP
             (map (if negb false && (false || mbcslocale hostC)
                      && negb (strIsASCII hostC (str "abc"))
                   then mkCharCE_UTF8 hostC
                   else fun t => markKnown hostC t (chars "abc"))
                pieces) [])
    /\ concat pieces = str "abc"
    /\ Forall (fun t => t <> []) pieces.
Proof.
  apply (split_chars_round_trip hostC 10%nat false false (chars "abc") (str "abc")).
  - right. reflexivity.
  - discriminate.
  - vm_compute. lia.
Defined.

Lemma strsplit_shape_commas :
  exists ans,
    VECSXP [STRSXP [chars "a"; chars "b"] []; STRSXP [NA_STRING] []] []
    = VECSXP ans (names_attr (getAttrib (STRSXP [chars "a,b"; NA_STRING] []) "names"))
    /\ length ans = length (STRING_ELTS (STRSXP [chars "a,b"; NA_STRING] []))
    /\ forall i, (i < length (STRING_ELTS (STRSXP [chars "a,b"; NA_STRING] [])))%nat ->
         is_NA (nth i (STRING_ELTS (STRSXP [chars "a,b"; NA_STRING] [])) NA_STRING)
         = true ->
         nth i ans R_NilValue = ScalarString NA_STRING.
Proof.
  apply (strsplit_shape hostC treT pcreT 10%nat false
           (STRSXP [chars "a,b"; NA_STRING] []) (String1 ",")
           (VECSXP [STRSXP [chars "a"; chars "b"] []; STRSXP [NA_STRING] []] [])
           (Some true) None None).
  vm_compute. reflexivity.
Defined.

Lemma sub_replaces_first_match_bbc :
  gsub_elt hostC treT pcreT 10 (C_tre treT pcreT (Star "b")) false false false false
    (chars "<\1>") (str "b*") (str "<\1>") [] (strlen (str "<\1>"))
    (chars "bbc") 0 (str "bbc")
  = ret (gsub_mark hostC false false (chars "bbc")
           (take (rm_so (rm [{| rm_so := 0; rm_eo := 2 |}] 0)) (str "bbc")
            ++ string_adj (str "bbc") (str "<\1>") [{| rm_so := 0; rm_eo := 2 |}]
            ++ advance (str "bbc") (rm_eo (rm [{| rm_so := 0; rm_eo := 2 |}] 0)))).
Proof.
  apply (sub_replaces_first_match hostC treT pcreT 10%nat (Star "b") false false
           (chars "<\1>") (str "b*") (str "<\1>") [] (chars "bbc") 0 (str "bbc")
           [{| rm_so := 0; rm_eo := 2 |}]).
  - lia.
  - reflexivity.
  - reflexivity.
  - vm_compute. split; discriminate.
  - vm_compute. discriminate.
  - vm_compute. discriminate.
Defined.

Lemma grep_value_selects_named :
  alike (fun v r => exists idx,
           r = INTSXP idx []
           /\ v = STRSXP
                    (at_positions NA_STRING
                       (STRING_ELTS
                          (STRSXP [chars "abc"; NA_STRING; chars "xbz"]
                             [("names"%string,
                               STRSXP [chars "p"; chars "q"; chars "r"] [])])) idx)
                    (if isNull
                          (getAttrib
                             (STRSXP [chars "abc"; NA_STRING; chars "xbz"]
                                [("names"%string,
                                  STRSXP [chars "p"; chars "q"; chars "r"] [])])
                             "names")
                     then []
                     else [("names"%string,
                            STRSXP
                              (at_positions NA_STRING
                                 (STRING_ELTS
                                    (getAttrib
                                       (STRSXP [chars "abc"; NA_STRING; chars "xbz"]
                                          [("names"%string,
                                            STRSXP [chars "p"; chars "q"; chars "r"]
                                              [])])
                                       "names")) idx)
                              [])]))
    (do_grep hostC treT pcreT false false (String1 "b")
       (STRSXP [chars "abc"; NA_STRING; chars "xbz"]
          [("names"%string, STRSXP [chars "p"; chars "q"; chars "r"] [])])
       None (Some true) None (Some true) None None)
    (do_grep hostC treT pcreT false false (String1 "b")
       (STRSXP [chars "abc"; NA_STRING; chars "xbz"]
          [("names"%string, STRSXP [chars "p"; chars "q"; chars "r"] [])])
       None (Some false) None (Some true) None None).
Proof.
  apply (grep_value_selects hostC treT pcreT false (String1 "b")
           (STRSXP [chars "abc"; NA_STRING; chars "xbz"]
              [("names"%string, STRSXP [chars "p"; chars "q"; chars "r"] [])])
           None None (Some true) None None).
  - reflexivity.
  - vm_compute. discriminate.
  - left. reflexivity.
  - intros _. reflexivity.
Defined.

(** [grep ("b", c (p = "abc", q = NA, r = "xbz"), value = TRUE, fixed = TRUE)]
    is [c (p = "abc", r = "xbz")]. *)
Example grep_value_named :
  do_grep hostC treT pcreT false false (String1 "b")
    (STRSXP [chars "abc"; NA_STRING; chars "xbz"]
       [("names"%string, STRSXP [chars "p"; chars "q"; chars "r"] [])])
    None (Some true) None (Some true) None None
  = ([], Val (STRSXP [chars "abc"; chars "xbz"]
                [("names"%string, STRSXP [chars "p"; chars "r"] [])])).
Proof. vm_compute. reflexivity. Qed.

Lemma grepl_never_missing_abc :
  exists ind,
    LGLSXP [1; 0; 0] [] = LGLSXP ind []
    /\ Forall2 (fun x b => (b = 0 \/ b = 1) /\ (is_NA x = true -> b = 0))
         (STRING_ELTS (STRSXP [chars "abc"; NA_STRING; chars "xyz"] [])) ind.
Proof.
  apply (grepl_never_missing hostC treT pcreT false (String1 "b")
           (STRSXP [chars "abc"; NA_STRING; chars "xyz"] []) (LGLSXP [1; 0; 0] [])
           None None None None None None).
  - reflexivity.
  - vm_compute. reflexivity.
Defined.

Lemma regexpr_is_first_of_gregexpr_star :
  exists (rows : list (Z * Z * SEXP)) attrs,
    INTSXP [1; NA_INTEGER; 1]
      (match_attribs true (String1 "bytes") [2; NA_INTEGER; 0])
    = INTSXP (map (fun r => fst (fst r)) rows)
        (("match.length"%string, INTSXP (map (fun r => snd (fst r)) rows) [])
         :: attrs)
    /\ VECSXP [INTSXP [1; 3] (match_attribs true (String1 "bytes") [2; 0]);
               gregexpr_NAInputAns;
               INTSXP [-1] (match_attribs true (String1 "bytes") [-1])] []
       = VECSXP (map snd rows) []
    /\ Forall2 (fun x '(a, l, e) =>
                  is_NA x = true \/ 1 <= strlen (CHAR x)
                  \/ na_false None = true \/ na_false None = true ->
                  first_of a l e)
         (STRING_ELTS (STRSXP [chars "bba"; NA_STRING; chars ""] [])) rows.
Proof.
  apply (regexpr_is_first_of_gregexpr hostC treT pcreT 10%nat 10%nat false
           (String1 "b*") (STRSXP [chars "bba"; NA_STRING; chars ""] [])
           (INTSXP [1; NA_INTEGER; 1]
              (match_attribs true (String1 "bytes") [2; NA_INTEGER; 0]))
           (VECSXP [INTSXP [1; 3] (match_attribs true (String1 "bytes") [2; 0]);
                    gregexpr_NAInputAns;
                    INTSXP [-1] (match_attribs true (String1 "bytes") [-1])] [])
           None None None (Some true)).
  - reflexivity.
  - vm_compute. reflexivity.
  - vm_compute. reflexivity.
Defined.

(** With TRE, [regexpr ("b*", "")] is 1 with the match length 0, and
    [gregexpr ("b*", "")] is -1: [gregexpr_Regexc] does not run the engine
    on an empty string. *)
Example regexpr_gregexpr_empty_string :
  do_regexpr hostC treT pcreT false 10 false (String1 "b*") (String1 "")
    None None None (Some true)
  = ([], Val (INTSXP [1] (match_attribs true (String1 "bytes") [0])))
  /\ do_regexpr hostC treT pcreT true 10 false (String1 "b*") (String1 "")
       None None None (Some true)
     = ([], Val (VECSXP [INTSXP [-1] (match_attribs true (String1 "bytes") [-1])]
                   [])).
Proof. split; vm_compute; reflexivity. Qed.

Lemma gsub_fixed_joins_split_commas :
  exists (ms : list Z) (pieces : list cstr) (tail : cstr),
    greedy (str ",") (str "a,b,,c") 0 ms
    /\ between (str "a,b,,c") 0 ms (strlen (str ",")) = (pieces, tail)
    /\ split_fixed hostC false (chars "a,b,,c") (str "a,b,,c") (str ",")
       = STRSXP (map (split_token hostC false (chars "a,b,,c"))
                   (pieces ++ match tail with [] => [] | _ => [tail] end)) []
    /\ gsub_elt hostC treT pcreT 10 (C_fixed treT pcreT) true true false false
         (chars "-") (str ",") (str "-") [] 1 (chars "a,b,,c") 0 (str "a,b,,c")
       = ret (match ms with
              | [] => chars "a,b,,c"
              | _ => gsub_mark hostC true false (chars "a,b,,c")
                       (join_with (str "-") pieces ++ tail)
              end).
Proof.
  apply (gsub_fixed_joins_split hostC treT pcreT 10%nat true false false false
           (chars "-") (str ",") (str "-") [] 1 (chars "a,b,,c") 0 (str "a,b,,c")).
  - left. reflexivity.
  - vm_compute. discriminate.
  - reflexivity.
  - vm_compute. lia.
Defined.

(** [gsub (",", "-", "a,b,,c", fixed = TRUE)] is "a-b--c". *)
Example gsub_fixed_commas :
  gsub_elt hostC treT pcreT 10 (C_fixed treT pcreT) true true false false
    (chars "-") (str ",") (str "-") [] 1 (chars "a,b,,c") 0 (str "a,b,,c")
  = ret (chars "a-b--c").
Proof. vm_compute. reflexivity. Qed.


(** [strsplit ("abbc", "b*")]: "a", "" and "c". *)
Example split_ere_star :
  split_ere hostC treT (Star "b") (chars "abbc") 0 (str "abbc")
  = ([], Val (STRSXP [chars "a"; chars ""; chars "c"] [])).
Proof. vm_compute. reflexivity. Qed.



Lemma gregexpr_matches_apart_star :
  exists ms,
    outcome (gregexpr_Regexc hostC treT 10 (Star "b") (chars "abcb") true false 0
               (String1 "bytes"))
    = Val (INTSXP (map fst (match ms with [] => [(-1, -1)] | _ => ms end))
             (match_attribs true (String1 "bytes")
                (map snd (match ms with [] => [(-1, -1)] | _ => ms end))))
    /\ apart 0 (Regexc_len hostC (chars "abcb") true false) ms.
Proof.
  apply (gregexpr_matches_apart hostC treT 10%nat (Star "b") (chars "abcb") true false
           0 (String1 "bytes")).
  - apply star_engine_wf.
  - vm_compute. lia.
Defined.
